(** * Chapter 19, optimization strategies: a shallow embedding

    The four utilities of [chapter-19/mcp_optimization_strategies.py]
    ([ContextAwareCache], [CapabilityAwareLoadBalancer],
    [RequestOrchestrator], [PerformanceMonitor]) as Rocq functions, with the
    properties their specification states, followed by properties of the
    remaining methods and of sequences of calls.

    Conventions of the embedding:
    - a Python [int] is a [Z]; [len] of a container is [Z.of_nat] of its size;
    - a Python [float] is a primitive binary64 [float];
    - a Python [str] is a [string] whose characters are code points below 256;
    - a Python [dict] whose iteration order is observable is an association
      list in insertion order with distinct keys; the cache's [_store], whose
      order is never observed, is a [gmap];
    - a method that mutates [self] returns the new state; a method that can
      raise returns a [result];
    - the library functions the code calls ([json.dumps], [list.sort],
      slices, [statistics.mean], [asyncio.gather]) are modelled after
      CPython's. *)

From stdpp Require Import gmap strings list sorting pretty.
From Stdlib Require Import Ascii Floats.

Set Warnings "-register-all,-inexact-float,-clear-no-such-hyp".

(** ** Python exceptions and the error monad *)

Inductive py_exception :=
| IndexError       (* list.pop on an empty list *)
| KeyError         (* del d[k] / d[k] on a missing key *)
| ValueError       (* list.remove of a missing element *)
| StatisticsError  (* statistics.mean of no data *)
| RuntimeError (msg : string). (* raise RuntimeError(msg) *)

Inductive result (A : Type) :=
| Ok (a : A)
| Raise (e : py_exception).
Arguments Ok {A} a.
Arguments Raise {A} e.

#[global] Instance result_ret : MRet result := λ A a, Ok a.
#[global] Instance result_bind : MBind result := λ A B f m,
  match m with Ok a => f a | Raise e => Raise e end.
#[global] Instance result_fmap : FMap result := λ A B f m,
  match m with Ok a => Ok (f a) | Raise e => Raise e end.

Definition len {A} (l : list A) : Z := Z.of_nat (length l).

(** ** Python dictionaries in insertion order *)

Section Dict.
Context {A : Type}.
Implicit Types (d : list (string * A)) (k : string).

(** [d.get(k)] *)
Fixpoint dict_get d k : option A :=
  match d with
  | [] => None
  | (k', a) :: d' => if decide (k = k') then Some a else dict_get d' k
  end.

(** [k in d] *)
Definition dict_mem d k : bool := bool_decide (is_Some (dict_get d k)).

(** [d[k] = a]: an existing key keeps its position, a new key goes last. *)
Fixpoint dict_set d k (a : A) : list (string * A) :=
  match d with
  | [] => [(k, a)]
  | (k', a') :: d' =>
      if decide (k = k') then (k, a) :: d' else (k', a') :: dict_set d' k a
  end.

(** [d[k][field] = ...]: the entry under [k] is updated in place. *)
Fixpoint dict_alter (f : A → A) d k : list (string * A) :=
  match d with
  | [] => []
  | (k', a') :: d' =>
      if decide (k = k') then (k', f a') :: d' else (k', a') :: dict_alter f d' k
  end.

(** [del d[k]], for a key that is present. *)
Fixpoint dict_del d k : list (string * A) :=
  match d with
  | [] => []
  | (k', a') :: d' =>
      if decide (k = k') then d' else (k', a') :: dict_del d' k
  end.
End Dict.

(** ** [sorted] / [list.sort]: a stable sort on a key *)

Section PySorted.
Context {A K : Type} (key : A → K) (le : K → K → bool).

Fixpoint insert_sorted (x : A) (l : list A) : list A :=
  match l with
  | [] => [x]
  | y :: l' =>
      if le (key x) (key y) then x :: y :: l' else y :: insert_sorted x l'
  end.

(** Elements are inserted from the right, each one before the elements it
    is not greater than: equal keys keep their original order. *)
Definition py_sorted (l : list A) : list A := foldr insert_sorted [] l.

(** The order the sort establishes. *)
Definition key_le : relation A := λ x y, le (key x) (key y).
End PySorted.

(** ** [json.dumps(_, sort_keys=True)] *)

Inductive json :=
| JNull
| JBool (b : bool)
| JInt (n : Z)
| JStr (s : string)
| JList (xs : list json)
| JDict (items : list (string * json)).

Definition hex_digit (n : N) : string :=
  String.substring (N.to_nat n) 1 "0123456789abcdef".

(** [ESCAPE_DCT] and the [\uXXXX] fallback of [py_encode_basestring_ascii]:
    everything outside [' '..'~'], the quote and the backslash is escaped. *)
Definition escape_char (c : ascii) : string :=
  match c with
  | "034"%char => String "\" (String "034" "")
  | "\"%char => "\\"
  | "008"%char => "\b"
  | "012"%char => "\f"
  | "010"%char => "\n"
  | "013"%char => "\r"
  | "009"%char => "\t"
  | _ =>
      let n := Ascii.N_of_ascii c in
      if bool_decide (32 ≤ n ≤ 126)%N then String c ""
      else "\u00" +:+ hex_digit (n / 16) +:+ hex_digit (n mod 16)
  end.

Fixpoint escape (s : string) : string :=
  match s with
  | EmptyString => ""
  | String c s' => escape_char c +:+ escape s'
  end.

Definition encode_basestring_ascii (s : string) : string :=
  String "034" (escape s) +:+ String "034" "".

(** Dictionary items are emitted in sorted key order; the values are rendered
    before the sort (which only looks at the keys) so that the recursion is
    structural. *)
Fixpoint dumps (j : json) : string :=
  match j with
  | JNull => "null"
  | JBool b => if b then "true" else "false"
  | JInt n => pretty n
  | JStr s => encode_basestring_ascii s
  | JList xs => "[" +:+ String.concat ", " (map dumps xs) +:+ "]"
  | JDict items =>
      "{" +:+
      String.concat ", "
        (map (λ kv, encode_basestring_ascii kv.1 +:+ ": " +:+ kv.2)
           (py_sorted fst String.leb (map (λ p, (p.1, dumps p.2)) items)))
      +:+ "}"
  end.

(** What a JSON-like Python object is as a value: a dictionary is a finite
    map, whatever order its keys were inserted in.  Two objects are equal in
    the sense of Python's [==] when they denote the same value. *)
Inductive jvalue :=
| VNull
| VBool (b : bool)
| VInt (n : Z)
| VStr (s : string)
| VList (xs : list jvalue)
| VDict (m : gmap string jvalue).

Fixpoint json_denote (j : json) : jvalue :=
  match j with
  | JNull => VNull
  | JBool b => VBool b
  | JInt n => VInt n
  | JStr s => VStr s
  | JList xs => VList (map json_denote xs)
  | JDict items =>
      VDict (list_to_map (map (λ p, (p.1, json_denote p.2)) items))
  end.

(** The keys of every dictionary inside the object are distinct, as they are
    in a Python [dict]. *)
Fixpoint json_wf (j : json) : Prop :=
  match j with
  | JList xs =>
      (fix go (l : list json) : Prop :=
         match l with [] => True | x :: l' => json_wf x ∧ go l' end) xs
  | JDict items =>
      NoDup items.*1 ∧
      (fix go (l : list (string * json)) : Prop :=
         match l with [] => True | p :: l' => json_wf p.2 ∧ go l' end) items
  | _ => True
  end.

(** ** Part 1: [ContextAwareCache] *)

Section Cache.
Context {V : Type}.

Record ContextAwareCache := {
  max_size : Z;
  _store : gmap string V;
  _access_order : list string;
  hits : Z;
  misses : Z;
}.

(** [__init__] *)
Definition new_cache (max_size : Z) : ContextAwareCache :=
  {| max_size := max_size; _store := ∅; _access_order := [];
     hits := 0; misses := 0 |}.

Definition _make_key (query : string) (context : list (string * json))
  : string :=
  let ctx_sig := dumps (JDict context) in
  query +:+ "::" +:+ ctx_sig.

(** [list.remove(x)]: drops the first occurrence, [ValueError] if none. *)
Fixpoint list_remove (x : string) (l : list string) : result (list string) :=
  match l with
  | [] => Raise ValueError
  | y :: l' => if decide (x = y) then Ok l' else (y ::.) <$> list_remove x l'
  end.

(** [list.pop(0)] *)
Definition list_pop0 (l : list string) : result (string * list string) :=
  match l with
  | [] => Raise IndexError
  | x :: l' => Ok (x, l')
  end.

(** [del store[k]] *)
Definition store_del (k : string) (m : gmap string V)
  : result (gmap string V) :=
  match m !! k with
  | Some _ => Ok (delete k m)
  | None => Raise KeyError
  end.

Definition get (c : ContextAwareCache) (query : string)
    (context : list (string * json))
  : result (option V * ContextAwareCache) :=
  let key := _make_key query context in
  match _store c !! key with
  | Some v =>
      order ← list_remove key (_access_order c);
      mret (Some v,
            {| max_size := max_size c; _store := _store c;
               _access_order := order ++ [key];
               hits := hits c + 1; misses := misses c |})
  | None =>
      mret (None,
            {| max_size := max_size c; _store := _store c;
               _access_order := _access_order c;
               hits := hits c; misses := misses c + 1 |})
  end.

Definition put (c : ContextAwareCache) (query : string)
    (context : list (string * json)) (value : V)
  : result ContextAwareCache :=
  let key := _make_key query context in
  '(store, order) ←
    (if bool_decide (max_size c ≤ Z.of_nat (size (_store c)))%Z
        && bool_decide (_store c !! key = None)
     then
       '(oldest, order) ← list_pop0 (_access_order c);
       store ← store_del oldest (_store c);
       mret (store, order)
     else mret (_store c, _access_order c));
  let store := <[key := value]> store in
  let order := if bool_decide (key ∈ order) then order else order ++ [key] in
  mret {| max_size := max_size c; _store := store; _access_order := order;
          hits := hits c; misses := misses c |}.

(** The state a cache is in between calls: the access-order list holds
    exactly the keys of the store, each once. *)
Definition cache_wf (c : ContextAwareCache) : Prop :=
  NoDup (_access_order c) ∧
  ∀ k, k ∈ _access_order c ↔ is_Some (_store c !! k).
End Cache.
Arguments ContextAwareCache V : clear implicits.

(** ** Part 2: [CapabilityAwareLoadBalancer] *)

Record server_info := {
  capabilities : gset string;
  current_load : Z;
  total_handled : Z;
}.

Record CapabilityAwareLoadBalancer := {
  servers : list (string * server_info);
}.

(** [__init__] *)
Definition new_balancer : CapabilityAwareLoadBalancer := {| servers := [] |}.

Definition register_server (lb : CapabilityAwareLoadBalancer) (name : string)
    (caps : list string) : CapabilityAwareLoadBalancer :=
  {| servers :=
       dict_set (servers lb) name
         {| capabilities := list_to_set caps;
            current_load := 0; total_handled := 0 |} |}.

(** [set(required_caps).issubset(info["capabilities"])] *)
Definition has_capabilities (required_caps : list string) (info : server_info)
  : bool :=
  bool_decide (list_to_set required_caps ⊆ capabilities info).

Definition candidates_of (required_caps : list string)
    (svs : list (string * server_info)) : list (string * Z) :=
  omap (λ '(name, info),
          if has_capabilities required_caps info
          then Some (name, current_load info) else None) svs.

Definition add_load (info : server_info) : server_info :=
  {| capabilities := capabilities info;
     current_load := current_load info + 1;
     total_handled := total_handled info |}.

Definition add_handled (info : server_info) : server_info :=
  {| capabilities := capabilities info;
     current_load := current_load info;
     total_handled := total_handled info + 1 |}.

Definition select_server (lb : CapabilityAwareLoadBalancer)
    (required_caps : list string)
  : option string * CapabilityAwareLoadBalancer :=
  let candidates := candidates_of required_caps (servers lb) in
  match candidates with
  | [] => (None, lb)
  | _ :: _ =>
      match py_sorted snd Z.leb candidates with
      | [] => (None, lb)
      | (chosen, _) :: _ =>
          (Some chosen,
           {| servers :=
                dict_alter add_handled
                  (dict_alter add_load (servers lb) chosen) chosen |})
      end
  end.

Definition dec_load (info : server_info) : server_info :=
  {| capabilities := capabilities info;
     current_load := Z.max 0 (current_load info - 1);
     total_handled := total_handled info |}.

Definition release (lb : CapabilityAwareLoadBalancer) (server_name : string)
  : CapabilityAwareLoadBalancer :=
  if dict_mem (servers lb) server_name
  then {| servers := dict_alter dec_load (servers lb) server_name |}
  else lb.

Definition load_distribution (lb : CapabilityAwareLoadBalancer)
  : list (string * Z) :=
  map (λ '(n, s), (n, total_handled s)) (servers lb).

(** The provider supports every required capability. *)
Definition qualifies (required_caps : list string) (info : server_info) : Prop :=
  (list_to_set required_caps : gset string) ⊆ capabilities info.

#[global] Instance qualifies_dec required_caps info :
  Decision (qualifies required_caps info).
Proof. unfold qualifies. apply _. Defined.

(** What a selection does to the chosen provider's record. *)
Definition selected (info : server_info) : server_info :=
  {| capabilities := capabilities info;
     current_load := current_load info + 1;
     total_handled := total_handled info + 1 |}.

(** The operations a caller can issue, and a run of them from a balancer. *)
Inductive lb_op :=
| OpRegister (name : string) (caps : list string)
| OpSelect (required_caps : list string)
| OpRelease (server_name : string)
| OpLoadDistribution.

Definition lb_step (lb : CapabilityAwareLoadBalancer) (op : lb_op)
  : CapabilityAwareLoadBalancer :=
  match op with
  | OpRegister name caps => register_server lb name caps
  | OpSelect required_caps => (select_server lb required_caps).2
  | OpRelease server_name => release lb server_name
  | OpLoadDistribution => lb
  end.

Definition lb_run (ops : list lb_op) : CapabilityAwareLoadBalancer :=
  foldl lb_step new_balancer ops.

(** ** Part 3: [RequestOrchestrator] *)

Record RequestOrchestrator := {
  total_requests : Z;
  total_batches : Z;
}.

(** [__init__] *)
Definition new_orchestrator : RequestOrchestrator :=
  {| total_requests := 0; total_batches := 0 |}.

(** What an observer of a run sees, in order: the callback being invoked on a
    task, and a task's result being stored in [completed]. *)
Inductive event :=
| Invoked (task : string)
| Recorded (task : string).

#[global] Instance event_eq_dec : EqDecision event.
Proof. solve_decision. Defined.

Section Orchestrator.
(** Results and exceptions of the task callback.  The callback is a function
    from the task name to what awaiting it produces: [inr r] when it returns
    [r], [inl e] when it raises [e]. *)
Context {R E : Type}.

(** How a call of [execute_dag] ends: it returns [completed], or it raises
    an exception of its own, or an exception [e] raised by the callback
    leaves it through [await asyncio.gather]. *)
Inductive dag_outcome :=
| Returned (completed : list (string * R))
| Raised (err : py_exception)
| TaskFailed (e : E).

(** The local variables of [execute_dag], the orchestrator's counters and
    the events so far. *)
Record run_state := {
  completed : list (string * R);
  remaining : list (string * list string);
  orch : RequestOrchestrator;
  trace : list event;
}.

(** [[t for t, deps in remaining.items() if all(d in completed for d in deps)]] *)
Definition ready_tasks (completed : list (string * R))
    (remaining : list (string * list string)) : list string :=
  omap (λ '(t, deps),
          if forallb (dict_mem completed) deps then Some t else None)
    remaining.

(** [await asyncio.gather(...)]: the results in argument order, or the
    exception of a task that raised (here the first in argument order). *)
Fixpoint gather (outs : list (E + R)) : E + list R :=
  match outs with
  | [] => inr []
  | inl e :: _ => inl e
  | inr r :: outs' =>
      match gather outs' with
      | inl e => inl e
      | inr rs => inr (r :: rs)
      end
  end.

(** One iteration of [for task, result in zip(ready, batch_results)]. *)
Definition record_result (s : run_state) (tr : string * R) : run_state :=
  {| completed := dict_set (completed s) tr.1 tr.2;
     remaining := dict_del (remaining s) tr.1;
     orch := {| total_requests := total_requests (orch s) + 1;
                total_batches := total_batches (orch s) |};
     trace := trace s ++ [Recorded tr.1] |}.

(** [self.total_batches += 1] and the creation of the wave's coroutines. *)
Definition start_batch (s : run_state) (ready : list string) : run_state :=
  {| completed := completed s;
     remaining := remaining s;
     orch := {| total_requests := total_requests (orch s);
                total_batches := total_batches (orch s) + 1 |};
     trace := trace s ++ (Invoked <$> ready) |}.

(** The [while remaining] loop; [fuel] bounds the number of iterations and
    [None] is an exhausted bound. *)
Fixpoint execute_loop (fuel : nat) (execute_fn : string → E + R)
    (s : run_state) : option (dag_outcome * run_state) :=
  match remaining s with
  | [] => Some (Returned (completed s), s)
  | _ :: _ =>
      match fuel with
      | O => None
      | S fuel' =>
          let ready := ready_tasks (completed s) (remaining s) in
          match ready with
          | [] =>
              Some (Raised (RuntimeError "Cycle detected in task DAG"), s)
          | _ :: _ =>
              let s1 := start_batch s ready in
              match gather (execute_fn <$> ready) with
              | inl e => Some (TaskFailed e, s1)
              | inr batch_results =>
                  execute_loop fuel' execute_fn
                    (foldl record_result s1 (zip ready batch_results))
              end
          end
      end
  end.

(** Every iteration that does not leave the loop deletes at least one key
    of [remaining], so the number of tasks bounds the iterations. *)
Definition execute_dag (self : RequestOrchestrator)
    (dag : list (string * list string)) (execute_fn : string → E + R)
  : option (dag_outcome * run_state) :=
  execute_loop (length dag) execute_fn
    {| completed := []; remaining := dag; orch := self; trace := [] |}.
End Orchestrator.
Arguments dag_outcome R E : clear implicits.
Arguments run_state R : clear implicits.

(** The structural error of [execute_dag]. *)
Definition cycle_error : py_exception :=
  RuntimeError "Cycle detected in task DAG".

(** *** Dependency chains and depth *)

(** [t] depends directly on [d]. *)
Definition dep_edge (dag : list (string * list string)) (t d : string) : Prop :=
  ∃ deps, dict_get dag t = Some deps ∧ d ∈ deps.

(** A dependency chain: every task is a key and depends on its successor. *)
Inductive dep_chain (dag : list (string * list string)) : list string → Prop :=
| dep_chain_one t :
    is_Some (dict_get dag t) → dep_chain dag [t]
| dep_chain_cons t d l :
    dep_edge dag t d → dep_chain dag (d :: l) → dep_chain dag (t :: d :: l).

(** [n] is the length of the longest dependency chain (0 for no task). *)
Definition dag_depth (dag : list (string * list string)) (n : nat) : Prop :=
  (∀ l, dep_chain dag l → length l ≤ n) ∧
  (0 < n → ∃ l, dep_chain dag l ∧ length l = n).

(** No task reaches itself along dependencies. *)
Definition acyclic (dag : list (string * list string)) : Prop :=
  ∀ t, ¬ tc (dep_edge dag) t t.

Definition has_cycle (dag : list (string * list string)) : Prop :=
  ∃ t, tc (dep_edge dag) t t.

(** Every dependency name is itself a task of the DAG. *)
Definition deps_defined (dag : list (string * list string)) : Prop :=
  ∀ t d, dep_edge dag t d → is_Some (dict_get dag d).

Definition has_dangling_dep (dag : list (string * list string)) : Prop :=
  ∃ t d, dep_edge dag t d ∧ dict_get dag d = None.

(** A task all of whose dependency chains end: it is a key and all its
    dependencies are such tasks. *)
Inductive grounded (dag : list (string * list string)) : string → Prop :=
| grounded_intro t deps :
    dict_get dag t = Some deps →
    (∀ d, d ∈ deps → grounded dag d) →
    grounded dag t.

(** In a sequence of events, every invocation of the callback on a task comes
    after the recording of each of the task's dependencies. *)
Definition deps_recorded_before (dag : list (string * list string))
    (tr : list event) : Prop :=
  ∀ i t d,
    tr !! i = Some (Invoked t) → dep_edge dag t d →
    ∃ j, j < i ∧ tr !! j = Some (Recorded d).

(** What holds of the loop state after [k] waves of the run on [dag] that
    started with the counters [orch0]. *)
Record run_inv {R} (dag : list (string * list string))
    (orch0 : RequestOrchestrator) (k : nat) (s : run_state R) : Prop := {
  inv_nodup : NoDup dag.*1;
  inv_remaining :
    remaining s = filter (λ p, p.1 ∉ (completed s).*1) dag;
  inv_batches :
    total_batches (orch s) = (total_batches orch0 + Z.of_nat k)%Z;
  inv_recorded : ∀ t, t ∈ (completed s).*1 → Recorded t ∈ trace s;
  inv_order : deps_recorded_before dag (trace s);
  inv_grounded : ∀ t, t ∈ (completed s).*1 → grounded dag t;
  inv_short :
    ∀ t l, t ∈ (completed s).*1 → dep_chain dag (t :: l) → S (length l) ≤ k;
  inv_long :
    deps_defined dag →
    ∀ t, t ∈ (remaining s).*1 → ∃ l, dep_chain dag (t :: l) ∧ length l = k;
  inv_witness :
    deps_defined dag → 0 < k → ∃ l, dep_chain dag l ∧ length l = k;
}.

(** ** Part 3, continued: [PerformanceMonitor] *)

(** *** List slices [l[start:stop]] *)

(** A slice bound: a negative index counts from the end; the result is
    clamped to [0, len]. *)
Definition slice_bound (n i : Z) : Z :=
  if bool_decide (i < 0)%Z then Z.max 0 (n + i) else Z.min i n.

Definition py_slice {A} (l : list A) (start stop : option Z) : list A :=
  let n := len l in
  let a := default 0%Z (slice_bound n <$> start) in
  let b := default n (slice_bound n <$> stop) in
  take (Z.to_nat (b - a)) (drop (Z.to_nat a) l).

(** *** [statistics.mean] on floats *)

(** A finite float as an integer multiple of [2^-1074], [None] for an
    infinity or a NaN. *)
Definition float_scaled (x : float) : option Z :=
  match Prim2SF x with
  | S754_zero _ => Some 0%Z
  | S754_finite s m e =>
      Some ((if s then -1 else 1) * Z.pos m * 2 ^ (e + 1074))%Z
  | S754_infinity _ | S754_nan => None
  end.

(** The integer nearest to [a / d], ties to even ([0 ≤ a], [0 < d]). *)
Definition div_nearest_even (a d : Z) : Z :=
  let q := (a / d)%Z in
  match (2 * (a mod d) ?= d)%Z with
  | Lt => q
  | Gt => (q + 1)%Z
  | Eq => if Z.even q then q else (q + 1)%Z
  end.

(** [float(Fraction(num, den))] for the fraction [num / den * 2^-1074]:
    the correctly rounded quotient. *)
Definition scaled_to_float (num den : Z) : float :=
  let a := Z.abs num in
  let k := Z.max 0 (Z.log2 (a / den) + 1 - 53) in
  let m := div_nearest_even a (den * 2 ^ k) in
  let f := Z.ldexp (of_uint63 (Uint63.of_Z m)) (k - 1074) in
  if bool_decide (num < 0)%Z then (- f)%float else f.

(** The data are summed exactly and rounded once; when some of them are not
    finite the result is the float sum of those, divided by the count. *)
Definition statistics_mean (data : list float) : result float :=
  match data with
  | [] => Raise StatisticsError
  | _ :: _ =>
      let n := len data in
      match mapM float_scaled data with
      | Some xs => Ok (scaled_to_float (foldr Z.add 0%Z xs) n)
      | None =>
          let special := filter (λ x, float_scaled x = None) data in
          let total := foldl PrimFloat.add 0%float special in
          Ok (total / of_uint63 (Uint63.of_Z n))%float
      end
  end.

Record PerformanceMonitor := {
  window : Z;
  _samples : list float;
}.

(** [__init__] *)
Definition new_monitor (window : Z) : PerformanceMonitor :=
  {| window := window; _samples := [] |}.

Definition record (m : PerformanceMonitor) (latency : float)
  : PerformanceMonitor :=
  let samples := _samples m ++ [latency] in
  {| window := window m;
     _samples :=
       if bool_decide (window m * 2 < len samples)%Z
       then py_slice samples (Some (- window m * 2)%Z) None
       else samples |}.

Definition regression_detected (m : PerformanceMonitor) : result bool :=
  if bool_decide (len (_samples m) < window m * 2)%Z then mret false
  else
    let old := py_slice (_samples m)
                 (Some (- window m * 2)%Z) (Some (- window m)%Z) in
    let new := py_slice (_samples m) (Some (- window m)%Z) None in
    mean_new ← statistics_mean new;
    mean_old ← statistics_mean old;
    mret (mean_old * 1.2 <? mean_new)%float.

(** ** The other methods, and the callers

    The rest of the module: the [hit_rate] and [mean_latency] properties,
    the request loop of [demo_load_balancing], and what is needed to state
    how the methods compose over sequences of calls. *)

(** *** The cache in use *)

(** What [int / int] can raise. *)
Inductive arith_exception :=
| ZeroDivisionError
| OverflowError.

(** [a / b] on Python integers: the quotient rounded to the nearest float,
    ties to even; [OverflowError] when that is not a finite float, which is
    when the quotient reaches [2^1024 - 2^970], half-way between the largest
    float and [2^1024]. *)
Definition int_true_div (a b : Z) : arith_exception + float :=
  if bool_decide (b = 0)%Z then inl ZeroDivisionError
  else if bool_decide (Z.abs b * (2 ^ 1024 - 2 ^ 970) ≤ Z.abs a)%Z
  then inl OverflowError
  else
    let f := scaled_to_float (Z.abs a * 2 ^ 1074) (Z.abs b) in
    inr (if xorb (a <? 0)%Z (b <? 0)%Z then (- f)%float else f).

Section CacheRun.
Context {V : Type}.

(** The [hit_rate] property. *)
Definition hit_rate (c : ContextAwareCache V) : arith_exception + float :=
  let total := (hits c + misses c)%Z in
  if bool_decide (total ≠ 0%Z) then int_true_div (hits c) total
  else inr 0%float.

(** The calls a user of the cache can make, and a sequence of them. *)
Inductive cache_op :=
| CacheGet (query : string) (context : list (string * json))
| CachePut (query : string) (context : list (string * json)) (value : V).

Definition cache_step (c : ContextAwareCache V) (op : cache_op)
  : result (ContextAwareCache V) :=
  match op with
  | CacheGet query context => snd <$> get c query context
  | CachePut query context value => put c query context value
  end.

Fixpoint cache_run (c : ContextAwareCache V) (ops : list cache_op)
  : result (ContextAwareCache V) :=
  match ops with
  | [] => Ok c
  | op :: ops' => c' ← cache_step c op; cache_run c' ops'
  end.

Definition is_get (op : cache_op) : bool :=
  match op with CacheGet _ _ => true | CachePut _ _ _ => false end.
End CacheRun.
Arguments cache_op V : clear implicits.

(** *** The load balancer in use *)

(** The body of the request loop of [demo_load_balancing]: a server is
    selected and, when a name came back ([if srv:] is false for [None] and
    for the empty name), released again. *)
Definition serve_request (lb : CapabilityAwareLoadBalancer)
    (caps : list string) : CapabilityAwareLoadBalancer :=
  match select_server lb caps with
  | (Some srv, lb') => if bool_decide (srv ≠ "") then release lb' srv else lb'
  | (None, lb') => lb'
  end.

(** [demo_load_balancing], as the load distribution it prints. *)
Definition demo_load_balancing : list (string * Z) :=
  let lb := new_balancer in
  let lb := register_server lb "nlp_server" ["search"; "summarize"] in
  let lb := register_server lb "data_server" ["search"; "aggregate"] in
  let lb := register_server lb "ml_server" ["classify"; "predict"] in
  let requests :=
    [(["search"], 20); (["summarize"], 5); (["classify"; "predict"], 8)] in
  let lb :=
    foldl (λ lb '(caps, count),
             Nat.iter count (λ lb, serve_request lb caps) lb) lb requests in
  load_distribution lb.

(** The number of [select_server] calls that returned [name] since [name]
    was last registered, in a run of [ops] from [lb]; [n] is the number
    before the run. *)
Fixpoint selections_of (name : string) (lb : CapabilityAwareLoadBalancer)
    (ops : list lb_op) (n : Z) : Z :=
  match ops with
  | [] => n
  | op :: ops' =>
      selections_of name (lb_step lb op) ops'
        match op with
        | OpRegister name' _ => if decide (name' = name) then 0 else n
        | OpSelect required_caps =>
            if decide ((select_server lb required_caps).1 = Some name)
            then n + 1 else n
        | _ => n
        end%Z
  end.

(** [n] more requests handled. *)
Definition add_handled_n (n : Z) (info : server_info) : server_info :=
  {| capabilities := capabilities info;
     current_load := current_load info;
     total_handled := total_handled info + n |}.

(** *** The bookkeeping of a run of [execute_dag] *)

(** The tasks the callback was invoked on, and the tasks whose results were
    stored, in the order of the events. *)
Definition invoked_tasks (tr : list event) : list string :=
  omap (λ ev, match ev with Invoked t => Some t | Recorded _ => None end) tr.

Definition recorded_tasks (tr : list event) : list string :=
  omap (λ ev, match ev with Recorded t => Some t | Invoked _ => None end) tr.

(** The bookkeeping of the loop between waves: [completed] holds, once each
    and in the order of their invocation, the tasks run so far with the
    results the callback returned, and [total_requests] has counted them. *)
Record run_acct {R E} (orch0 : RequestOrchestrator)
    (execute_fn : string → E + R) (s : run_state R) : Prop := {
  acct_nodup : NoDup (completed s).*1;
  acct_results : ∀ t r, (t, r) ∈ completed s → execute_fn t = inr r;
  acct_requests :
    total_requests (orch s) = (total_requests orch0 + len (completed s))%Z;
  acct_invoked : invoked_tasks (trace s) = (completed s).*1;
  acct_recorded : recorded_tasks (trace s) = (completed s).*1;
}.

(** *** The monitor's mean *)

(** The [mean_latency] property. *)
Definition mean_latency (m : PerformanceMonitor) : result float :=
  match _samples m with
  | [] => Ok 0%float
  | _ :: _ => statistics_mean (_samples m)
  end.

(** *** The text of a serialized context *)

(** The characters of a string. *)
Definition chars (s : string) : list ascii := String.list_ascii_of_string s.

(** Items joined by [", "], at the level of characters. *)
Fixpoint join_tail (ls : list (list ascii)) : list ascii :=
  match ls with
  | [] => []
  | x :: ls' => ","%char :: " "%char :: x ++ join_tail ls'
  end.

Definition join (ls : list (list ascii)) : list ascii :=
  match ls with
  | [] => []
  | x :: ls' => x ++ join_tail ls'
  end.

(** A [key: value] pair of a serialized dictionary. *)
Definition dumps_item (p : string * json) : list ascii :=
  chars (encode_basestring_ascii p.1) ++
  ":"%char :: " "%char :: chars (dumps p.2).

(** The characters an integer is written with. *)
Definition is_int_char (c : ascii) : bool :=
  bool_decide (c ∈ chars "0123456789-").

(** What may follow a serialized value: not a character of an integer. *)
Definition follows (r : list ascii) : Prop :=
  match r with
  | [] => True
  | c :: _ => is_int_char c = false
  end.

(** An item whose text determines it, whatever follows: the hypothesis of
    the lemmas on joined items. *)
Definition item_unique {A B} (f : A → list ascii) (g : B → list ascii)
    (Rel : A → B → Prop) (Q : B → Prop) (x : A) : Prop :=
  ∀ y r1 r2, Q y → follows r1 → follows r2 →
             f x ++ r1 = g y ++ r2 → Rel x y ∧ r1 = r2.

(** The kinds of JSON values, and the kind a first character announces. *)
Inductive json_kind := KNull | KBool | KInt | KStr | KList | KDict.

Definition kind_of (j : json) : json_kind :=
  match j with
  | JNull => KNull
  | JBool _ => KBool
  | JInt _ => KInt
  | JStr _ => KStr
  | JList _ => KList
  | JDict _ => KDict
  end.

Definition kind_of_char (c : ascii) : option json_kind :=
  if bool_decide (c = "n"%char) then Some KNull
  else if bool_decide (c = "t"%char ∨ c = "f"%char) then Some KBool
  else if is_int_char c then Some KInt
  else if bool_decide (c = "034"%char) then Some KStr
  else if bool_decide (c = "["%char) then Some KList
  else if bool_decide (c = "{"%char) then Some KDict
  else None.

Fixpoint is_prefix (a b : list ascii) : bool :=
  match a, b with
  | [], _ => true
  | x :: a', y :: b' => bool_decide (x = y) && is_prefix a' b'
  | _ :: _, [] => false
  end.

Definition all_ascii : list ascii := ascii_of_nat <$> seq 0 256.

(** A scanner that tells the inside of string literals from the outside.
    Outside, a backslash does not occur and a colon is followed by a
    space. *)
Inductive lex_state := LexOut | LexColon | LexIn | LexEsc.

Definition lex_step (st : lex_state) (c : ascii) : option lex_state :=
  match st with
  | LexOut =>
      if bool_decide (c = "034"%char) then Some LexIn
      else if bool_decide (c = "\"%char) then None
      else if bool_decide (c = ":"%char) then Some LexColon
      else Some LexOut
  | LexColon => if bool_decide (c = " "%char) then Some LexOut else None
  | LexIn =>
      if bool_decide (c = "034"%char) then Some LexOut
      else if bool_decide (c = "\"%char) then Some LexEsc
      else Some LexIn
  | LexEsc => Some LexIn
  end.

Fixpoint lex_run (st : lex_state) (l : list ascii) : option lex_state :=
  match l with
  | [] => Some st
  | c :: l' =>
      match lex_step st c with
      | Some st' => lex_run st' l'
      | None => None
      end
  end.

(** One scanner is inside a string literal where the other is outside. *)
Definition lex_opposite (st1 st2 : lex_state) : Prop :=
  match st1, st2 with
  | LexIn, (LexOut | LexColon) | (LexOut | LexColon), LexIn => True
  | _, _ => False
  end.

(** * Properties *)

(** ** Lists with distinct images *)

Lemma NoDup_fmap_eq {A B} (f : A → B) (l : list A) x y :
  NoDup (f <$> l) → x ∈ l → y ∈ l → f x = f y → x = y.
Proof.
  induction l as [|z l IH]; csimpl; [by intros _ ?%elem_of_nil|].
  intros [Hz Hnd]%NoDup_cons [->|Hx]%elem_of_cons [->|Hy]%elem_of_cons Hxy;
    [done| | |by apply IH].
  - destruct Hz. rewrite Hxy. by apply list_elem_of_fmap_2.
  - destruct Hz. rewrite <-Hxy. by apply list_elem_of_fmap_2.
Qed.

Lemma filter_Forall_id {A} (P : A → Prop) `{∀ x, Decision (P x)} (l : list A) :
  Forall P l → filter P l = l.
Proof.
  induction 1 as [|x l Hx Hl IH]; [done|].
  by rewrite filter_cons_True, IH.
Qed.

(** ** The stable sort *)

Section PySortedFacts.
Context {A K : Type} (key : A → K) (le : K → K → bool).
Hypothesis le_total : ∀ a b, le a b ∨ le b a.
Hypothesis le_trans : ∀ a b c, le a b → le b c → le a c.

Lemma insert_sorted_Permutation x l : insert_sorted key le x l ≡ₚ x :: l.
Proof.
  induction l as [|y l IH]; simpl; [done|].
  destruct (le (key x) (key y)); [done|].
  rewrite IH. apply Permutation_swap.
Qed.

Lemma py_sorted_Permutation l : py_sorted key le l ≡ₚ l.
Proof.
  induction l as [|x l IH]; simpl; [done|].
  by rewrite insert_sorted_Permutation, IH.
Qed.

Lemma StronglySorted_insert_sorted x l :
  StronglySorted (key_le key le) l →
  StronglySorted (key_le key le) (insert_sorted key le x l).
Proof.
  induction 1 as [|y l Hl IH Hy]; simpl.
  { repeat constructor. }
  destruct (le (key x) (key y)) eqn:Hxy.
  - constructor; [by constructor|].
    constructor; [by unfold key_le; rewrite Hxy|].
    eapply Forall_impl; [exact Hy|]. intros z Hz.
    unfold key_le in *. apply le_trans with (key y); [by rewrite Hxy|done].
  - constructor; [done|].
    rewrite insert_sorted_Permutation. constructor; [|done].
    destruct (le_total (key x) (key y)) as [H|H]; [by rewrite Hxy in H|done].
Qed.

Lemma StronglySorted_py_sorted l :
  StronglySorted (key_le key le) (py_sorted key le l).
Proof.
  induction l; simpl; [constructor|by apply StronglySorted_insert_sorted].
Qed.

(** The first element of the sorted list is a least element of the input. *)
Lemma py_sorted_head x l' l :
  py_sorted key le l = x :: l' → x ∈ l ∧ ∀ y, y ∈ l → le (key x) (key y).
Proof.
  intros Hs. pose proof (py_sorted_Permutation l) as Hp.
  pose proof (StronglySorted_py_sorted l) as Hss.
  rewrite Hs in Hp, Hss. split.
  - rewrite <-Hp. by left.
  - intros y. rewrite <-Hp. intros [->|Hy]%elem_of_cons.
    + destruct (le_total (key x) (key x)); done.
    + apply StronglySorted_inv in Hss as [_ Hall].
      by apply (proj1 (Forall_forall _ _) Hall).
Qed.

(** Sorting forgets the order of the input when the keys are distinct. *)
Lemma py_sorted_unique l1 l2 :
  (∀ a b, le a b → le b a → a = b) →
  NoDup (key <$> l1) → l1 ≡ₚ l2 →
  py_sorted key le l1 = py_sorted key le l2.
Proof.
  intros Hanti Hnd Hp.
  apply (StronglySorted_unique_strong (key_le key le));
    [|apply StronglySorted_py_sorted..|by rewrite !py_sorted_Permutation].
  intros x1 x2. rewrite !py_sorted_Permutation, <-Hp.
  intros H1 H2 H12 H21.
  apply (NoDup_fmap_eq key l1); auto.
Qed.
End PySortedFacts.

(** ** JSON objects *)

(** Induction on a JSON object with the hypothesis for every element of a
    list and every value of a dictionary. *)
Lemma json_nested_ind (P : json → Prop) :
  P JNull → (∀ b, P (JBool b)) → (∀ n, P (JInt n)) → (∀ s, P (JStr s)) →
  (∀ xs, Forall P xs → P (JList xs)) →
  (∀ items, Forall (λ p, P p.2) items → P (JDict items)) →
  ∀ j, P j.
Proof.
  intros Hnull Hbool Hint Hstr Hlist Hdict. fix IH 1.
  intros [|b|n|s|xs|items]; [done..| |].
  - apply Hlist. induction xs as [|x xs IHxs]; constructor; [apply IH|done].
  - apply Hdict.
    induction items as [|[k v] items IHitems]; constructor; [apply IH|done].
Qed.

Lemma json_wf_list xs : json_wf (JList xs) ↔ Forall json_wf xs.
Proof.
  simpl. induction xs as [|x xs IH]; [by split; [constructor|]|].
  rewrite Forall_cons, <-IH. done.
Qed.

Lemma json_wf_dict items :
  json_wf (JDict items) ↔ NoDup items.*1 ∧ Forall (λ p, json_wf p.2) items.
Proof.
  simpl. apply and_iff_compat_l.
  induction items as [|p items IH]; [by split; [constructor|]|].
  rewrite Forall_cons, <-IH. done.
Qed.

(** Objects that denote the same value have the same serialization. *)
Lemma dumps_json_denote j1 : ∀ j2,
  json_wf j1 → json_wf j2 → json_denote j1 = json_denote j2 →
  dumps j1 = dumps j2.
Proof.
  induction j1 as [|b|n|s|xs IH|d1 IH] using json_nested_ind;
    intros [|b2|n2|s2|ys|d2] Hwf1 Hwf2 Hden; simplify_eq/=; try done.
  - (* lists *)
    apply json_wf_list in Hwf1, Hwf2.
    assert (map dumps xs = map dumps ys) as ->; [|done].
    revert ys Hwf2 Hden. induction xs as [|x xs IHxs]; intros [|y ys] Hwf2 Heq;
      simplify_eq/=; [done|].
    apply Forall_cons in IH as [IHx IH], Hwf1 as [Hx Hwf1], Hwf2 as [Hy Hwf2].
    f_equal; [by apply IHx|by apply IHxs].
  - (* dictionaries *)
    apply json_wf_dict in Hwf1 as [Hnd1 Hwf1], Hwf2 as [Hnd2 Hwf2].
    rewrite Forall_forall in IH, Hwf1, Hwf2.
    set (den := λ p : string * json, (p.1, json_denote p.2)) in *.
    set (ren := λ p : string * json, (p.1, dumps p.2)).
    assert (∀ d : list (string * json), (den <$> d).*1 = d.*1) as Hdenk.
    { intros d. by rewrite <-list_fmap_compose. }
    assert (∀ d : list (string * json), (ren <$> d).*1 = d.*1) as Hrenk.
    { intros d. by rewrite <-list_fmap_compose. }
    assert (den <$> d1 ≡ₚ den <$> d2) as Hperm.
    { apply (list_to_map_inj (M:=gmap string)); by rewrite ?Hdenk. }
    assert (py_sorted fst String.leb (ren <$> d1)
            = py_sorted fst String.leb (ren <$> d2)) as Hsort.
    { apply py_sorted_unique.
      - apply String.le_total.
      - intros a b c. apply (transitivity (R:=String.le)).
      - intros a b. apply (anti_symm String.le).
      - by rewrite Hrenk.
      - apply NoDup_Permutation.
        + apply (NoDup_fmap_1 fst). by rewrite Hrenk.
        + apply (NoDup_fmap_1 fst). by rewrite Hrenk.
        + intros [k str]. rewrite !list_elem_of_fmap. split.
          * intros ([k1 v1] & [= -> ->] & Hin1).
            assert (den (k1, v1) ∈ den <$> d2) as Hin2.
            { rewrite <-Hperm. by apply list_elem_of_fmap_2. }
            apply list_elem_of_fmap in Hin2 as ([k2 v2] & [= -> Hv] & Hin2).
            exists (k2, v2). split; [|done]. unfold ren. simpl. f_equal.
            apply (IH (k2, v1) Hin1); [|by apply (Hwf2 (k2, v2))|done].
            by apply (Hwf1 (k2, v1)).
          * intros ([k2 v2] & [= -> ->] & Hin2).
            assert (den (k2, v2) ∈ den <$> d1) as Hin1.
            { rewrite Hperm. by apply list_elem_of_fmap_2. }
            apply list_elem_of_fmap in Hin1 as ([k1 v1] & [= -> Hv] & Hin1).
            exists (k1, v1). split; [|done]. unfold ren. simpl. f_equal.
            symmetry.
            apply (IH (k1, v1) Hin1); [|by apply (Hwf2 (k1, v2))|done].
            by apply (Hwf1 (k1, v1)). }
    change (map ren d1) with (ren <$> d1). change (map ren d2) with (ren <$> d2).
    by rewrite Hsort.
Qed.

(** ** The cache *)

Section CacheFacts.
Context {V : Type}.
Implicit Types (c : ContextAwareCache V) (v : V).

Lemma list_remove_Ok x l : x ∈ l → ∃ l', list_remove x l = Ok l'.
Proof.
  induction l as [|y l IH]; [by intros ?%elem_of_nil|].
  intros Hx. simpl. destruct (decide (x = y)) as [->|Hne]; [by eauto|].
  apply elem_of_cons in Hx as [?|Hx]; [done|].
  destruct (IH Hx) as [l' ->]. by eauto.
Qed.

Lemma list_remove_Permutation x l l' :
  list_remove x l = Ok l' → l ≡ₚ x :: l'.
Proof.
  revert l'. induction l as [|y l IH]; intros l'; simpl; [done|].
  destruct (decide (x = y)) as [->|Hne]; [by intros [= ->]|].
  destruct (list_remove x l) as [l''|] eqn:Hr; simpl; intros [= <-].
  rewrite (IH l'' eq_refl). apply Permutation_swap.
Qed.

(** Contexts that are equal as mappings have the same cache key. *)
Lemma make_key_json_denote query ctx1 ctx2 :
  json_wf (JDict ctx1) → json_wf (JDict ctx2) →
  json_denote (JDict ctx1) = json_denote (JDict ctx2) →
  _make_key query ctx1 = _make_key query ctx2.
Proof.
  intros Hwf1 Hwf2 Hden. unfold _make_key.
  by rewrite (dumps_json_denote (JDict ctx1) (JDict ctx2)).
Qed.

(** [put] when nothing is evicted. *)
Lemma put_no_evict c query context value :
  let key := _make_key query context in
  ((Z.of_nat (size (_store c)) < max_size c)%Z ∨ is_Some (_store c !! key)) →
  put c query context value =
    Ok {| max_size := max_size c;
          _store := <[key := value]> (_store c);
          _access_order :=
            if bool_decide (key ∈ _access_order c) then _access_order c
            else _access_order c ++ [key];
          hits := hits c; misses := misses c |}.
Proof.
  intros key Hcase. unfold put. fold key.
  assert (bool_decide (max_size c ≤ Z.of_nat (size (_store c)))%Z
          && bool_decide (_store c !! key = None) = false) as ->; [|done].
  apply andb_false_iff. destruct Hcase as [Hlt|[w Hw]].
  - left. apply bool_decide_eq_false. lia.
  - right. apply bool_decide_eq_false. by rewrite Hw.
Qed.

(** [put] of a new key into a store that has reached [max_size]. *)
Lemma put_evict c query context value oldest rest :
  let key := _make_key query context in
  (max_size c ≤ Z.of_nat (size (_store c)))%Z →
  _store c !! key = None →
  _access_order c = oldest :: rest →
  is_Some (_store c !! oldest) →
  put c query context value =
    Ok {| max_size := max_size c;
          _store := <[key := value]> (delete oldest (_store c));
          _access_order :=
            if bool_decide (key ∈ rest) then rest else rest ++ [key];
          hits := hits c; misses := misses c |}.
Proof.
  intros key Hfull Hnew Horder [w Hw]. unfold put. fold key.
  rewrite bool_decide_eq_true_2, bool_decide_eq_true_2 by done.
  rewrite Horder. simpl. unfold store_del. by rewrite Hw.
Qed.

Lemma cache_wf_new n : cache_wf (new_cache (V:=V) n).
Proof.
  split; simpl; [constructor|].
  intros k. rewrite lookup_empty, elem_of_nil. split; [done|by intros [? ?]].
Qed.

(** A well-formed cache with a positive capacity that is full has an entry
    at the head of its access order. *)
Lemma cache_wf_full_head c :
  cache_wf c → (1 ≤ max_size c)%Z →
  (max_size c ≤ Z.of_nat (size (_store c)))%Z →
  ∃ oldest rest,
    _access_order c = oldest :: rest ∧ is_Some (_store c !! oldest) ∧
    oldest ∉ rest.
Proof.
  intros [Hnd Hdom] Hpos Hfull.
  destruct (_access_order c) as [|oldest rest] eqn:Horder.
  - assert (_store c = ∅) as Hemp.
    { apply map_empty. intros k. apply eq_None_not_Some.
      rewrite <-Hdom. apply not_elem_of_nil. }
    rewrite Hemp, map_size_empty in Hfull. lia.
  - exists oldest, rest. split_and!; [done| |by apply NoDup_cons in Hnd as [? ?]].
    apply Hdom. by left.
Qed.

Lemma cache_wf_put c query context value c' :
  cache_wf c → put c query context value = Ok c' → cache_wf c'.
Proof.
  intros Hwf Hput. pose proof Hwf as [Hnd Hdom].
  set (key := _make_key query context) in *.
  destruct (decide ((max_size c ≤ Z.of_nat (size (_store c)))%Z
                    ∧ _store c !! key = None)) as [[Hfull Hnew]|Hno].
  - destruct (_access_order c) as [|oldest rest] eqn:Horder.
    { unfold put in Hput. fold key in Hput.
      rewrite bool_decide_eq_true_2, bool_decide_eq_true_2, Horder in Hput
        by done. done. }
    assert (is_Some (_store c !! oldest)) as Hold.
    { apply Hdom. by left. }
    rewrite (put_evict c query context value oldest rest) in Hput by done.
    injection Hput as <-. fold key.
    apply NoDup_cons in Hnd as [Hnotin Hnd].
    assert (key ∉ rest) as Hkey.
    { intros Hin. assert (is_Some (_store c !! key)) as [? ?]; [|congruence].
      apply Hdom. by right. }
    rewrite bool_decide_eq_false_2 by done. split; simpl.
    + apply NoDup_app. split_and!; [done| |apply NoDup_singleton].
      intros x Hx ->%list_elem_of_singleton. done.
    + intros k. rewrite elem_of_app, list_elem_of_singleton.
      rewrite lookup_insert_is_Some, lookup_delete_is_Some.
      specialize (Hdom k). rewrite elem_of_cons in Hdom.
      destruct (decide (key = k)) as [<-|Hne]; [naive_solver|].
      destruct (decide (oldest = k)) as [<-|Hne']; [naive_solver|].
      naive_solver.
  - rewrite put_no_evict in Hput.
    2:{ fold key. apply not_and_l in Hno as [Hlt|Hin]; [left; lia|right].
        by apply not_eq_None_Some. }
    injection Hput as <-. fold key. split; simpl.
    + case_bool_decide; [done|].
      apply NoDup_app. split_and!; [done| |apply NoDup_singleton].
      intros x Hx ->%list_elem_of_singleton. done.
    + intros k. rewrite lookup_insert_is_Some. specialize (Hdom k).
      case_bool_decide as Hin; [|rewrite elem_of_app, list_elem_of_singleton];
        destruct (decide (key = k)) as [<-|Hne]; naive_solver.
Qed.

Lemma cache_wf_get c query context r c' :
  cache_wf c → get c query context = Ok (r, c') → cache_wf c'.
Proof.
  intros [Hnd Hdom]. unfold get.
  set (key := _make_key query context).
  destruct (_store c !! key) as [w|] eqn:Hk; simpl.
  - destruct (list_remove key (_access_order c)) as [l'|] eqn:Hr; [|done].
    simpl. intros [= <- <-]. apply list_remove_Permutation in Hr.
    split; simpl.
    + rewrite Hr in Hnd. apply NoDup_cons in Hnd as [? ?].
      apply NoDup_app. split_and!; [done| |apply NoDup_singleton].
      intros x Hx ->%list_elem_of_singleton. done.
    + intros k. rewrite <-Hdom, Hr, elem_of_app, list_elem_of_singleton,
        elem_of_cons. tauto.
  - intros [= <- <-]. by split.
Qed.

(** [get] never raises on a well-formed cache. *)
Lemma get_Ok c query context :
  cache_wf c → ∃ r c', get c query context = Ok (r, c').
Proof.
  intros [Hnd Hdom]. unfold get.
  destruct (_store c !! _make_key query context) as [w|] eqn:Hk; [|by eauto].
  destruct (list_remove_Ok (_make_key query context) (_access_order c))
    as [l' ->]; [|by simpl; eauto].
  apply Hdom. by eauto.
Qed.

(** After a [put] that returned, a [get] under the same key finds the value. *)
Lemma get_after_put c query context value c' query' context' :
  _make_key query' context' = _make_key query context →
  put c query context value = Ok c' →
  ∃ c'', get c' query' context' = Ok (Some value, c'').
Proof.
  intros Hkey Hput. unfold get. rewrite Hkey.
  set (key := _make_key query context) in *.
  assert (_store c' !! key = Some value ∧ key ∈ _access_order c')
    as [-> Hin].
  { unfold put in Hput. fold key in Hput.
    destruct (_ && _).
    - destruct (list_pop0 (_access_order c)) as [[oldest order]|]; [|done].
      simpl in Hput.
      destruct (store_del oldest (_store c)) as [store|]; [|done].
      simpl in Hput. injection Hput as <-. simpl.
      split; [by rewrite lookup_insert_eq|].
      case_bool_decide; [done|]. apply elem_of_app. right. by left.
    - simpl in Hput. injection Hput as <-. simpl.
      split; [by rewrite lookup_insert_eq|].
      case_bool_decide; [done|]. apply elem_of_app. right. by left. }
  destruct (list_remove_Ok _ _ Hin) as [l' ->]. simpl. by eauto.
Qed.
End CacheFacts.

Section CacheClaims.
Context {V : Type}.
Implicit Types (c : ContextAwareCache V) (v : V).

(** [put] never raises on a well-formed cache of positive capacity. *)
Lemma put_Ok c query context value :
  cache_wf c → (1 ≤ max_size c)%Z → ∃ c', put c query context value = Ok c'.
Proof.
  intros Hwf Hpos. set (key := _make_key query context).
  destruct (decide ((max_size c ≤ Z.of_nat (size (_store c)))%Z
                    ∧ _store c !! key = None)) as [[Hfull Hnew]|Hno].
  - destruct (cache_wf_full_head c Hwf Hpos Hfull)
      as (oldest & rest & Horder & Hold & _).
    rewrite (put_evict c query context value oldest rest) by done. by eauto.
  - rewrite put_no_evict; [by eauto|]. fold key.
    apply not_and_l in Hno as [Hlt|Hin]; [left; lia|right].
    by apply not_eq_None_Some.
Qed.

(** C3: two contexts that are equal as mappings (they hold the same
    key/value pairs, in whatever insertion order, at every level of nesting)
    give the same cache key for every query; hence, in every cache state, a
    [get] with the one context after a [put] with the other that returned
    yields the stored value, and on a well-formed cache of positive capacity
    the [put] does return. *)
Theorem cache_key_order_independent c query
    (ctx1 ctx2 : list (string * json)) v :
  json_wf (JDict ctx1) → json_wf (JDict ctx2) →
  json_denote (JDict ctx1) = json_denote (JDict ctx2) →
  _make_key query ctx1 = _make_key query ctx2 ∧
  (∀ c', put c query ctx1 v = Ok c' →
         ∃ c'', get c' query ctx2 = Ok (Some v, c'')) ∧
  (cache_wf c → (1 ≤ max_size c)%Z →
   ∃ c' c'', put c query ctx1 v = Ok c' ∧
             get c' query ctx2 = Ok (Some v, c'')).
Proof.
  intros Hwf1 Hwf2 Heq.
  assert (_make_key query ctx1 = _make_key query ctx2) as Hkey
    by (by apply make_key_json_denote).
  split_and!; [done|..].
  - intros c' Hput. by eapply get_after_put.
  - intros Hwf Hpos. destruct (put_Ok c query ctx1 v Hwf Hpos) as [c' Hput].
    destruct (get_after_put c query ctx1 v c' query ctx2) as [c'' Hget];
      by eauto.
Qed.

(** C4 (amended): in a well-formed cache whose [max_size] is at least 1,
    a [put] under a key that is not in the store, when the store holds
    [max_size] entries, removes exactly the entry at the head of the
    access-order list and then inserts the new one at the end; a [put]
    under a key that is in the store removes nothing.  With [max_size = 2],
    putting three distinct keys in turn into a new cache evicts the first,
    and a [get] of it then finds nothing. *)
Theorem put_evicts_least_recently_used c query context value :
  cache_wf c → (1 ≤ max_size c)%Z →
  let key := _make_key query context in
  (_store c !! key = None → Z.of_nat (size (_store c)) = max_size c →
   ∃ oldest rest,
     _access_order c = oldest :: rest ∧
     put c query context value =
       Ok {| max_size := max_size c;
             _store := <[key := value]> (delete oldest (_store c));
             _access_order := rest ++ [key];
             hits := hits c; misses := misses c |}) ∧
  (is_Some (_store c !! key) →
   put c query context value =
     Ok {| max_size := max_size c;
           _store := <[key := value]> (_store c);
           _access_order := _access_order c;
           hits := hits c; misses := misses c |}) ∧
  (∀ q1 x1 q2 x2 q3 x3 v1 v2 v3,
     _make_key q1 x1 ≠ _make_key q2 x2 →
     _make_key q1 x1 ≠ _make_key q3 x3 →
     _make_key q2 x2 ≠ _make_key q3 x3 →
     ∃ c1 c2 c3 c4,
       put (new_cache 2) q1 x1 v1 = Ok c1 ∧ put c1 q2 x2 v2 = Ok c2 ∧
       put c2 q3 x3 v3 = Ok c3 ∧ get c3 q1 x1 = Ok (None, c4) ∧
       _store c3 !! _make_key q2 x2 = Some v2 ∧
       _store c3 !! _make_key q3 x3 = Some v3).
Proof.
  intros Hwf Hpos key. pose proof Hwf as [Hnd Hdom]. split_and!.
  - intros Hnew Hsize.
    destruct (cache_wf_full_head c Hwf Hpos) as (oldest & rest & Ho & Hs & Hn);
      [lia|].
    exists oldest, rest. split; [done|].
    rewrite (put_evict c query context value oldest rest) by (done || lia).
    fold key. rewrite bool_decide_eq_false_2; [done|].
    intros Hin. assert (is_Some (_store c !! key)) as [? ?]; [|congruence].
    apply Hdom. rewrite Ho. by right.
  - intros Hin. rewrite put_no_evict by (by right). fold key.
    rewrite bool_decide_eq_true_2; [done|]. by apply Hdom.
  - intros q1 x1 q2 x2 q3 x3 v1 v2 v3.
    set (k1 := _make_key q1 x1). set (k2 := _make_key q2 x2).
    set (k3 := _make_key q3 x3). intros H12 H13 H23.
    set (mk := λ store order h m,
           {| max_size := 2; _store := store; _access_order := order;
              hits := h; misses := m |} : ContextAwareCache V).
    exists (mk (<[k1:=v1]> ∅) [k1] 0%Z 0%Z),
      (mk (<[k2:=v2]> (<[k1:=v1]> ∅)) [k1; k2] 0%Z 0%Z),
      (mk (<[k3:=v3]> (delete k1 (<[k2:=v2]> (<[k1:=v1]> ∅)))) [k2; k3]
         0%Z 0%Z),
      (mk (<[k3:=v3]> (delete k1 (<[k2:=v2]> (<[k1:=v1]> ∅)))) [k2; k3]
         0%Z 1%Z).
    split_and!.
    + rewrite put_no_evict; [done|]. left. simpl. rewrite map_size_empty. lia.
    + rewrite put_no_evict; simpl; fold k1 k2.
      * rewrite bool_decide_eq_false_2; [done|].
        by intros ->%list_elem_of_singleton.
      * left. rewrite map_size_insert_None by apply lookup_empty.
        rewrite map_size_empty. lia.
    + rewrite (put_evict _ q3 x3 v3 k1 [k2]); simpl; fold k1 k2 k3.
      * rewrite bool_decide_eq_false_2; [done|].
        by intros ->%list_elem_of_singleton.
      * rewrite !map_size_insert_None, map_size_empty; [lia|..];
          by simplify_map_eq.
      * by simplify_map_eq.
      * done.
      * by simplify_map_eq.
    + unfold get. simpl. fold k1 k3.
      assert (<[k3:=v3]> (delete k1 (<[k2:=v2]> (<[k1:=v1]> ∅)))
                !! k1 = None) as ->; [by simplify_map_eq|done].
    + simpl. by simplify_map_eq.
    + simpl. by simplify_map_eq.
Qed.
End CacheClaims.

(** C3, instance: the contexts [{"a": 1, "b": 2}] and [{"b": 2, "a": 1}]. *)
Lemma cache_key_order_independent_witness :
  let ctx1 := [("a", JInt 1); ("b", JInt 2)] in
  let ctx2 := [("b", JInt 2); ("a", JInt 1)] in
  let c := new_cache (V:=Z) 256 in
  _make_key "q" ctx1 = _make_key "q" ctx2 ∧
  (∀ c', put c "q" ctx1 7%Z = Ok c' →
         ∃ c'', get c' "q" ctx2 = Ok (Some 7%Z, c'')) ∧
  (cache_wf c → (1 ≤ max_size c)%Z →
   ∃ c' c'', put c "q" ctx1 7%Z = Ok c' ∧
             get c' "q" ctx2 = Ok (Some 7%Z, c'')).
Proof.
  apply (cache_key_order_independent (new_cache 256) "q"
           [("a", JInt 1); ("b", JInt 2)] [("b", JInt 2); ("a", JInt 1)] 7%Z).
  - split; [by apply (bool_decide_unpack _); vm_compute|done].
  - split; [by apply (bool_decide_unpack _); vm_compute|done].
  - vm_compute. reflexivity.
Defined.

(** The same for contexts with nested dictionaries in different orders. *)
Example make_key_nested_order_independent :
  _make_key "q"
    [("user", JStr "alice");
     ("scope", JDict [("read", JBool true); ("depth", JInt 2)])]
  = _make_key "q"
      [("scope", JDict [("depth", JInt 2); ("read", JBool true)]);
       ("user", JStr "alice")].
Proof. vm_compute. reflexivity. Qed.

(** C4, instance: a full cache of capacity 1 receiving a second key. *)
Lemma put_evicts_least_recently_used_witness :
  let c := {| max_size := 1; _store := {["k::{}" := 1%Z]};
              _access_order := ["k::{}"]; hits := 0; misses := 1 |} in
  ∃ oldest rest,
    _access_order c = oldest :: rest ∧
    put c "n" [] 2%Z =
      Ok {| max_size := 1;
            _store := <[_make_key "n" [] := 2%Z]> (delete oldest (_store c));
            _access_order := rest ++ [_make_key "n" []];
            hits := 0; misses := 1 |}.
Proof.
  intros c.
  assert (cache_wf c) as Hwf.
  { split; [by apply (bool_decide_unpack _); vm_compute|].
    intros k. simpl. rewrite list_elem_of_singleton.
    destruct (decide (k = "k::{}")) as [->|Hne].
    - split; [|done]. intros _. by rewrite lookup_singleton_eq.
    - rewrite lookup_singleton_ne by done. split; [done|by intros [? ?]]. }
  assert (1 ≤ max_size c)%Z as Hpos by (simpl; lia).
  apply (put_evicts_least_recently_used c "n" [] 2%Z Hwf Hpos);
    vm_compute; reflexivity.
Defined.

(** C4, as stated, fails for a cache of capacity 0: the store of the new
    cache holds [max_size] entries and the key is not in it, but [put] finds
    no entry to evict and raises [IndexError], inserting nothing. *)
Lemma put_capacity_zero_raises :
  let c := new_cache (V:=Z) 0 in
  cache_wf c ∧
  _store c !! _make_key "K1" [] = None ∧
  Z.of_nat (size (_store c)) = max_size c ∧
  put c "K1" [] 1%Z = Raise IndexError.
Proof.
  split_and!; [apply cache_wf_new|done..].
Qed.

(** C5 fails on an overwrite: with capacity 2, after [put] of K1, of K2 and
    again of K1, the access order is still K1, K2.  K1 is at the head, not
    at the most-recently-used end, and the next new key evicts it although it
    was written last. *)
Theorem put_overwrite_not_promoted :
  let k1 := _make_key "q1" [] in
  let k2 := _make_key "q2" [] in
  ∃ c1 c2 c3 c4 : ContextAwareCache Z,
    put (new_cache 2) "q1" [] 10%Z = Ok c1 ∧
    put c1 "q2" [] 20%Z = Ok c2 ∧
    put c2 "q1" [] 11%Z = Ok c3 ∧
    _store c3 !! k1 = Some 11%Z ∧
    _access_order c3 = [k1; k2] ∧
    last (_access_order c3) ≠ Some k1 ∧
    put c3 "q3" [] 30%Z = Ok c4 ∧
    _store c4 !! k1 = None ∧ _store c4 !! k2 = Some 20%Z.
Proof.
  intros k1 k2. eexists _, _, _, _.
  split_and!; try (vm_compute; reflexivity).
  vm_compute. discriminate.
Qed.

(** ** Dictionaries *)

Section DictFacts.
Context {A : Type}.
Implicit Types (d : list (string * A)) (k : string) (a : A).

Lemma dict_get_Some_elem_of d k a : dict_get d k = Some a → (k, a) ∈ d.
Proof.
  induction d as [|[k' a'] d IH]; simpl; [done|].
  case_decide as Hk; [intros [= ->]; subst; by left|].
  intros ?. right. by apply IH.
Qed.

Lemma dict_get_None d k : dict_get d k = None ↔ k ∉ d.*1.
Proof.
  induction d as [|[k' a'] d IH]; csimpl.
  - split; [by intros _ ?%elem_of_nil|done].
  - rewrite not_elem_of_cons. case_decide; [naive_solver|]. rewrite IH. tauto.
Qed.

Lemma dict_get_is_Some d k : is_Some (dict_get d k) ↔ k ∈ d.*1.
Proof.
  rewrite <-not_eq_None_Some, dict_get_None.
  split; [apply dec_stable|by intros ? ?].
Qed.

Lemma elem_of_dict_get d k a : NoDup d.*1 → (k, a) ∈ d → dict_get d k = Some a.
Proof.
  induction d as [|[k' a'] d IH]; csimpl; [by intros _ ?%elem_of_nil|].
  intros [Hk' Hnd]%NoDup_cons [[= -> ->]|Hin]%elem_of_cons.
  - by rewrite decide_True.
  - rewrite decide_False; [by apply IH|].
    intros ->. apply Hk'. by apply (list_elem_of_fmap_2 fst _ (k', a)).
Qed.

Lemma dict_mem_true d k : dict_mem d k = true ↔ k ∈ d.*1.
Proof. unfold dict_mem. by rewrite bool_decide_eq_true, dict_get_is_Some. Qed.

Lemma dict_alter_keys f d k : (dict_alter f d k).*1 = d.*1.
Proof.
  induction d as [|[k' a'] d IH]; csimpl; [done|].
  case_decide; csimpl; by rewrite ?IH.
Qed.

Lemma dict_get_alter f d k k' :
  dict_get (dict_alter f d k) k' =
    if decide (k = k') then f <$> dict_get d k' else dict_get d k'.
Proof.
  induction d as [|[k0 a0] d IH]; simpl; [by case_decide|].
  destruct (decide (k = k0)) as [->|Hne]; simpl.
  - destruct (decide (k0 = k')) as [->|?].
    + by rewrite !decide_True.
    + by rewrite !(decide_False (P:=k' = k0)) by done.
  - destruct (decide (k' = k0)) as [->|?]; [by rewrite decide_False|].
    apply IH.
Qed.

Lemma dict_set_keys d k a :
  (dict_set d k a).*1 = if decide (k ∈ d.*1) then d.*1 else d.*1 ++ [k].
Proof.
  induction d as [|[k' a'] d IH]; csimpl; [done|].
  destruct (decide (k = k')) as [->|Hne]; csimpl.
  - by rewrite decide_True by left.
  - rewrite IH. destruct (decide (k ∈ d.*1)).
    + by rewrite decide_True by (by right).
    + rewrite decide_False; [done|].
      by intros [?|?]%elem_of_cons.
Qed.

Lemma dict_set_NoDup d k a : NoDup d.*1 → NoDup (dict_set d k a).*1.
Proof.
  intros Hnd. rewrite dict_set_keys. case_decide; [done|].
  apply NoDup_app. split_and!; [done| |apply NoDup_singleton].
  by intros x Hx ->%list_elem_of_singleton.
Qed.

Lemma elem_of_dict_set d k a k' a' :
  (k', a') ∈ dict_set d k a → (k' = k ∧ a' = a) ∨ (k', a') ∈ d.
Proof.
  induction d as [|[k0 a0] d IH]; simpl.
  - intros [= -> ->]%list_elem_of_singleton. by left.
  - case_decide; intros [Heq|Hin]%elem_of_cons.
    + injection Heq as -> ->. by left.
    + right. by right.
    + right. rewrite Heq. by left.
    + destruct (IH Hin) as [?|?]; [by left|right; by right].
Qed.

Lemma elem_of_dict_alter f d k k' a' :
  (k', a') ∈ dict_alter f d k →
  (k', a') ∈ d ∨ (k' = k ∧ ∃ a, (k, a) ∈ d ∧ a' = f a).
Proof.
  induction d as [|[k0 a0] d IH]; simpl; [by intros ?%elem_of_nil|].
  case_decide; intros [Heq|Hin]%elem_of_cons.
  - injection Heq as -> ->. subst. right. split; [done|].
    exists a0. split; [by left|done].
  - left. by right.
  - left. rewrite Heq. by left.
  - destruct (IH Hin) as [?|(-> & a & ? & ->)]; [left; by right|].
    right. split; [done|]. exists a. split; [by right|done].
Qed.
End DictFacts.

(** ** The load balancer *)

Lemma has_capabilities_true required_caps info :
  has_capabilities required_caps info = true ↔ qualifies required_caps info.
Proof. apply bool_decide_eq_true. Qed.

Lemma elem_of_candidates_of required_caps svs name load :
  (name, load) ∈ candidates_of required_caps svs ↔
  ∃ info, (name, info) ∈ svs ∧ qualifies required_caps info ∧
          load = current_load info.
Proof.
  unfold candidates_of. rewrite list_elem_of_omap. split.
  - intros ([n info] & Hin & Hf).
    destruct (has_capabilities required_caps info) eqn:Hq; [|done].
    simplify_eq/=. exists info.
    by rewrite <-has_capabilities_true.
  - intros (info & Hin & Hq & ->). exists (name, info). split; [done|].
    apply has_capabilities_true in Hq. by rewrite Hq.
Qed.

Lemma Z_leb_total (a b : Z) : (a <=? b)%Z ∨ (b <=? a)%Z.
Proof. rewrite !Is_true_true, !Z.leb_le. lia. Qed.

Lemma Z_leb_trans (a b c : Z) : (a <=? b)%Z → (b <=? c)%Z → (a <=? c)%Z.
Proof. rewrite !Is_true_true, !Z.leb_le. lia. Qed.

(** The two field updates of [select_server] amount to [selected]. *)
Lemma dict_alter_add_handled_add_load svs chosen :
  dict_alter add_handled (dict_alter add_load svs chosen) chosen
  = dict_alter selected svs chosen.
Proof.
  induction svs as [|[k a] svs IH]; simpl; [done|].
  case_decide; simpl.
  - by rewrite decide_True.
  - rewrite decide_False by done. by rewrite IH.
Qed.

(** [select_server], case by case. *)
Lemma select_server_cases lb required_caps :
  NoDup (servers lb).*1 →
  match select_server lb required_caps with
  | (None, lb') =>
      lb' = lb ∧
      ∀ name info, (name, info) ∈ servers lb → ¬ qualifies required_caps info
  | (Some chosen, lb') =>
      ∃ info,
        dict_get (servers lb) chosen = Some info ∧
        qualifies required_caps info ∧
        (∀ name' info', (name', info') ∈ servers lb →
                        qualifies required_caps info' →
                        (current_load info ≤ current_load info')%Z) ∧
        servers lb' = dict_alter selected (servers lb) chosen
  end.
Proof.
  intros Hnd. unfold select_server.
  destruct (candidates_of required_caps (servers lb)) as [|c0 cs] eqn:Hc.
  { split; [done|]. intros name info Hin Hq.
    assert ((name, current_load info) ∈ candidates_of required_caps (servers lb))
      as Hcand by (apply elem_of_candidates_of; eauto).
    rewrite Hc in Hcand. by apply elem_of_nil in Hcand. }
  rewrite <-Hc.
  destruct (py_sorted snd Z.leb (candidates_of required_caps (servers lb)))
    as [|[chosen load] rest] eqn:Hs.
  { pose proof (py_sorted_Permutation snd Z.leb
                  (candidates_of required_caps (servers lb))) as Hp.
    rewrite Hs, Hc in Hp. by apply Permutation_nil_cons in Hp. }
  apply py_sorted_head in Hs as [Hin Hmin];
    [|apply Z_leb_total|apply Z_leb_trans].
  apply elem_of_candidates_of in Hin as (info & Hin & Hq & ->).
  exists info. split_and!.
  - by apply elem_of_dict_get.
  - done.
  - intros name' info' Hin' Hq'.
    assert ((name', current_load info')
              ∈ candidates_of required_caps (servers lb)) as Hcand
      by (apply elem_of_candidates_of; eauto).
    apply Hmin in Hcand. simpl in Hcand.
    apply Is_true_true, Z.leb_le in Hcand. done.
  - simpl. apply dict_alter_add_handled_add_load.
Qed.

Lemma select_server_keys lb required_caps :
  (servers (select_server lb required_caps).2).*1 = (servers lb).*1.
Proof.
  unfold select_server.
  destruct (candidates_of required_caps (servers lb)); [done|].
  destruct (py_sorted _ _ _) as [|[chosen ?] ?]; [done|]. simpl.
  by rewrite !dict_alter_keys.
Qed.

Lemma release_keys lb name : (servers (release lb name)).*1 = (servers lb).*1.
Proof.
  unfold release. destruct (dict_mem _ _); [|done]. simpl.
  by rewrite dict_alter_keys.
Qed.

(** Reachable balancers have distinct provider names. *)
Lemma lb_step_NoDup lb op :
  NoDup (servers lb).*1 → NoDup (servers (lb_step lb op)).*1.
Proof.
  intros Hnd. destruct op; simpl.
  - by apply dict_set_NoDup.
  - by rewrite select_server_keys.
  - by rewrite release_keys.
  - done.
Qed.

(** An invariant of the operations holds in every reachable balancer. *)
Lemma lb_run_invariant (P : CapabilityAwareLoadBalancer → Prop) :
  P new_balancer → (∀ lb op, P lb → P (lb_step lb op)) →
  ∀ ops, P (lb_run ops).
Proof.
  intros Hinit Hstep ops. unfold lb_run.
  induction ops as [|op ops IH] using rev_ind; [done|].
  rewrite foldl_app. simpl. by apply Hstep.
Qed.

Lemma lb_run_NoDup ops : NoDup (servers (lb_run ops)).*1.
Proof.
  apply (lb_run_invariant (λ lb, NoDup (servers lb).*1)).
  - constructor.
  - intros lb op. apply lb_step_NoDup.
Qed.

Lemma lb_step_loads lb op :
  Forall (λ p, (0 ≤ current_load p.2)%Z) (servers lb) →
  Forall (λ p, (0 ≤ current_load p.2)%Z) (servers (lb_step lb op)).
Proof.
  rewrite !Forall_forall. intros Hlb [n i] Hin. simpl.
  destruct op as [name caps|required_caps|server_name|]; simpl in Hin.
  - apply elem_of_dict_set in Hin as [[-> ->]|Hin]; [done|].
    by apply (Hlb (n, i)).
  - unfold select_server in Hin.
    destruct (candidates_of required_caps (servers lb));
      [by apply (Hlb (n, i))|].
    destruct (py_sorted _ _ _) as [|[chosen ?] ?]; [by apply (Hlb (n, i))|].
    simpl in Hin. rewrite dict_alter_add_handled_add_load in Hin.
    apply elem_of_dict_alter in Hin as [Hin|(-> & a & Hin & ->)];
      [by apply (Hlb (n, i))|].
    apply Hlb in Hin. simpl in *. lia.
  - unfold release in Hin. destruct (dict_mem _ _); [|by apply (Hlb (n, i))].
    simpl in Hin.
    apply elem_of_dict_alter in Hin as [Hin|(-> & a & Hin & ->)];
      [by apply (Hlb (n, i))|].
    simpl. lia.
  - by apply (Hlb (n, i)).
Qed.

(** C6: [select_server] returns [None] exactly when no provider has all the
    required capabilities; otherwise the provider it returns has them all,
    no provider that has them all carries a lower load, and the new state is
    the old one with that provider's [current_load] and [total_handled] each
    raised by one.  So a provider with capabilities [{search}] is not
    returned for [search, classify], and of two qualifying providers with
    loads 0 and 2 the one with load 0 is returned. *)
Theorem select_server_least_loaded lb required_caps :
  NoDup (servers lb).*1 →
  match select_server lb required_caps with
  | (None, lb') =>
      lb' = lb ∧
      ∀ name info, (name, info) ∈ servers lb → ¬ qualifies required_caps info
  | (Some chosen, lb') =>
      ∃ info,
        dict_get (servers lb) chosen = Some info ∧
        qualifies required_caps info ∧
        (∀ name' info', (name', info') ∈ servers lb →
                        qualifies required_caps info' →
                        (current_load info ≤ current_load info')%Z) ∧
        servers lb' = dict_alter selected (servers lb) chosen ∧
        dict_get (servers lb') chosen =
          Some {| capabilities := capabilities info;
                  current_load := current_load info + 1;
                  total_handled := total_handled info + 1 |} ∧
        ∀ other, other ≠ chosen →
                 dict_get (servers lb') other = dict_get (servers lb) other
  end ∧
  ((∀ name info, (name, info) ∈ servers lb →
                 ¬ qualifies required_caps info) →
   select_server lb required_caps = (None, lb)) ∧
  (∀ name info,
     dict_get (servers lb) name = Some info →
     capabilities info = {["search"]} →
     (select_server lb ["search"; "classify"]).1 ≠ Some name) ∧
  (∀ a b ia ib,
     dict_get (servers lb) a = Some ia → dict_get (servers lb) b = Some ib →
     qualifies required_caps ia → qualifies required_caps ib →
     (∀ name info, (name, info) ∈ servers lb → qualifies required_caps info →
                   name = a ∨ name = b) →
     current_load ia = 0%Z → current_load ib = 2%Z →
     (select_server lb required_caps).1 = Some a).
Proof.
  intros Hnd. split_and!.
  - pose proof (select_server_cases lb required_caps Hnd) as H.
    destruct (select_server lb required_caps) as [[chosen|] lb']; [|done].
    destruct H as (info & Hget & Hq & Hmin & Hlb').
    exists info. split_and!; [done..| |].
    + by rewrite Hlb', dict_get_alter, decide_True, Hget.
    + intros other Hne. by rewrite Hlb', dict_get_alter, decide_False.
  - intros Hnone.
    pose proof (select_server_cases lb required_caps Hnd) as H.
    destruct (select_server lb required_caps) as [[chosen|] lb'].
    + destruct H as (info & Hget & Hq & _).
      by destruct (Hnone chosen info (dict_get_Some_elem_of _ _ _ Hget)).
    + by destruct H as [-> _].
  - intros name info Hget Hcaps Hsel.
    pose proof (select_server_cases lb ["search"; "classify"] Hnd) as H.
    destruct (select_server lb ["search"; "classify"]) as [[chosen|] lb'];
      [|done].
    simpl in Hsel. injection Hsel as ->.
    destruct H as (info' & Hget' & Hq & _). simplify_eq.
    unfold qualifies in Hq. rewrite Hcaps in Hq.
    assert ("classify" ∈ ({["search"]} : gset string)) as Hin
      by (apply Hq; set_solver).
    by apply elem_of_singleton in Hin.
  - intros a b ia ib Ha Hb Hqa Hqb Honly Hla Hlb.
    pose proof (select_server_cases lb required_caps Hnd) as H.
    destruct (select_server lb required_caps) as [[chosen|] lb']; simpl.
    + destruct H as (info & Hget & Hq & Hmin & _).
      destruct (Honly chosen info) as [->| ->];
        [by apply dict_get_Some_elem_of|done..| |].
      * done.
      * simplify_eq. specialize (Hmin a ia (dict_get_Some_elem_of _ _ _ Ha) Hqa).
        lia.
    + destruct H as [_ H]. destruct (H a ia); [|done].
      by apply dict_get_Some_elem_of.
Qed.

(** C6, instance: three providers, two of which can search. *)
Lemma select_server_least_loaded_witness :
  let lb :=
    {| servers :=
         [("nlp", {| capabilities := {["search"; "summarize"]};
                     current_load := 2; total_handled := 5 |});
          ("ml", {| capabilities := {["classify"]};
                    current_load := 0; total_handled := 1 |});
          ("data", {| capabilities := {["search"; "aggregate"]};
                      current_load := 0; total_handled := 3 |})] |} in
  NoDup (servers lb).*1 ∧ (select_server lb ["search"]).1 = Some "data".
Proof.
  intros lb.
  assert (NoDup (servers lb).*1) as Hnd
    by (by apply (bool_decide_unpack _); vm_compute).
  split; [exact Hnd|].
  pose proof (select_server_least_loaded lb ["search"] Hnd)
    as (_ & _ & _ & H).
  apply (H "data" "nlp" _ _ eq_refl eq_refl).
  - by apply (bool_decide_unpack _); vm_compute.
  - by apply (bool_decide_unpack _); vm_compute.
  - intros name info Hin Hq. simpl in Hin.
    repeat (apply elem_of_cons in Hin as [Hin|Hin]);
      [..|by apply elem_of_nil in Hin]; simplify_eq; [by right| |by left].
    exfalso. revert Hq. change (¬ qualifies ["search"]
      {| capabilities := {["classify"]};
         current_load := 0; total_handled := 1 |}).
    by apply (bool_decide_unpack _); vm_compute.
  - reflexivity.
  - reflexivity.
Defined.

(** C7: in every balancer reached from a new one by [register_server],
    [select_server], [release] and [load_distribution] calls, every provider's
    [current_load] is at least 0; and in any balancer, [release] of a
    registered provider sets its load to the old load minus one, floored at
    zero, so a load of 0 stays 0. *)
Theorem current_load_never_negative (ops : list lb_op) :
  Forall (λ p, (0 ≤ current_load p.2)%Z) (servers (lb_run ops)) ∧
  ∀ lb name info,
    dict_get (servers lb) name = Some info →
    dict_get (servers (release lb name)) name =
      Some {| capabilities := capabilities info;
              current_load := Z.max 0 (current_load info - 1);
              total_handled := total_handled info |} ∧
    (current_load info = 0%Z →
     dict_get (servers (release lb name)) name = Some info).
Proof.
  split.
  - apply (lb_run_invariant
             (λ lb, Forall (λ p, (0 ≤ current_load p.2)%Z) (servers lb))).
    + constructor.
    + intros lb op. apply lb_step_loads.
  - intros lb name info Hget.
    assert (dict_mem (servers lb) name = true) as Hmem.
    { apply dict_mem_true, dict_get_is_Some. by eauto. }
    unfold release. rewrite Hmem. simpl.
    rewrite dict_get_alter, decide_True, Hget by done. split; [done|].
    intros H0. destruct info as [caps load handled]. simpl in *. by subst.
Qed.

(** C7, instance: one selection followed by three releases. *)
Lemma current_load_never_negative_witness :
  let ops := [OpRegister "nlp" ["search"]; OpSelect ["search"];
              OpRelease "nlp"; OpRelease "nlp"; OpRelease "nlp"] in
  Forall (λ p, (0 ≤ current_load p.2)%Z) (servers (lb_run ops)) ∧
  dict_get (servers (release (lb_run ops) "nlp")) "nlp" =
    Some {| capabilities := {["search"]}; current_load := 0;
            total_handled := 1 |}.
Proof.
  intros ops.
  pose proof (current_load_never_negative ops) as [Hall Hrel].
  split; [exact Hall|].
  destruct (Hrel (lb_run ops) "nlp"
              {| capabilities := {["search"]}; current_load := 0;
                 total_handled := 1 |}) as [_ H0].
  - vm_compute. reflexivity.
  - rewrite H0 by reflexivity. reflexivity.
Defined.

(** C10: [release] of a name that is not registered returns the balancer
    unchanged (every record, and so every [current_load] and
    [total_handled], is as before); it has no way to raise. *)
Theorem release_unregistered_unchanged lb server_name :
  dict_get (servers lb) server_name = None →
  release lb server_name = lb.
Proof.
  intros Hget. unfold release.
  assert (dict_mem (servers lb) server_name = false) as ->; [|done].
  unfold dict_mem. apply bool_decide_eq_false. rewrite Hget. by intros [? ?].
Qed.

(** C10, instance: releasing a name no provider was registered under. *)
Lemma release_unregistered_unchanged_witness :
  let lb := lb_run [OpRegister "nlp" ["search"]; OpSelect ["search"]] in
  dict_get (servers lb) "ghost" = None ∧ release lb "ghost" = lb.
Proof.
  intros lb.
  assert (dict_get (servers lb) "ghost" = None) as Hget
    by (vm_compute; reflexivity).
  split; [exact Hget|].
  exact (release_unregistered_unchanged lb "ghost" Hget).
Defined.

(** ** The performance monitor *)

Lemma py_slice_suffix {A} (l : list A) (k : Z) :
  (0 < k)%Z →
  py_slice l (Some (- k)%Z) None = drop (length l - Z.to_nat k) l.
Proof.
  intros Hk. unfold py_slice, slice_bound, len. simpl.
  rewrite bool_decide_eq_true_2 by lia.
  rewrite take_ge by (rewrite length_drop; lia).
  f_equal. lia.
Qed.

Lemma py_slice_windows {A} (older old new : list A) (w : Z) :
  (1 ≤ w)%Z → len old = w → len new = w →
  py_slice (older ++ old ++ new) (Some (- w * 2)%Z) (Some (- w)%Z) = old ∧
  py_slice (older ++ old ++ new) (Some (- w)%Z) None = new.
Proof.
  unfold len. intros Hw Hold Hnew. split.
  - unfold py_slice, slice_bound, len. simpl.
    rewrite !bool_decide_eq_true_2 by lia. rewrite !length_app.
    replace (Z.to_nat (Z.max 0 _)) with (length older + 0) by lia.
    rewrite drop_app_add. simpl.
    replace (Z.to_nat _) with (length old) by lia.
    by rewrite drop_0, take_app_length.
  - rewrite py_slice_suffix by lia. rewrite !length_app.
    replace (_ - _) with (length older + length old) by lia.
    by rewrite drop_app_add, drop_app_length.
Qed.

Lemma record_samples m latency :
  (1 ≤ window m)%Z →
  _samples (record m latency) =
    drop (S (length (_samples m)) - Z.to_nat (2 * window m))
      (_samples m ++ [latency]).
Proof.
  intros Hw. unfold record. simpl. case_bool_decide as Hlen.
  - replace (- window m * 2)%Z with (- (2 * window m))%Z by lia.
    rewrite py_slice_suffix by lia. rewrite length_app. simpl.
    f_equal. lia.
  - unfold len in Hlen. rewrite length_app in Hlen. simpl in Hlen.
    replace (_ - _) with 0 by lia. done.
Qed.

Lemma record_window m latency : window (record m latency) = window m.
Proof. done. Qed.

Lemma foldl_record_window m xs : window (foldl record m xs) = window m.
Proof.
  revert m. induction xs as [|x xs IH]; intros m; simpl; [done|by rewrite IH].
Qed.

(** After any number of [record] calls on a new monitor, the retained
    samples are the last [2 * window] of those recorded. *)
Lemma foldl_record_samples w xs :
  (1 ≤ w)%Z →
  _samples (foldl record (new_monitor w) xs) =
    drop (length xs - Z.to_nat (2 * w)) xs.
Proof.
  intros Hw. induction xs as [|x xs IH] using rev_ind; [done|].
  rewrite foldl_app. cbn [foldl]. rewrite record_samples
    by (by rewrite foldl_record_window).
  rewrite foldl_record_window, IH. cbn [window new_monitor].
  rewrite length_drop, length_app. cbn [length].
  destruct (decide (length xs ≤ Z.to_nat (2 * w))) as [Hle|Hgt].
  - replace (length xs - Z.to_nat (2 * w)) with 0 by lia. simpl.
    f_equal. lia.
  - rewrite <-drop_app_le by lia. rewrite drop_drop. f_equal. lia.
Qed.

(** *** The mean of a constant window *)

Lemma Z_compare_mul_l (n a b : Z) :
  (0 < n)%Z → (n * a ?= n * b)%Z = (a ?= b)%Z.
Proof.
  intros Hn. destruct (Z.compare_spec a b) as [->|Hlt|Hgt].
  - apply Z.compare_refl.
  - apply Z.compare_lt_iff. nia.
  - apply Z.compare_gt_iff. nia.
Qed.

Lemma div_nearest_even_mul n a d :
  (0 < n)%Z → (0 < d)%Z →
  div_nearest_even (n * a) (n * d) = div_nearest_even a d.
Proof.
  intros Hn Hd. unfold div_nearest_even.
  rewrite Z.div_mul_cancel_l by lia.
  rewrite Z.mul_mod_distr_l by lia.
  replace (2 * (n * (a mod d)))%Z with (n * (2 * (a mod d)))%Z by lia.
  by rewrite Z_compare_mul_l.
Qed.

Lemma scaled_to_float_mul n s :
  (0 < n)%Z → (0 ≤ s)%Z → scaled_to_float (n * s) n = scaled_to_float s 1.
Proof.
  intros Hn Hs. unfold scaled_to_float.
  rewrite !Z.abs_eq by lia.
  replace ((n * s) `div` n)%Z with s
    by (symmetry; rewrite (Z.mul_comm n s); apply Z.div_mul; lia).
  rewrite Z.div_1_r, Z.mul_1_l.
  rewrite div_nearest_even_mul by (try apply Z.pow_pos_nonneg; lia).
  rewrite !bool_decide_eq_false_2 by lia. done.
Qed.

Lemma mapM_float_scaled_replicate n x s :
  float_scaled x = Some s →
  mapM float_scaled (replicate n x) = Some (replicate n s).
Proof.
  intros Hx. induction n as [|n IH]; simpl; [done|].
  by rewrite Hx, IH.
Qed.

Lemma foldr_add_replicate n (s : Z) :
  foldr Z.add 0%Z (replicate n s) = (Z.of_nat n * s)%Z.
Proof. induction n as [|n IH]; simpl; [done|]. rewrite IH. lia. Qed.

(** The exact mean of [n + 1] copies of a non-negative finite float is that
    float's value, so rounding it gives the same result for every [n]. *)
Lemma statistics_mean_replicate n x s :
  float_scaled x = Some s → (0 ≤ s)%Z →
  statistics_mean (replicate (S n) x) = Ok (scaled_to_float s 1).
Proof.
  intros Hx Hs. unfold statistics_mean.
  change (replicate (S n) x) with (x :: replicate n x) at 1.
  cbv beta iota.
  rewrite (mapM_float_scaled_replicate (S n) x s Hx).
  rewrite foldr_add_replicate. unfold len. rewrite length_replicate.
  by rewrite scaled_to_float_mul by lia.
Qed.

Lemma statistics_mean_Ok x data : ∃ mean, statistics_mean (x :: data) = Ok mean.
Proof. unfold statistics_mean. destruct (mapM _ _); by eauto. Qed.

(** The comparison of [regression_detected] on two windows. *)
Lemma regression_detected_windows m older old new :
  (1 ≤ window m)%Z →
  _samples m = older ++ old ++ new →
  len old = window m → len new = window m →
  ∃ mean_old mean_new,
    statistics_mean old = Ok mean_old ∧ statistics_mean new = Ok mean_new ∧
    regression_detected m = Ok (mean_old * 1.2 <? mean_new)%float.
Proof.
  intros Hw Hs Hold Hnew. unfold regression_detected.
  rewrite bool_decide_eq_false_2.
  2:{ rewrite Hs. unfold len in *. rewrite !length_app. lia. }
  rewrite Hs.
  destruct (py_slice_windows older old new (window m)) as [-> ->]; [done..|].
  destruct old as [|o old]; [unfold len in Hold; simpl in Hold; lia|].
  destruct new as [|n new]; [unfold len in Hnew; simpl in Hnew; lia|].
  destruct (statistics_mean_Ok o old) as [mean_old Ho].
  destruct (statistics_mean_Ok n new) as [mean_new Hn].
  exists mean_old, mean_new. by rewrite Ho, Hn.
Qed.

(** Two constant windows recorded on a new monitor. *)
Lemma regression_detected_constant_windows w a b sa sb :
  (1 ≤ w)%Z →
  float_scaled a = Some sa → (0 ≤ sa)%Z →
  float_scaled b = Some sb → (0 ≤ sb)%Z →
  regression_detected
    (foldl record (new_monitor w)
       (replicate (Z.to_nat w) a ++ replicate (Z.to_nat w) b))
  = Ok (scaled_to_float sa 1 * 1.2 <? scaled_to_float sb 1)%float.
Proof.
  intros Hw Ha Hsa Hb Hsb.
  set (m := foldl record _ _).
  assert (window m = w) as Hwm by apply foldl_record_window.
  assert (_samples m
          = [] ++ replicate (Z.to_nat w) a ++ replicate (Z.to_nat w) b) as Hs.
  { unfold m. rewrite foldl_record_samples by done.
    rewrite length_app, !length_replicate.
    replace (_ - _) with 0 by lia. done. }
  destruct (regression_detected_windows m _ _ _ ltac:(lia) Hs)
    as (mo & mn & Ho & Hn & ->);
    [unfold len; rewrite length_replicate; lia..|].
  destruct (Z.to_nat w) as [|n] eqn:Hn'; [lia|].
  rewrite (statistics_mean_replicate n a sa) in Ho by done.
  rewrite (statistics_mean_replicate n b sb) in Hn by done.
  by simplify_eq.
Qed.

(** C8 (amended): for a monitor whose [window] is at least 1,
    [regression_detected] returns [False] while fewer than [2 * window]
    samples are retained; otherwise it returns whether the mean of the last
    [window] samples is strictly greater than the mean of the [window]
    samples before them times 1.2 (means, product and comparison as the
    floating-point operations of the code).  Recording [window] samples of
    1.0 and then [window] samples of 1.2 gives [False]; with 1.21 in place of
    1.2 it gives [True]. *)
Theorem regression_detected_threshold (m : PerformanceMonitor) :
  (1 ≤ window m)%Z →
  ((len (_samples m) < 2 * window m)%Z → regression_detected m = Ok false) ∧
  (∀ older old new,
     _samples m = older ++ old ++ new →
     len old = window m → len new = window m →
     ∃ mean_old mean_new,
       statistics_mean old = Ok mean_old ∧
       statistics_mean new = Ok mean_new ∧
       regression_detected m = Ok (mean_old * 1.2 <? mean_new)%float) ∧
  (let w := Z.to_nat (window m) in
   regression_detected
     (foldl record (new_monitor (window m))
        (replicate w 1%float ++ replicate w 1.2%float)) = Ok false ∧
   regression_detected
     (foldl record (new_monitor (window m))
        (replicate w 1%float ++ replicate w 1.21%float)) = Ok true).
Proof.
  intros Hw. split_and!.
  - intros Hlen. unfold regression_detected.
    rewrite bool_decide_eq_true_2; [done|lia].
  - intros older old new. by apply regression_detected_windows.
  - intros w. unfold w. split.
    + erewrite (regression_detected_constant_windows _ 1 1.2);
        [|done|by vm_compute|by vm_compute|by vm_compute|by vm_compute].
      by vm_compute.
    + erewrite (regression_detected_constant_windows _ 1 1.21);
        [|done|by vm_compute|by vm_compute|by vm_compute|by vm_compute].
      by vm_compute.
Qed.

(** C8, instance: the monitor of the specification's example, [window = 2]
    with the samples 1.0, 1.0, 1.2, 1.2. *)
Lemma regression_detected_threshold_witness :
  let m := foldl record (new_monitor 2) [1; 1; 1.2; 1.2]%float in
  (1 ≤ window m)%Z ∧ regression_detected m = Ok false ∧
  ∃ mean_old mean_new,
    statistics_mean [1; 1]%float = Ok mean_old ∧
    statistics_mean [1.2; 1.2]%float = Ok mean_new ∧
    regression_detected m = Ok (mean_old * 1.2 <? mean_new)%float.
Proof.
  intros m.
  assert (1 ≤ window m)%Z as Hw by (vm_compute; discriminate).
  pose proof (regression_detected_threshold m Hw) as (_ & Hwin & _).
  split_and!; [exact Hw|vm_compute; reflexivity|].
  apply (Hwin [] [1; 1]%float [1.2; 1.2]%float); vm_compute; reflexivity.
Defined.

(** C8, as stated, fails for [window = 0]: with two samples retained (at
    least [2 * window]) the window before the most recent one is the empty
    slice [samples[0:0]], whose mean raises [StatisticsError]; no truth value
    is returned. *)
Lemma regression_detected_window_zero_raises :
  let m := foldl record (new_monitor 0) [1; 1.5]%float in
  (2 * window m ≤ len (_samples m))%Z ∧
  regression_detected m = Raise StatisticsError ∧
  regression_detected (new_monitor 0) = Raise StatisticsError.
Proof.
  split_and!; [vm_compute; discriminate|vm_compute; reflexivity..].
Qed.

(** C9 (amended): for a monitor whose [window] is at least 1, [record]
    appends the sample and keeps the last [2 * window] of the result; after
    any sequence of [record] calls on a new monitor the retained samples are
    the last [2 * window] recorded, never more than [2 * window] of them, and
    exactly [2 * window] once [5 * window] have been recorded. *)
Theorem record_keeps_two_windows (w : Z) (xs : list float) :
  (1 ≤ w)%Z →
  let m := foldl record (new_monitor w) xs in
  (∀ latency,
     _samples (record m latency) =
       drop (S (length (_samples m)) - Z.to_nat (2 * w))
         (_samples m ++ [latency])) ∧
  _samples m = drop (length xs - Z.to_nat (2 * w)) xs ∧
  (len (_samples m) ≤ 2 * w)%Z ∧
  (len xs = 5 * w → len (_samples m) = 2 * w)%Z.
Proof.
  intros Hw m.
  assert (_samples m = drop (length xs - Z.to_nat (2 * w)) xs) as Hs
    by (by apply foldl_record_samples).
  split_and!.
  - intros latency. rewrite record_samples;
      unfold m; rewrite foldl_record_window; [done|simpl; lia].
  - done.
  - rewrite Hs. unfold len. rewrite length_drop. lia.
  - rewrite Hs. unfold len. rewrite length_drop. lia.
Qed.

(** C9, instance: [window = 1] and five samples. *)
Lemma record_keeps_two_windows_witness :
  let m := foldl record (new_monitor 1) [1; 2; 3; 4; 5]%float in
  (1 ≤ 1)%Z ∧ _samples m = [4; 5]%float ∧ (len (_samples m) ≤ 2 * 1)%Z.
Proof.
  intros m.
  pose proof (record_keeps_two_windows 1 [1; 2; 3; 4; 5]%float ltac:(lia))
    as (_ & Hs & Hlen & _).
  split_and!; [lia|exact Hs|exact Hlen].
Defined.

(** C9, as stated, fails for [window = 0]: the slice [samples[-0:]] is the
    whole list, so nothing is ever dropped and one recorded sample already
    exceeds [2 * window = 0].  (For a negative [window] no number of samples
    is within [2 * window].) *)
Lemma record_window_zero_keeps_all :
  let m := record (new_monitor 0) 1%float in
  _samples m = [1%float] ∧ ¬ (len (_samples m) ≤ 2 * window m)%Z ∧
  _samples (foldl record (new_monitor 0) [1; 2; 3]%float) = [1; 2; 3]%float ∧
  ¬ (len (_samples (record (new_monitor (-1)) 1%float)) ≤ 2 * -1)%Z.
Proof.
  split_and!; [vm_compute; reflexivity|vm_compute; by intros H|
               vm_compute; reflexivity|vm_compute; by intros H].
Qed.

(** ** The orchestrator *)

(** *** Dependency graphs *)

Section DagFacts.
Implicit Types (dag : list (string * list string)) (t d : string).

Lemma dep_edge_elem_of dag t deps d :
  NoDup dag.*1 → (t, deps) ∈ dag → d ∈ deps → dep_edge dag t d.
Proof. intros Hnd Hin Hd. exists deps. by split; [apply elem_of_dict_get|]. Qed.

Lemma dep_edge_key dag t d : dep_edge dag t d → t ∈ dag.*1.
Proof. intros (deps & Hget & _). apply dict_get_is_Some. by eauto. Qed.

Lemma dep_chain_head_key dag t l : dep_chain dag (t :: l) → t ∈ dag.*1.
Proof.
  inversion 1; subst; [by apply dict_get_is_Some|by eapply dep_edge_key].
Qed.

Lemma dep_chain_nonempty dag l : dep_chain dag l → l ≠ [].
Proof. by inversion 1. Qed.

Lemma dep_chain_keys dag l x : dep_chain dag l → x ∈ l → x ∈ dag.*1.
Proof.
  induction 1 as [t Ht|t d l Hed Hch IH].
  - intros ->%list_elem_of_singleton. by apply dict_get_is_Some.
  - intros [->|Hx]%elem_of_cons; [by eapply dep_edge_key|by apply IH].
Qed.

(** Every task of a chain is reached from its head. *)
Lemma dep_chain_reach dag t l x :
  dep_chain dag (t :: l) → x ∈ t :: l → rtc (dep_edge dag) t x.
Proof.
  revert t. induction l as [|d l IH]; intros t Hch Hx.
  - apply list_elem_of_singleton in Hx as ->. done.
  - inversion Hch as [|? ? ? Hed Hch']; subst.
    apply elem_of_cons in Hx as [->|Hx]; [done|].
    eapply rtc_l; [exact Hed|]. by apply IH.
Qed.

Lemma dep_chain_NoDup dag l : acyclic dag → dep_chain dag l → NoDup l.
Proof.
  intros Hac. induction 1 as [t Ht|t d l Hed Hch IH].
  - apply NoDup_singleton.
  - apply NoDup_cons. split; [|done]. intros Hin.
    apply (Hac t). eapply tc_rtc_r; [by apply tc_once|].
    by eapply dep_chain_reach.
Qed.

(** In an acyclic graph no chain is longer than the number of tasks. *)
Lemma dep_chain_length_bound dag l :
  acyclic dag → dep_chain dag l → length l ≤ length dag.
Proof.
  intros Hac Hch. rewrite <-(length_fmap fst dag).
  apply submseteq_length, NoDup_submseteq; [by eapply dep_chain_NoDup|].
  intros x. by apply dep_chain_keys.
Qed.

Lemma grounded_key dag t : grounded dag t → t ∈ dag.*1.
Proof. destruct 1. apply dict_get_is_Some. by eauto. Qed.

Lemma grounded_not_on_cycle dag t : grounded dag t → ¬ tc (dep_edge dag) t t.
Proof.
  induction 1 as [t deps Hget _ IH]. intros Htc.
  assert (∃ d, dep_edge dag t d ∧ rtc (dep_edge dag) d t) as (d & Hed & Hrtc).
  { inversion Htc as [? ? Hed|? d ? Hed Htc']; subst.
    - by exists t.
    - exists d. split; [done|]. by apply tc_rtc. }
  pose proof Hed as (deps' & Hget' & Hd). simplify_eq.
  apply (IH d Hd). eapply tc_rtc_l; [exact Hrtc|]. by apply tc_once.
Qed.

Lemma grounded_dep_defined dag t d :
  grounded dag t → dep_edge dag t d → is_Some (dict_get dag d).
Proof.
  intros Hg (deps' & Hget' & Hd). destruct Hg as [t deps Hget Hdeps].
  simplify_eq. destruct (Hdeps d Hd). by eauto.
Qed.

(** A graph with a cycle or an undefined dependency has a task that is not
    grounded. *)
Lemma not_all_grounded dag :
  has_cycle dag ∨ has_dangling_dep dag →
  ∃ t, t ∈ dag.*1 ∧ ¬ grounded dag t.
Proof.
  intros [[t Htc]|(t & d & Hed & Hnone)].
  - exists t. split.
    + inversion Htc; subst; by eapply dep_edge_key.
    + intros Hg. by eapply grounded_not_on_cycle.
  - exists t. split; [by eapply dep_edge_key|].
    intros Hg. destruct (grounded_dep_defined dag t d Hg Hed) as [? ?].
    congruence.
Qed.
End DagFacts.

(** *** One wave *)

Section WaveFacts.
Context {R E : Type}.
Implicit Types (s : run_state R) (dag : list (string * list string)).
Implicit Types (execute_fn : string → E + R).

Lemma gather_inr (outs : list (E + R)) rs :
  gather outs = inr rs → length rs = length outs.
Proof.
  revert rs. induction outs as [|[e|r] outs IH]; intros rs; simpl.
  - by intros [= <-].
  - done.
  - destruct (gather outs); [done|]. intros [= <-]. simpl. by rewrite IH.
Qed.

Lemma gather_inl (outs : list (E + R)) e : gather outs = inl e → inl e ∈ outs.
Proof.
  induction outs as [|[e'|r] outs IH]; simpl; [done| |].
  - intros [= ->]. by left.
  - destruct (gather outs); [|done]. intros [= ->]. right. by apply IH.
Qed.

Lemma foldl_record_result s (l : list (string * R)) :
  completed (foldl record_result s l)
    = foldl (λ c tr, dict_set c tr.1 tr.2) (completed s) l ∧
  remaining (foldl record_result s l) = foldl dict_del (remaining s) l.*1 ∧
  total_batches (orch (foldl record_result s l)) = total_batches (orch s) ∧
  total_requests (orch (foldl record_result s l))
    = (total_requests (orch s) + len l)%Z ∧
  trace (foldl record_result s l) = trace s ++ (Recorded <$> l.*1).
Proof.
  revert s. induction l as [|tr l IH]; intros s.
  - unfold len. simpl. rewrite app_nil_r. split_and!; (done || lia).
  - cbn [foldl]. destruct (IH (record_result s tr)) as (-> & -> & -> & -> & ->).
    unfold len. csimpl. rewrite <-app_assoc. split_and!; (done || lia).
Qed.

Lemma foldl_dict_set_keys (c : list (string * R)) (l : list (string * R)) k :
  k ∈ (foldl (λ c tr, dict_set c tr.1 tr.2) c l).*1 ↔ k ∈ c.*1 ∨ k ∈ l.*1.
Proof.
  revert c. induction l as [|[t r] l IH]; intros c; csimpl.
  - rewrite elem_of_nil. tauto.
  - rewrite IH, dict_set_keys, elem_of_cons. case_decide as Hin.
    + split; [tauto|]. intros [?|[->|?]]; tauto.
    + rewrite elem_of_app, list_elem_of_singleton. tauto.
Qed.

Lemma dict_del_filter {A} (d : list (string * A)) k :
  NoDup d.*1 → dict_del d k = filter (λ p, p.1 ≠ k) d.
Proof.
  induction d as [|[k' a'] d IH]; csimpl; [done|].
  intros [Hk' Hnd]%NoDup_cons. rewrite filter_cons. simpl.
  destruct (decide (k = k')) as [->|Hne].
  - rewrite decide_False by (by intros ?).
    symmetry. apply filter_Forall_id, Forall_forall.
    intros [k a] Hin. simpl. intros ->. apply Hk'.
    by apply (list_elem_of_fmap_2 fst _ (k', a)).
  - rewrite decide_True by done. by rewrite IH.
Qed.

Lemma filter_keys_NoDup {A} (P : string * A → Prop) `{∀ x, Decision (P x)}
    (d : list (string * A)) :
  NoDup d.*1 → NoDup (filter P d).*1.
Proof.
  intros Hnd. apply (sublist_NoDup _ (d.*1)); [done|].
  apply fmap_sublist, sublist_filter.
Qed.

Lemma foldl_dict_del_filter {A} (d : list (string * A)) ks :
  NoDup d.*1 → foldl dict_del d ks = filter (λ p, p.1 ∉ ks) d.
Proof.
  revert d. induction ks as [|k ks IH]; intros d Hnd; simpl.
  - symmetry. apply filter_Forall_id, Forall_forall.
    intros ? _. apply not_elem_of_nil.
  - rewrite dict_del_filter by done.
    rewrite IH by (by apply filter_keys_NoDup).
    rewrite list_filter_filter. apply list_filter_iff.
    intros [k' a]. simpl. rewrite not_elem_of_cons. tauto.
Qed.

Lemma elem_of_ready_tasks (c : list (string * R)) rem t :
  t ∈ ready_tasks c rem ↔
  ∃ deps, (t, deps) ∈ rem ∧ ∀ d, d ∈ deps → d ∈ c.*1.
Proof.
  unfold ready_tasks. rewrite list_elem_of_omap. split.
  - intros ([t' deps] & Hin & Hf).
    destruct (forallb (dict_mem c) deps) eqn:Hall; [|done].
    simplify_eq. exists deps. split; [done|].
    apply Is_true_true, forallb_True in Hall.
    intros d Hd. apply dict_mem_true, Is_true_true.
    by apply (proj1 (Forall_forall _ _) Hall).
  - intros (deps & Hin & Hall). exists (t, deps). split; [done|].
    assert (forallb (dict_mem c) deps = true) as ->; [|done].
    apply Is_true_true, forallb_True, Forall_forall.
    intros d Hd. apply Is_true_true, dict_mem_true. by apply Hall.
Qed.

(** A remaining task that is not ready has a dependency that is not
    completed. *)
Lemma not_ready_blocked (c : list (string * R)) rem t deps :
  (t, deps) ∈ rem → t ∉ ready_tasks c rem →
  ∃ d, d ∈ deps ∧ d ∉ c.*1.
Proof.
  intros Hin Hnr.
  destruct (decide (Forall (λ d, d ∈ c.*1) deps)) as [Hall|Hex].
  - destruct Hnr. apply elem_of_ready_tasks. exists deps. split; [done|].
    by apply Forall_forall.
  - apply not_Forall_Exists in Hex; [|apply _].
    apply Exists_exists in Hex as (d & Hd & Hnot). by exists d.
Qed.
End WaveFacts.

(** *** The loop invariant *)

Section LoopFacts.
Context {R E : Type}.
Implicit Types (s : run_state R) (dag : list (string * list string)).
Implicit Types (execute_fn : string → E + R).

Lemma run_inv_init dag orch0 :
  NoDup dag.*1 →
  run_inv dag orch0 0
    {| completed := @nil (string * R); remaining := dag;
       orch := orch0; trace := [] |}.
Proof.
  intros Hnd. split; simpl.
  - done.
  - symmetry. apply filter_Forall_id, Forall_forall.
    intros ? _. apply not_elem_of_nil.
  - lia.
  - by intros t ?%elem_of_nil.
  - by intros i t d ?.
  - by intros t ?%elem_of_nil.
  - by intros t l ?%elem_of_nil.
  - intros _ t Ht. exists []. split; [|done].
    constructor. by apply dict_get_is_Some.
  - lia.
Qed.

Lemma run_inv_remaining_elem dag orch0 k s t deps :
  run_inv dag orch0 k s →
  (t, deps) ∈ remaining s ↔ dict_get dag t = Some deps ∧ t ∉ (completed s).*1.
Proof.
  intros Hinv. rewrite (inv_remaining _ _ _ _ Hinv), list_elem_of_filter.
  simpl. split.
  - intros [? ?]. split; [|done].
    apply elem_of_dict_get; [by eapply inv_nodup|done].
  - intros [? ?]. split; [done|]. by apply dict_get_Some_elem_of.
Qed.

Lemma run_inv_remaining_key dag orch0 k s t :
  run_inv dag orch0 k s →
  t ∈ (remaining s).*1 ↔ t ∈ dag.*1 ∧ t ∉ (completed s).*1.
Proof.
  intros Hinv. rewrite list_elem_of_fmap. split.
  - intros ([t' deps] & -> & Hin). simpl.
    apply (run_inv_remaining_elem _ _ _ _ _ _ Hinv) in Hin as [Hget ?].
    split; [|done]. apply dict_get_is_Some. by eauto.
  - intros [[deps Hget]%dict_get_is_Some Hnot]. exists (t, deps).
    split; [done|]. by apply (run_inv_remaining_elem _ _ _ _ _ _ Hinv).
Qed.

(** The dependencies of a ready task are completed. *)
Lemma ready_deps_completed dag orch0 k s t d :
  run_inv dag orch0 k s →
  t ∈ ready_tasks (completed s) (remaining s) → dep_edge dag t d →
  d ∈ (completed s).*1.
Proof.
  intros Hinv (deps & Hin & Hall)%elem_of_ready_tasks (deps' & Hget & Hd).
  apply (run_inv_remaining_elem _ _ _ _ _ _ Hinv) in Hin as [Hget' _].
  simplify_eq. by apply Hall.
Qed.

Lemma ready_remaining dag orch0 k s t :
  run_inv dag orch0 k s →
  t ∈ ready_tasks (completed s) (remaining s) →
  t ∈ dag.*1 ∧ t ∉ (completed s).*1.
Proof.
  intros Hinv (deps & Hin & _)%elem_of_ready_tasks.
  apply (run_inv_remaining_key _ _ _ _ _ Hinv).
  by apply (list_elem_of_fmap_2 fst _ (t, deps)).
Qed.

(** With every dependency defined, a remaining task that is not ready
    depends on a remaining task. *)
Lemma not_ready_remaining_dep dag orch0 k s t :
  run_inv dag orch0 k s → deps_defined dag →
  t ∈ (remaining s).*1 →
  t ∉ ready_tasks (completed s) (remaining s) →
  ∃ d, dep_edge dag t d ∧ d ∈ (remaining s).*1.
Proof.
  intros Hinv Hdef Ht Hnr.
  apply list_elem_of_fmap in Ht as ([t' deps] & -> & Hin). simpl in *.
  destruct (not_ready_blocked _ _ _ _ Hin Hnr) as (d & Hd & Hnc).
  apply (run_inv_remaining_elem _ _ _ _ _ _ Hinv) in Hin as [Hget _].
  assert (dep_edge dag t' d) as Hed by (by exists deps).
  exists d. split; [done|].
  apply (run_inv_remaining_key _ _ _ _ _ Hinv). split; [|done].
  apply dict_get_is_Some. by apply (Hdef t').
Qed.

(** Progress: in an acyclic graph with every dependency defined, some
    remaining task is ready. *)
Lemma ready_tasks_nonempty dag orch0 k s :
  run_inv dag orch0 k s → deps_defined dag → acyclic dag →
  remaining s ≠ [] → ready_tasks (completed s) (remaining s) ≠ [].
Proof.
  intros Hinv Hdef Hac Hrem Hready.
  assert (∀ n t, t ∈ (remaining s).*1 →
                 ∃ l, dep_chain dag (t :: l) ∧ length l = n) as Hlong.
  { induction n as [|n IH]; intros t Ht.
    - exists []. split; [|done]. constructor. apply dict_get_is_Some.
      by apply (run_inv_remaining_key _ _ _ _ _ Hinv) in Ht as [? _].
    - destruct (not_ready_remaining_dep dag orch0 k s t) as (d & Hed & Hd);
        [done..|rewrite Hready; apply not_elem_of_nil|].
      destruct (IH d Hd) as (l & Hch & Hlen).
      exists (d :: l). split; [by constructor|simpl; lia]. }
  destruct (remaining s) as [|[t deps] rem] eqn:Heq; [done|].
  destruct (Hlong (length dag) t) as (l & Hch & Hlen); [csimpl; by left|].
  apply dep_chain_length_bound in Hch; [|done]. simpl in Hch. lia.
Qed.

(** One wave preserves the invariant. *)
Lemma run_inv_wave dag orch0 k s (results : list R) :
  run_inv dag orch0 k s →
  let ready := ready_tasks (completed s) (remaining s) in
  ready ≠ [] → length results = length ready →
  run_inv dag orch0 (S k)
    (foldl record_result (start_batch s ready) (zip ready results)).
Proof.
  intros Hinv ready Hne Hlen.
  pose proof (inv_nodup _ _ _ _ Hinv) as Hnd.
  destruct (foldl_record_result (start_batch s ready) (zip ready results))
    as (Hc & Hr & Hb & _ & Ht).
  rewrite fst_zip in Hr, Ht by lia. simpl in Hc, Hr, Hb, Ht.
  set (s' := foldl record_result _ _) in *.
  assert (∀ t, t ∈ (completed s').*1 ↔ t ∈ (completed s).*1 ∨ t ∈ ready)
    as Hkeys.
  { intros t. rewrite Hc, foldl_dict_set_keys, fst_zip by lia. done. }
  assert (∃ t0, t0 ∈ ready) as [t0 Ht0].
  { destruct ready as [|t0 ?]; [done|]. exists t0. by left. }
  split.
  - done.
  - rewrite Hr, foldl_dict_del_filter.
    2:{ rewrite (inv_remaining _ _ _ _ Hinv). by apply filter_keys_NoDup. }
    rewrite (inv_remaining _ _ _ _ Hinv), list_filter_filter.
    apply list_filter_iff. intros [t deps]. simpl. rewrite Hkeys. tauto.
  - rewrite Hb, (inv_batches _ _ _ _ Hinv). lia.
  - intros t [Hin|Hin]%Hkeys; rewrite Ht.
    + apply elem_of_app. left. apply elem_of_app. left.
      by apply (inv_recorded _ _ _ _ Hinv).
    + apply elem_of_app. right. by apply list_elem_of_fmap_2.
  - intros i t d Hi Hed. rewrite Ht in Hi |- *.
    apply lookup_app_Some in Hi as [Hi|[_ Hi]].
    2:{ apply list_lookup_fmap_Some in Hi as (? & ? & ?). done. }
    apply lookup_app_Some in Hi as [Hi|[Hge Hi]].
    + destruct (inv_order _ _ _ _ Hinv i t d Hi Hed) as (j & Hj & Hrec).
      exists j. split; [done|].
      by apply lookup_app_l_Some, lookup_app_l_Some.
    + apply list_lookup_fmap_Some in Hi as (t' & [= <-] & Hi).
      assert (d ∈ (completed s).*1) as Hd.
      { eapply ready_deps_completed; [done| |done].
        by eapply list_elem_of_lookup_2. }
      apply (inv_recorded _ _ _ _ Hinv), list_elem_of_lookup in Hd
        as [j Hj].
      exists j. split; [apply lookup_lt_Some in Hj; lia|].
      by apply lookup_app_l_Some, lookup_app_l_Some.
  - intros t [Hin|Hin]%Hkeys; [by apply (inv_grounded _ _ _ _ Hinv)|].
    pose proof Hin as (deps & Hrem & Hall)%elem_of_ready_tasks.
    apply (run_inv_remaining_elem _ _ _ _ _ _ Hinv) in Hrem as [Hget _].
    apply (grounded_intro dag t deps Hget).
    intros d Hd. apply (inv_grounded _ _ _ _ Hinv). by apply Hall.
  - intros t l [Hin|Hin]%Hkeys Hch.
    + pose proof (inv_short _ _ _ _ Hinv t l Hin Hch). lia.
    + inversion Hch as [|? d l' Hed Hch']; subst; [simpl; lia|].
      assert (d ∈ (completed s).*1) as Hd
        by (by eapply ready_deps_completed).
      pose proof (inv_short _ _ _ _ Hinv d l' Hd Hch'). simpl. lia.
  - intros Hdef t Hin.
    assert (t ∈ (remaining s).*1 ∧ t ∉ ready) as [Hrem Hnr].
    { rewrite Hr in Hin.
      rewrite foldl_dict_del_filter in Hin.
      2:{ rewrite (inv_remaining _ _ _ _ Hinv). by apply filter_keys_NoDup. }
      apply list_elem_of_fmap in Hin as ([t' deps] & -> & Hin).
      apply list_elem_of_filter in Hin as [Hnr Hin]. split; [|done].
      by apply (list_elem_of_fmap_2 fst _ (t', deps)). }
    destruct (not_ready_remaining_dep dag orch0 k s t) as (d & Hed & Hd);
      [done..|].
    destruct (inv_long _ _ _ _ Hinv Hdef d Hd) as (l & Hch & Hl).
    exists (d :: l). split; [by constructor|simpl; lia].
  - intros Hdef _.
    destruct (ready_remaining dag orch0 k s t0 Hinv Ht0) as [Hkey Hnc].
    destruct (inv_long _ _ _ _ Hinv Hdef t0) as (l & Hch & Hl).
    { by apply (run_inv_remaining_key _ _ _ _ _ Hinv). }
    exists (t0 :: l). split; [done|simpl; lia].
Qed.

(** A wave shortens [remaining]. *)
Lemma wave_remaining_length dag orch0 k s (results : list R) :
  run_inv dag orch0 k s →
  let ready := ready_tasks (completed s) (remaining s) in
  ready ≠ [] → length results = length ready →
  length (remaining
            (foldl record_result (start_batch s ready) (zip ready results)))
  < length (remaining s).
Proof.
  intros Hinv ready Hne Hlen.
  destruct (foldl_record_result (start_batch s ready) (zip ready results))
    as (_ & -> & _).
  rewrite fst_zip by lia. simpl.
  rewrite foldl_dict_del_filter.
  2:{ rewrite (inv_remaining _ _ _ _ Hinv).
      apply filter_keys_NoDup. by eapply inv_nodup. }
  destruct ready as [|t0 ready'] eqn:Hready; [done|].
  assert (t0 ∈ ready) as Ht0 by (rewrite Hready; by left).
  apply elem_of_ready_tasks in Ht0 as (deps & Hin & _).
  apply (length_filter_lt _ _ (t0, deps)); [done|].
  simpl. intros Hnot. apply Hnot. by left.
Qed.
End LoopFacts.

(** *** The whole run *)

Section RunFacts.
Context {R E : Type}.
Implicit Types (s : run_state R) (dag : list (string * list string)).
Implicit Types (execute_fn : string → E + R).

(** The loop ends, in one of three ways, when the bound covers the
    remaining tasks. *)
Lemma execute_loop_spec dag orch0 execute_fn fuel : ∀ k s,
  run_inv dag orch0 k s → length (remaining s) ≤ fuel →
  ∃ o s' k',
    execute_loop fuel execute_fn s = Some (o, s') ∧
    match o with
    | Returned c =>
        c = completed s' ∧ remaining s' = [] ∧ run_inv dag orch0 k' s'
    | Raised err =>
        err = cycle_error ∧
        remaining s' ≠ [] ∧
        ready_tasks (completed s') (remaining s') = [] ∧
        run_inv dag orch0 k' s'
    | TaskFailed e =>
        ∃ s0 t,
          run_inv dag orch0 k' s0 ∧
          t ∈ ready_tasks (completed s0) (remaining s0) ∧
          execute_fn t = inl e ∧
          s' = start_batch s0 (ready_tasks (completed s0) (remaining s0))
    end.
Proof.
  induction fuel as [|fuel IH]; intros k s Hinv Hfuel.
  - destruct (remaining s) as [|? ?] eqn:Hrem;
      [|exfalso; simpl in Hfuel; lia].
    exists (Returned (completed s)), s, k. simpl. by rewrite Hrem.
  - simpl. destruct (remaining s) as [|p rem] eqn:Hrem.
    { exists (Returned (completed s)), s, k. by rewrite Hrem. }
    rewrite <-Hrem.
    destruct (ready_tasks (completed s) (remaining s)) as [|t0 ready']
      eqn:Hready.
    { exists (Raised cycle_error), s, k. rewrite Hready, Hrem. done. }
    rewrite <-Hready.
    destruct (gather (execute_fn <$> ready_tasks (completed s) (remaining s)))
      as [e|results] eqn:Hg.
    + exists (TaskFailed e),
        (start_batch s (ready_tasks (completed s) (remaining s))), k.
      split; [done|].
      apply gather_inl, list_elem_of_fmap in Hg as (t & Het & Ht).
      by exists s, t.
    + apply gather_inr in Hg. rewrite length_fmap in Hg.
      apply (IH (S k)).
      * apply run_inv_wave; [done|by rewrite Hready|done].
      * pose proof (wave_remaining_length dag orch0 k s results Hinv) as Hlt.
        simpl in Hlt. specialize (Hlt ltac:(by rewrite Hready) Hg).
        rewrite <-Hrem in Hfuel. lia.
Qed.

(** The events stay in order when a wave is started. *)
Lemma start_batch_order dag orch0 k s :
  run_inv dag orch0 k s →
  deps_recorded_before dag
    (trace (start_batch s (ready_tasks (completed s) (remaining s)))).
Proof.
  intros Hinv i t d Hi Hed. simpl in *.
  apply lookup_app_Some in Hi as [Hi|[Hge Hi]].
  - destruct (inv_order _ _ _ _ Hinv i t d Hi Hed) as (j & Hj & Hrec).
    exists j. split; [done|]. by apply lookup_app_l_Some.
  - apply list_lookup_fmap_Some in Hi as (t' & [= <-] & Hi).
    assert (d ∈ (completed s).*1) as Hd.
    { eapply ready_deps_completed; [done| |done].
      by eapply list_elem_of_lookup_2. }
    apply (inv_recorded _ _ _ _ Hinv), list_elem_of_lookup in Hd as [j Hj].
    exists j. split; [apply lookup_lt_Some in Hj; lia|].
    by apply lookup_app_l_Some.
Qed.

(** When the loop has emptied [remaining], the waves counted are the depth
    of the graph and every task is completed. *)
Lemma run_inv_finished dag orch0 k s :
  run_inv dag orch0 k s → remaining s = [] →
  (∀ t, t ∈ (completed s).*1 ↔ t ∈ dag.*1) ∧
  (deps_defined dag → dag_depth dag k).
Proof.
  intros Hinv Hrem.
  assert (∀ t, t ∈ dag.*1 → t ∈ (completed s).*1) as Hall.
  { intros t Ht. apply dec_stable. intros Hnot.
    assert (t ∈ (remaining s).*1) as Hin
      by (by apply (run_inv_remaining_key _ _ _ _ _ Hinv)).
    rewrite Hrem in Hin. by apply elem_of_nil in Hin. }
  split.
  - intros t. split; [|by apply Hall].
    intros Ht. by apply grounded_key, (inv_grounded _ _ _ _ Hinv).
  - intros Hdef. split; [|by apply (inv_witness _ _ _ _ Hinv)].
    intros l Hch. destruct l as [|t l]; [by apply dep_chain_nonempty in Hch|].
    apply (inv_short _ _ _ _ Hinv t l); [|done].
    by apply Hall, (dep_chain_head_key dag t l).
Qed.

(** The run on a graph, for any callback: it ends; the events are in
    order; a returned mapping has every task and took as many waves as the
    graph is deep, and all tasks are then grounded; a structural error
    leaves an ungrounded task; a failure is the callback's on some task. *)
Lemma execute_dag_spec (self : RequestOrchestrator) dag execute_fn :
  NoDup dag.*1 →
  ∃ o s' n,
    execute_dag self dag execute_fn = Some (o, s') ∧
    deps_recorded_before dag (trace s') ∧
    match o with
    | Returned c =>
        c = completed s' ∧
        total_batches (orch s') = (total_batches self + Z.of_nat n)%Z ∧
        (∀ t, t ∈ c.*1 ↔ t ∈ dag.*1) ∧
        (∀ t, t ∈ dag.*1 → grounded dag t) ∧
        (deps_defined dag → dag_depth dag n)
    | Raised err =>
        err = cycle_error ∧
        total_batches (orch s') = (total_batches self + Z.of_nat n)%Z ∧
        run_inv dag self n s' ∧ remaining s' ≠ [] ∧
        ready_tasks (completed s') (remaining s') = []
    | TaskFailed e =>
        total_batches (orch s') = (total_batches self + Z.of_nat n + 1)%Z ∧
        ∃ t, t ∈ dag.*1 ∧ execute_fn t = inl e
    end.
Proof.
  intros Hnd. unfold execute_dag.
  destruct (execute_loop_spec dag self execute_fn (length dag) 0
              {| completed := []; remaining := dag; orch := self;
                 trace := [] |})
    as (o & s' & n & Hrun & Ho); [by apply run_inv_init|done|].
  exists o, s', n. split; [done|]. destruct o as [c|err|e].
  - destruct Ho as (-> & Hrem & Hinv).
    destruct (run_inv_finished dag self n s' Hinv Hrem) as [Hkeys Hdepth].
    split; [by eapply inv_order|].
    split_and!; [done|by eapply inv_batches|done| |done].
    intros t Ht. apply (inv_grounded _ _ _ _ Hinv). by apply Hkeys.
  - destruct Ho as (-> & Hrem & Hready & Hinv).
    split; [by eapply inv_order|].
    split_and!; [done|by eapply inv_batches|done..].
  - destruct Ho as (s0 & t & Hinv & Ht & Hfn & ->).
    split; [by eapply start_batch_order|]. split.
    + simpl. rewrite (inv_batches _ _ _ _ Hinv). lia.
    + exists t. split; [|done]. by eapply ready_remaining.
Qed.
End RunFacts.

(** When every task is grounded the graph is acyclic and closed. *)
Lemma grounded_acyclic_defined (dag : list (string * list string)) :
  (∀ t, t ∈ dag.*1 → grounded dag t) → acyclic dag ∧ deps_defined dag.
Proof.
  intros Hall. split.
  - intros t Htc. apply (grounded_not_on_cycle dag t); [|done].
    apply Hall. inversion Htc; subst; by eapply dep_edge_key.
  - intros t d Hed. apply (grounded_dep_defined dag t d); [|done].
    by eapply Hall, dep_edge_key.
Qed.

Section RunClaims.
Context {R E : Type}.
Implicit Types (dag : list (string * list string)).
Implicit Types (execute_fn : string → E + R).

(** A run that returned certifies its graph: it is acyclic, every
    dependency is defined, and its depth is the number of waves counted. *)
Lemma returned_run_certifies self dag execute_fn c s' :
  NoDup dag.*1 →
  execute_dag self dag execute_fn = Some (Returned c, s') →
  acyclic dag ∧ deps_defined dag ∧
  dag_depth dag (Z.to_nat (total_batches (orch s') - total_batches self)).
Proof.
  intros Hnd Hrun.
  destruct (execute_dag_spec self dag execute_fn Hnd)
    as (o & s'' & n & Hrun' & _ & Ho).
  rewrite Hrun in Hrun'. simplify_eq.
  destruct Ho as (_ & Hb & _ & Hg & Hdepth).
  destruct (grounded_acyclic_defined dag Hg) as [Hac Hdef].
  split_and!; [done..|].
  replace (Z.to_nat _) with n by lia. by apply Hdepth.
Qed.

(** The run of the specification's example graph, for any callback that
    returns on its four tasks. *)
Lemma execute_dag_example self execute_fn ra rb rc rd :
  execute_fn "A" = inr ra → execute_fn "B" = inr rb →
  execute_fn "C" = inr rc → execute_fn "D" = inr rd →
  execute_dag self
    [("A", []); ("B", []); ("C", ["A"; "B"]); ("D", ["C"])] execute_fn
  = Some
      (Returned [("A", ra); ("B", rb); ("C", rc); ("D", rd)],
       {| completed := [("A", ra); ("B", rb); ("C", rc); ("D", rd)];
          remaining := [];
          orch := {| total_requests := total_requests self + 1 + 1 + 1 + 1;
                     total_batches := total_batches self + 1 + 1 + 1 |};
          trace := [Invoked "A"; Invoked "B"; Recorded "A"; Recorded "B";
                    Invoked "C"; Recorded "C";
                    Invoked "D"; Recorded "D"] |}).
Proof.
  intros Ha Hb Hc Hd. unfold execute_dag. simpl.
  rewrite Ha, Hb. simpl. rewrite Hc. simpl. rewrite Hd. simpl. done.
Qed.
End RunClaims.

Section OrchestratorClaims.
Context {R E : Type}.
Implicit Types (dag : list (string * list string)).
Implicit Types (execute_fn : string → E + R).

(** C1 (amended): for every acyclic DAG whose dependencies are all keys and
    every callback, the run ends and every invocation of the callback on a
    task comes after the recording of each of the task's dependencies in
    [completed]; when the callback returns a result for every task, the run
    returns a mapping with exactly the DAG's tasks and [total_batches] has
    grown by the DAG's depth, the length of its longest dependency chain.
    The DAG [{A: [], B: [], C: [A, B], D: [C]}] takes exactly 3 waves, with
    A and B recorded before C is invoked and C before D. *)
Theorem execute_dag_waves_equal_depth self dag execute_fn :
  NoDup dag.*1 → acyclic dag → deps_defined dag →
  (∃ o s',
     execute_dag self dag execute_fn = Some (o, s') ∧
     deps_recorded_before dag (trace s') ∧
     ((∀ t, t ∈ dag.*1 → ∃ r, execute_fn t = inr r) →
      ∃ n,
        o = Returned (completed s') ∧
        (∀ t, t ∈ (completed s').*1 ↔ t ∈ dag.*1) ∧
        total_batches (orch s') = (total_batches self + Z.of_nat n)%Z ∧
        dag_depth dag n)) ∧
  (∀ ra rb rc rd,
     execute_fn "A" = inr ra → execute_fn "B" = inr rb →
     execute_fn "C" = inr rc → execute_fn "D" = inr rd →
     ∃ s',
       execute_dag self
         [("A", []); ("B", []); ("C", ["A"; "B"]); ("D", ["C"])] execute_fn
       = Some (Returned [("A", ra); ("B", rb); ("C", rc); ("D", rd)], s') ∧
       total_batches (orch s') = (total_batches self + 3)%Z ∧
       trace s' = [Invoked "A"; Invoked "B"; Recorded "A"; Recorded "B";
                   Invoked "C"; Recorded "C";
                   Invoked "D"; Recorded "D"]).
Proof.
  intros Hnd Hac Hdef. split.
  - destruct (execute_dag_spec self dag execute_fn Hnd)
      as (o & s' & n & Hrun & Hord & Ho).
    exists o, s'. split_and!; [done..|]. intros Hfn. exists n.
    destruct o as [c|err|e].
    + destruct Ho as (-> & Hb & Hkeys & _ & Hdepth). by auto.
    + destruct Ho as (_ & _ & Hinv & Hrem & Hready).
      by destruct (ready_tasks_nonempty dag self n s').
    + destruct Ho as (_ & t & Ht & Hfail).
      destruct (Hfn t Ht) as [r Hr]. congruence.
  - intros ra rb rc rd Ha Hb Hc Hd. eexists. split_and!.
    + by apply execute_dag_example.
    + simpl. lia.
    + done.
Qed.

(** C2 (amended): for every DAG with a dependency cycle or with a dependency
    name that is not a key, and every callback, the run ends, and never by
    returning a mapping: it raises the structural error, unless the
    callback raised on a task of an earlier wave, in which case that
    exception leaves [execute_dag]; so the structural error is raised
    whenever the callback returns on every task.  The structural error is
    an outcome of its own, never a callback's.  On [{A: [B], B: [A]}] it is
    raised at once, before any callback is invoked. *)
Theorem execute_dag_cycle_is_fatal self dag execute_fn :
  NoDup dag.*1 → has_cycle dag ∨ has_dangling_dep dag →
  (∃ o s',
     execute_dag self dag execute_fn = Some (o, s') ∧
     (∀ c, o ≠ Returned c) ∧
     (o = Raised cycle_error ∨
      ∃ t e, t ∈ dag.*1 ∧ execute_fn t = inl e ∧ o = TaskFailed e) ∧
     ((∀ t, t ∈ dag.*1 → ∃ r, execute_fn t = inr r) → o = Raised cycle_error)) ∧
  (∀ e, @Raised R E cycle_error ≠ TaskFailed e) ∧
  execute_dag self [("A", ["B"]); ("B", ["A"])] execute_fn
  = Some (Raised cycle_error,
          {| completed := []; remaining := [("A", ["B"]); ("B", ["A"])];
             orch := self; trace := [] |}).
Proof.
  intros Hnd Hbad. split_and!; [|done..].
  destruct (not_all_grounded dag Hbad) as (t0 & Hkey & Hng).
  destruct (execute_dag_spec self dag execute_fn Hnd)
    as (o & s' & n & Hrun & _ & Ho).
  exists o, s'. split; [done|]. destruct o as [c|err|e].
  - destruct Ho as (_ & _ & _ & Hg & _). destruct Hng. by apply Hg.
  - destruct Ho as (-> & _). split_and!; [done|by left|done].
  - destruct Ho as (_ & t & Ht & Hfail). split_and!; [done| |].
    + right. by exists t, e.
    + intros Hfn. destruct (Hfn t Ht) as [r Hr]. congruence.
Qed.
End OrchestratorClaims.

(** C1, instance: the example graph with a callback that returns the task's
    own name. *)
Lemma execute_dag_waves_equal_depth_witness :
  let dag := [("A", []); ("B", []); ("C", ["A"; "B"]); ("D", ["C"])] in
  let fn : string → Empty_set + string := inr in
  NoDup dag.*1 ∧ acyclic dag ∧ deps_defined dag ∧
  ∃ o s',
    execute_dag new_orchestrator dag fn = Some (o, s') ∧
    deps_recorded_before dag (trace s') ∧
    ((∀ t, t ∈ dag.*1 → ∃ r, fn t = inr r) →
     ∃ n,
       o = Returned (completed s') ∧
       (∀ t, t ∈ (completed s').*1 ↔ t ∈ dag.*1) ∧
       total_batches (orch s') = (total_batches new_orchestrator + Z.of_nat n)%Z ∧
       dag_depth dag n).
Proof.
  intros dag fn.
  assert (NoDup dag.*1) as Hnd by (by apply (bool_decide_unpack _); vm_compute).
  destruct (returned_run_certifies new_orchestrator dag fn
              [("A", "A"); ("B", "B"); ("C", "C"); ("D", "D")]
              {| completed := [("A", "A"); ("B", "B"); ("C", "C"); ("D", "D")];
                 remaining := [];
                 orch := {| total_requests := 4; total_batches := 3 |};
                 trace := [Invoked "A"; Invoked "B";
                           Recorded "A"; Recorded "B";
                           Invoked "C"; Recorded "C";
                           Invoked "D"; Recorded "D"] |} Hnd)
    as (Hac & Hdef & _); [vm_compute; reflexivity|].
  split_and!; [done..|].
  apply (execute_dag_waves_equal_depth new_orchestrator dag fn Hnd Hac Hdef).
Defined.

(** C1, as stated, fails for a callback that raises: on [{A: [], B: [A]}],
    an acyclic graph of depth 2, the exception raised for A leaves
    [execute_dag] in the first wave, and [total_batches] has grown by 1. *)
Lemma execute_dag_raising_callback_one_wave :
  let dag := [("A", []); ("B", ["A"])] in
  let fn : string → string + Z := λ _, inl "boom" in
  NoDup dag.*1 ∧ acyclic dag ∧ deps_defined dag ∧ dag_depth dag 2 ∧
  ∃ s',
    execute_dag new_orchestrator dag fn = Some (TaskFailed "boom", s') ∧
    total_batches (orch s') = (total_batches new_orchestrator + 1)%Z ∧
    ¬ dag_depth dag 1.
Proof.
  intros dag fn.
  assert (NoDup dag.*1) as Hnd by (by apply (bool_decide_unpack _); vm_compute).
  destruct (returned_run_certifies (E:=Empty_set) new_orchestrator dag inr
              [("A", "A"); ("B", "B")]
              {| completed := [("A", "A"); ("B", "B")]; remaining := [];
                 orch := {| total_requests := 2; total_batches := 2 |};
                 trace := [Invoked "A"; Recorded "A";
                           Invoked "B"; Recorded "B"] |} Hnd)
    as (Hac & Hdef & Hdepth); [vm_compute; reflexivity|].
  split_and!; [done..|].
  eexists. split_and!; [vm_compute; reflexivity|done|].
  intros [Hle _]. specialize (Hle ["B"; "A"]). simpl in Hle.
  assert (dep_chain dag ["B"; "A"]) as Hch; [|specialize (Hle Hch); lia].
  constructor; [by exists ["A"]; split; [|left]|].
  constructor. by exists [].
Qed.

(** C2, instance: the two-task cycle. *)
Lemma execute_dag_cycle_is_fatal_witness :
  let dag := [("A", ["B"]); ("B", ["A"])] in
  let fn : string → Empty_set + string := inr in
  NoDup dag.*1 ∧ has_cycle dag ∧
  ∃ o s',
    execute_dag new_orchestrator dag fn = Some (o, s') ∧
    (∀ c, o ≠ Returned c) ∧
    (o = Raised cycle_error ∨
     ∃ t e, t ∈ dag.*1 ∧ fn t = inl e ∧ o = TaskFailed e) ∧
    ((∀ t, t ∈ dag.*1 → ∃ r, fn t = inr r) → o = Raised cycle_error).
Proof.
  intros dag fn.
  assert (NoDup dag.*1) as Hnd by (by apply (bool_decide_unpack _); vm_compute).
  assert (has_cycle dag) as Hcyc.
  { exists "A". apply tc_l with "B"; [|apply tc_once].
    - exists ["B"]. split; [reflexivity|by left].
    - exists ["A"]. split; [reflexivity|by left]. }
  split_and!; [done..|].
  apply (execute_dag_cycle_is_fatal new_orchestrator dag fn Hnd (or_introl Hcyc)).
Defined.

(** C2, as stated, fails when a callback raises before the cycle is met: on
    [{X: [], A: [B], B: [A]}] the first wave runs X, the exception raised for
    it leaves [execute_dag], and the structural error is never raised. *)
Lemma execute_dag_cycle_behind_raising_callback :
  let dag := [("X", []); ("A", ["B"]); ("B", ["A"])] in
  let fn : string → string + Z := λ _, inl "boom" in
  NoDup dag.*1 ∧ has_cycle dag ∧
  ∃ s',
    execute_dag new_orchestrator dag fn = Some (TaskFailed "boom", s') ∧
    trace s' = [Invoked "X"] ∧
    @TaskFailed Z string "boom" ≠ Raised cycle_error.
Proof.
  intros dag fn. split_and!.
  - by apply (bool_decide_unpack _); vm_compute.
  - exists "A". apply tc_l with "B"; [|apply tc_once].
    + exists ["B"]. split; [reflexivity|by left].
    + exists ["A"]. split; [reflexivity|by left].
  - eexists. split_and!; [vm_compute; reflexivity|done..].
Qed.

(** * Properties of the other methods and of sequences of calls *)

(** ** The text of a serialized context *)

(** ** Strings as lists of characters *)

Lemma chars_app s t : chars (s +:+ t) = chars s ++ chars t.
Proof. induction s as [|c s IH]; [done|]. unfold chars in *. simpl. by rewrite IH. Qed.

Lemma chars_cons c s : chars (String c s) = c :: chars s.
Proof. done. Qed.

Lemma chars_inj s t : chars s = chars t → s = t.
Proof.
  intros H. rewrite <-(String.string_of_list_ascii_of_string s),
    <-(String.string_of_list_ascii_of_string t). unfold chars in H. by rewrite H.
Qed.

Lemma chars_concat_cons x ls :
  chars (String.concat ", " (x :: ls)) = chars x ++ join_tail (chars <$> ls).
Proof.
  revert x. induction ls as [|y ls IH]; intros x.
  - simpl. by rewrite app_nil_r.
  - change (String.concat ", " (x :: y :: ls))
      with (x +:+ ", " +:+ String.concat ", " (y :: ls)).
    rewrite !chars_app, IH. done.
Qed.

Lemma chars_concat ls : chars (String.concat ", " ls) = join (chars <$> ls).
Proof. destruct ls as [|x ls]; [done|]. apply chars_concat_cons. Qed.

Lemma all_ascii_complete c : c ∈ all_ascii.
Proof.
  unfold all_ascii. apply list_elem_of_fmap. exists (nat_of_ascii c).
  split; [by rewrite ascii_nat_embedding|].
  apply elem_of_seq. pose proof (nat_ascii_bounded c). lia.
Qed.

Lemma forall_ascii (P : ascii → bool) :
  forallb P all_ascii = true → ∀ c, P c = true.
Proof.
  intros H c. rewrite forallb_forall in H. apply H.
  apply list_elem_of_In, all_ascii_complete.
Qed.

Lemma is_prefix_app a k : is_prefix a (a ++ k) = true.
Proof.
  induction a as [|x a IH]; simpl; [done|].
  by rewrite bool_decide_eq_true_2, IH.
Qed.

(** Of two lists that start the same text, one starts the other. *)
Lemma app_eq_prefix (a b r1 r2 : list ascii) :
  a ++ r1 = b ++ r2 → is_prefix a b = true ∨ is_prefix b a = true.
Proof.
  revert b. induction a as [|x a IH]; intros [|y b]; simpl; auto.
  intros [= -> H]. rewrite !bool_decide_eq_true_2 by done. simpl. by apply IH.
Qed.

(** ** String literals *)

(** The escape sequences form a prefix code, and none starts with a
    quote. *)
Lemma escape_char_prefix_free c1 c2 :
  is_prefix (chars (escape_char c1)) (chars (escape_char c2)) = true → c1 = c2.
Proof.
  assert (forallb (λ c1, forallb (λ c2,
            implb (is_prefix (chars (escape_char c1)) (chars (escape_char c2)))
                  (bool_decide (c1 = c2))) all_ascii) all_ascii = true) as H
    by (vm_compute; reflexivity).
  pose proof (forall_ascii _ (forall_ascii _ H c1) c2) as H12.
  simpl in H12. intros Hp. rewrite Hp in H12. simpl in H12.
  by apply bool_decide_eq_true in H12.
Qed.

Lemma escape_char_head c :
  ∃ h t, chars (escape_char c) = h :: t ∧ h ≠ "034"%char.
Proof.
  assert (forallb (λ c, match chars (escape_char c) with
                        | [] => false
                        | h :: _ => negb (bool_decide (h = "034"%char))
                        end) all_ascii = true) as H
    by (vm_compute; reflexivity).
  pose proof (forall_ascii _ H c) as Hc. simpl in Hc.
  destruct (chars (escape_char c)) as [|h t]; [done|].
  exists h, t. split; [done|].
  apply negb_true_iff, bool_decide_eq_false in Hc. done.
Qed.

Lemma chars_escape_cons c s :
  chars (escape (String c s)) = chars (escape_char c) ++ chars (escape s).
Proof. simpl. apply chars_app. Qed.

(** The text of an escaped string, up to the closing quote, determines the
    string. *)
Lemma escape_unique s1 : ∀ s2 r1 r2,
  chars (escape s1) ++ "034"%char :: r1 = chars (escape s2) ++ "034"%char :: r2 →
  s1 = s2 ∧ r1 = r2.
Proof.
  induction s1 as [|c1 s1 IH]; intros [|c2 s2] r1 r2.
  - by intros [= ->].
  - rewrite chars_escape_cons.
    destruct (escape_char_head c2) as (h & t & -> & Hh). by intros [= <-].
  - rewrite chars_escape_cons.
    destruct (escape_char_head c1) as (h & t & -> & Hh). by intros [= ->].
  - rewrite !chars_escape_cons, <-!app_assoc. intros Heq.
    assert (c1 = c2) as ->.
    { destruct (app_eq_prefix _ _ _ _ Heq) as [H|H];
        [|symmetry]; by apply escape_char_prefix_free. }
    apply app_inv_head in Heq. by destruct (IH _ _ _ Heq) as [-> ->].
Qed.

Lemma chars_encode s :
  chars (encode_basestring_ascii s)
  = "034"%char :: chars (escape s) ++ ["034"%char].
Proof. unfold encode_basestring_ascii. by rewrite chars_app, !chars_cons. Qed.

Lemma encode_unique s1 s2 r1 r2 :
  chars (encode_basestring_ascii s1) ++ r1
  = chars (encode_basestring_ascii s2) ++ r2 →
  s1 = s2 ∧ r1 = r2.
Proof.
  rewrite !chars_encode. simpl. rewrite <-!app_assoc. simpl.
  intros [= H]. by apply escape_unique.
Qed.

(** ** Integers *)

Lemma pretty_N_go_digits (x : N) : ∀ s,
  ∃ d, pretty_N_go x s = d +:+ s ∧ Forall (λ c, is_int_char c = true) (chars d).
Proof.
  induction (N.lt_wf_0 x) as [x _ IH]; intros s.
  destruct (decide (x = 0)%N) as [->|Hx].
  { exists "". split; [by rewrite pretty_N_go_0|constructor]. }
  rewrite pretty_N_go_step by lia.
  destruct (IH (x `div` 10)%N ltac:(apply N.div_lt; lia)
              (String (pretty_N_char (x `mod` 10)) s)) as (d & -> & Hd).
  exists (d +:+ String (pretty_N_char (x `mod` 10)) "").
  split.
  - apply chars_inj. by rewrite !chars_app, <-app_assoc.
  - rewrite chars_app. apply Forall_app. split; [done|].
    repeat constructor. unfold pretty_N_char. by repeat case_match.
Qed.

Lemma pretty_N_int_chars (x : N) :
  Forall (λ c, is_int_char c = true) (chars (pretty x)).
Proof.
  unfold pretty, pretty_N. case_decide; [by repeat constructor|].
  destruct (pretty_N_go_digits x "") as (d & -> & Hd).
  by rewrite chars_app, app_nil_r.
Qed.

Lemma pretty_Z_int_chars (z : Z) :
  Forall (λ c, is_int_char c = true) (chars (pretty z)).
Proof.
  destruct z as [|p|p]; unfold pretty, pretty_Z.
  - by repeat constructor.
  - apply pretty_N_int_chars.
  - change ("-" +:+ pretty p) with (String "-" (pretty p)).
    rewrite chars_cons. constructor; [done|]. apply pretty_N_int_chars.
Qed.

(** The longest run of integer characters at the start of a text. *)
Lemma int_chars_unique (a b r1 r2 : list ascii) :
  Forall (λ c, is_int_char c = true) a →
  Forall (λ c, is_int_char c = true) b →
  follows r1 → follows r2 →
  a ++ r1 = b ++ r2 → a = b ∧ r1 = r2.
Proof.
  intros Ha. revert b. induction Ha as [|x a Hx Ha IH]; intros b Hb Hr1 Hr2.
  - destruct Hb as [|y b Hy Hb]; [done|]. simpl. intros ->.
    simpl in Hr1. congruence.
  - destruct Hb as [|y b Hy Hb]; simpl.
    + intros <-. simpl in Hr2. congruence.
    + intros [= -> Heq]. by destruct (IH b Hb Hr1 Hr2 Heq) as [-> ->].
Qed.

Lemma pretty_unique (z1 z2 : Z) r1 r2 :
  follows r1 → follows r2 →
  chars (pretty z1) ++ r1 = chars (pretty z2) ++ r2 → z1 = z2 ∧ r1 = r2.
Proof.
  intros Hr1 Hr2 Heq.
  destruct (int_chars_unique _ _ _ _ (pretty_Z_int_chars z1)
              (pretty_Z_int_chars z2) Hr1 Hr2 Heq) as [Hz ->].
  split; [|done]. by apply (inj pretty), chars_inj.
Qed.

(** ** The text of lists and dictionaries *)

Lemma insert_sorted_fmap {A B K} (key : B → K) (key' : A → K) le (f : A → B)
    x l :
  (∀ x, key (f x) = key' x) →
  insert_sorted key le (f x) (f <$> l) = f <$> insert_sorted key' le x l.
Proof.
  intros Hkey. induction l as [|y l IH]; csimpl; [done|].
  rewrite !Hkey. destruct (le (key' x) (key' y)); csimpl; [done|].
  by rewrite IH.
Qed.

Lemma py_sorted_fmap {A B K} (key : B → K) (key' : A → K) le (f : A → B) l :
  (∀ x, key (f x) = key' x) →
  py_sorted key le (f <$> l) = f <$> py_sorted key' le l.
Proof.
  intros Hkey. induction l as [|x l IH]; csimpl; [done|].
  rewrite IH. by apply insert_sorted_fmap.
Qed.

Lemma chars_dumps_list xs :
  chars (dumps (JList xs))
  = "["%char :: join ((λ x, chars (dumps x)) <$> xs) ++ ["]"%char].
Proof.
  simpl. rewrite !chars_app, chars_concat.
  change (map dumps xs) with (dumps <$> xs).
  by rewrite <-list_fmap_compose.
Qed.

Lemma chars_dumps_dict items :
  chars (dumps (JDict items))
  = "{"%char :: join (dumps_item <$> py_sorted fst String.leb items)
      ++ ["}"%char].
Proof.
  simpl. rewrite !chars_app, chars_concat.
  change (chars "{") with ["{"%char]. simpl. do 3 f_equal.
  change (map ?f ?l) with (f <$> l).
  rewrite (py_sorted_fmap fst fst) by done.
  rewrite <-!list_fmap_compose. apply list_fmap_ext.
  intros i [k v] _. simpl. unfold dumps_item. simpl.
  by rewrite !chars_app.
Qed.

Lemma follows_join_tail ls c r :
  is_int_char c = false → follows (join_tail ls ++ c :: r).
Proof. intros Hc. by destruct ls. Qed.

Section Lockstep.
Context {A B : Type} (f : A → list ascii) (g : B → list ascii).
Context (Rel : A → B → Prop) (Q : B → Prop) (close : ascii).
Hypothesis close_not_comma : close ≠ ","%char.
Hypothesis close_follows : is_int_char close = false.
Hypothesis f_head : ∀ x, ∃ h t, f x = h :: t ∧ h ≠ close.
Hypothesis g_head : ∀ y, ∃ h t, g y = h :: t ∧ h ≠ close.

Lemma join_tail_unique xs :
  Forall (item_unique f g Rel Q) xs →
  ∀ ys r1 r2, Forall Q ys →
    join_tail (f <$> xs) ++ close :: r1 = join_tail (g <$> ys) ++ close :: r2 →
    Forall2 Rel xs ys ∧ r1 = r2.
Proof.
  induction 1 as [|x xs Hx Hxs IH]; intros [|y ys] r1 r2 Hys; csimpl.
  - by intros [= ->].
  - by intros [= ? _].
  - by intros [= <- _].
  - apply Forall_cons in Hys as [Hy Hys]. rewrite <-!app_assoc.
    intros [= Heq].
    apply Hx in Heq as [Hxy Heq];
      [|done|by apply follows_join_tail..].
    destruct (IH ys r1 r2 Hys Heq) as [Hall ->]. split; [by constructor|done].
Qed.

Lemma join_unique xs :
  Forall (item_unique f g Rel Q) xs →
  ∀ ys r1 r2, Forall Q ys →
    join (f <$> xs) ++ close :: r1 = join (g <$> ys) ++ close :: r2 →
    Forall2 Rel xs ys ∧ r1 = r2.
Proof.
  intros Hxs [|y ys] r1 r2 Hys; destruct Hxs as [|x xs Hx Hxs]; csimpl.
  - by intros [= ->].
  - destruct (f_head x) as (h & t & -> & Hh). by intros [= <- _].
  - destruct (g_head y) as (h & t & -> & Hh). by intros [= -> _].
  - apply Forall_cons in Hys as [Hy Hys]. rewrite <-!app_assoc. intros Heq.
    apply Hx in Heq as [Hxy Heq];
      [|done|by apply follows_join_tail..].
    destruct (join_tail_unique xs Hxs ys r1 r2 Hys Heq) as [Hall ->].
    split; [by constructor|done].
Qed.
End Lockstep.

(** ** The first character of a serialized value *)

Lemma kind_of_int_char c :
  is_int_char c = true → kind_of_char c = Some KInt.
Proof.
  assert (forallb (λ c, implb (is_int_char c)
                          match kind_of_char c with
                          | Some KInt => true
                          | _ => false
                          end) all_ascii = true) as H
    by (vm_compute; reflexivity).
  pose proof (forall_ascii _ H c) as Hc. simpl in Hc.
  intros Hi. rewrite Hi in Hc. simpl in Hc.
  by destruct (kind_of_char c) as [[]|].
Qed.

Lemma pretty_Z_nonempty (z : Z) : chars (pretty z) ≠ [].
Proof.
  assert (∀ x : N, chars (pretty x) ≠ []) as HN.
  { intros x. unfold pretty, pretty_N. case_decide; [done|].
    rewrite pretty_N_go_step by lia.
    destruct (pretty_N_go_digits (x `div` 10)%N
                (String (pretty_N_char (x `mod` 10)) "")) as (d & -> & _).
    rewrite chars_app, chars_cons. by destruct (chars d). }
  destruct z as [|p|p]; unfold pretty, pretty_Z; [done|apply HN|done].
Qed.

Lemma dumps_head j :
  ∃ h t, chars (dumps j) = h :: t ∧ kind_of_char h = Some (kind_of j).
Proof.
  destruct j as [|[]|n|s|xs|items].
  - by eexists _, _.
  - by eexists _, _.
  - by eexists _, _.
  - pose proof (pretty_Z_int_chars n) as Hall.
    pose proof (pretty_Z_nonempty n) as Hne. simpl.
    destruct (chars (pretty n)) as [|h t]; [done|].
    apply Forall_cons in Hall as [Hh _].
    exists h, t. split; [done|]. by apply kind_of_int_char.
  - change (dumps (JStr s)) with (encode_basestring_ascii s).
    rewrite chars_encode. by eexists _, _.
  - rewrite chars_dumps_list. by eexists _, _.
  - rewrite chars_dumps_dict. by eexists _, _.
Qed.

Lemma dumps_head_not (c : ascii) :
  kind_of_char c = None → ∀ j, ∃ h t, chars (dumps j) = h :: t ∧ h ≠ c.
Proof.
  intros Hc j. destruct (dumps_head j) as (h & t & Hj & Hk).
  exists h, t. split; [done|]. intros ->. congruence.
Qed.

Lemma dumps_item_head (c : ascii) :
  c ≠ "034"%char → ∀ p, ∃ h t, dumps_item p = h :: t ∧ h ≠ c.
Proof.
  intros Hc p. unfold dumps_item. rewrite chars_encode. simpl.
  eexists _, _. split; [done|]. by intros <-.
Qed.

(** ** The text determines the value *)

Lemma dumps_unique j1 : ∀ j2 r1 r2,
  json_wf j1 → json_wf j2 → follows r1 → follows r2 →
  chars (dumps j1) ++ r1 = chars (dumps j2) ++ r2 →
  json_denote j1 = json_denote j2 ∧ r1 = r2.
Proof.
  induction j1 as [|b|n|s|xs IH|d1 IH] using json_nested_ind;
    intros j2 r1 r2 Hwf1 Hwf2 Hr1 Hr2 Heq.
  all: match type of Heq with chars (dumps ?j) ++ _ = _ =>
         assert (kind_of j = kind_of j2) as Hkind
       end.
  all: try (destruct (dumps_head j2) as (h2 & t2 & Hj2 & Hk2);
            match goal with |- kind_of ?j = _ =>
              destruct (dumps_head j) as (h1 & t1 & Hj1 & Hk1) end;
            rewrite Hj1, Hj2 in Heq; simpl in Heq;
            injection Heq as -> _; congruence).
  all: destruct j2 as [|b2|n2|s2|ys|d2]; try discriminate Hkind; clear Hkind.
  - (* null *)
    split; [done|]. by apply (app_inv_head (chars "null")).
  - (* booleans *)
    destruct b, b2; simpl in Heq; try discriminate Heq;
      (split; [done|]); by injection Heq.
  - (* integers *)
    change (dumps (JInt ?n)) with (pretty n) in Heq.
    by destruct (pretty_unique _ _ _ _ Hr1 Hr2 Heq) as [-> ->].
  - (* strings *)
    change (dumps (JStr ?s)) with (encode_basestring_ascii s) in Heq.
    by destruct (encode_unique _ _ _ _ Heq) as [-> ->].
  - (* lists *)
    rewrite !chars_dumps_list in Heq. simpl in Heq.
    rewrite <-!app_assoc in Heq. simpl in Heq. injection Heq as Heq.
    apply json_wf_list in Hwf1, Hwf2.
    destruct (join_unique (λ x, chars (dumps x)) (λ x, chars (dumps x))
                (λ x y, json_denote x = json_denote y) json_wf "]"%char
                ltac:(done) ltac:(done)
                (dumps_head_not "]"%char eq_refl)
                (dumps_head_not "]"%char eq_refl) xs)
      with ys r1 r2
      as [Hall ->]; [|done|done|].
    + apply Forall_forall. intros x Hx y r1' r2' Hy Hr1' Hr2' Hxy.
      rewrite Forall_forall in IH, Hwf1.
      by apply (IH x Hx y r1' r2'); [apply Hwf1|..].
    + split; [|done]. simpl. f_equal. clear -Hall.
      induction Hall as [|x y xs' ys' Hxy _ IH']; simpl; [done|].
      by rewrite Hxy, IH'.
  - (* dictionaries *)
    rewrite !chars_dumps_dict in Heq. simpl in Heq.
    rewrite <-!app_assoc in Heq. simpl in Heq. injection Heq as Heq.
    apply json_wf_dict in Hwf1 as [Hnd1 Hwf1], Hwf2 as [Hnd2 Hwf2].
    pose proof (py_sorted_Permutation fst String.leb d1) as Hp1.
    pose proof (py_sorted_Permutation fst String.leb d2) as Hp2.
    destruct (join_unique dumps_item dumps_item
                (λ p q, p.1 = q.1 ∧ json_denote p.2 = json_denote q.2)
                (λ q, json_wf q.2) "}"%char
                ltac:(done) ltac:(done)
                (dumps_item_head "}"%char ltac:(done))
                (dumps_item_head "}"%char ltac:(done))
                (py_sorted fst String.leb d1))
      with (py_sorted fst String.leb d2) r1 r2
      as [Hall ->]; [|by rewrite Hp2|done|].
    + rewrite Hp1. apply Forall_forall.
      intros [k1 v1] Hin [k2 v2] r1' r2' Hq Hr1' Hr2'.
      unfold dumps_item. simpl. rewrite <-!app_assoc. simpl.
      intros [-> Hrest]%encode_unique. injection Hrest as Hrest.
      rewrite Forall_forall in IH, Hwf1.
      destruct (IH (k2, v1) Hin v2 r1' r2') as [Hden ->];
        [by apply (Hwf1 (k2, v1))|done..|].
      done.
    + split; [|done]. simpl. f_equal.
      set (den := λ p : string * json, (p.1, json_denote p.2)).
      change (map den d1) with (den <$> d1).
      change (map den d2) with (den <$> d2).
      assert (∀ d : list (string * json), (den <$> d).*1 = d.*1) as Hdenk.
      { intros d. by rewrite <-list_fmap_compose. }
      rewrite (list_to_map_proper (M:=gmap string) (den <$> d1)
                 (den <$> py_sorted fst String.leb d1));
        [|by rewrite Hdenk|by rewrite Hp1].
      rewrite (list_to_map_proper (M:=gmap string) (den <$> d2)
                 (den <$> py_sorted fst String.leb d2));
        [|by rewrite Hdenk|by rewrite Hp2].
      f_equal. clear -Hall.
      induction Hall as [|[k1 v1] [k2 v2] l1 l2 [Hk Hv] _ IH']; csimpl;
        [done|].
      simpl in Hk, Hv. unfold den at 1 3. simpl. by rewrite Hk, Hv, IH'.
Qed.

(** Objects with the same serialization are equal as values. *)
Lemma dumps_inj_denote j1 j2 :
  json_wf j1 → json_wf j2 → dumps j1 = dumps j2 →
  json_denote j1 = json_denote j2.
Proof.
  intros Hwf1 Hwf2 Heq.
  destruct (dumps_unique j1 j2 [] [] Hwf1 Hwf2) as [Hden _]; [done..| |done].
  by rewrite Heq.
Qed.

(** ** Scanning a serialized value *)

Lemma lex_run_app st a b :
  lex_run st (a ++ b) = lex_run st a ≫= λ st', lex_run st' b.
Proof.
  revert st. induction a as [|c a IH]; intros st; simpl; [done|].
  destruct (lex_step st c); [apply IH|done].
Qed.

Lemma lex_run_int_chars a :
  Forall (λ c, is_int_char c = true) a → lex_run LexOut a = Some LexOut.
Proof.
  assert (forallb (λ c, implb (is_int_char c)
                          match lex_step LexOut c with
                          | Some LexOut => true
                          | _ => false
                          end) all_ascii = true) as H
    by (vm_compute; reflexivity).
  induction 1 as [|c a Hc _ IH]; cbn [lex_run]; [done|].
  pose proof (forall_ascii _ H c) as Hs. cbv beta in Hs. rewrite Hc in Hs.
  by destruct (lex_step LexOut c) as [[]|].
Qed.

Lemma lex_run_escape s : lex_run LexIn (chars (escape s)) = Some LexIn.
Proof.
  assert (forallb (λ c, match lex_run LexIn (chars (escape_char c)) with
                        | Some LexIn => true
                        | _ => false
                        end) all_ascii = true) as H
    by (vm_compute; reflexivity).
  induction s as [|c s IH]; [done|].
  rewrite chars_escape_cons, lex_run_app.
  pose proof (forall_ascii _ H c) as Hc. cbv beta in Hc.
  by destruct (lex_run LexIn (chars (escape_char c))) as [[]|].
Qed.

Lemma lex_run_encode s :
  lex_run LexOut (chars (encode_basestring_ascii s)) = Some LexOut.
Proof.
  rewrite chars_encode. simpl. by rewrite lex_run_app, lex_run_escape.
Qed.

Lemma lex_run_join_tail ls :
  Forall (λ x, lex_run LexOut x = Some LexOut) ls →
  lex_run LexOut (join_tail ls) = Some LexOut.
Proof.
  induction 1 as [|x ls Hx _ IH]; simpl; [done|].
  by rewrite lex_run_app, Hx.
Qed.

Lemma lex_run_join ls :
  Forall (λ x, lex_run LexOut x = Some LexOut) ls →
  lex_run LexOut (join ls) = Some LexOut.
Proof.
  destruct 1 as [|x ls Hx Hls]; simpl; [done|].
  rewrite lex_run_app, Hx. simpl. by apply lex_run_join_tail.
Qed.

(** Scanned from the outside of string literals, a serialized value ends
    outside of them. *)
Lemma lex_run_dumps j : lex_run LexOut (chars (dumps j)) = Some LexOut.
Proof.
  induction j as [|[]|n|s|xs IH|items IH] using json_nested_ind.
  - done.
  - done.
  - done.
  - apply lex_run_int_chars, pretty_Z_int_chars.
  - apply lex_run_encode.
  - rewrite chars_dumps_list. simpl. rewrite lex_run_app, lex_run_join; [done|].
    by apply Forall_fmap.
  - rewrite chars_dumps_dict. simpl. rewrite lex_run_app, lex_run_join; [done|].
    apply Forall_fmap. rewrite py_sorted_Permutation.
    eapply Forall_impl; [exact IH|]. intros [k v] Hv. cbn [snd] in Hv.
    unfold dumps_item, compose. cbn [fst snd].
    rewrite lex_run_app, lex_run_encode. simpl. exact Hv.
Qed.

(** Two scanners that disagree on being inside a string literal cannot both
    end outside of one. *)
Lemma lex_run_opposite l : ∀ st1 st2,
  lex_opposite st1 st2 →
  lex_run st1 l = Some LexOut → lex_run st2 l = Some LexOut → False.
Proof.
  induction l as [|c l IH]; intros st1 st2 Hopp; simpl.
  - intros [= ->] [= ->]. done.
  - destruct (lex_step st1 c) as [st1'|] eqn:H1; [|done].
    destruct (lex_step st2 c) as [st2'|] eqn:H2; [|done].
    apply IH. destruct st1, st2; try done; simpl in H1, H2;
      repeat case_bool_decide; simplify_eq; done.
Qed.

(** A serialized value does not end with [::] and a serialized value. *)
Lemma no_embedded_dump t d1 d2 :
  lex_run LexOut d1 = Some LexOut → lex_run LexOut d2 = Some LexOut →
  d1 ≠ t ++ ":"%char :: ":"%char :: d2.
Proof.
  intros H1 H2 ->. rewrite lex_run_app in H1.
  destruct (lex_run LexOut t) as [[]|]; simpl in H1; try done.
  - by apply (lex_run_opposite d2 LexIn LexOut).
  - by apply (lex_run_opposite d2 LexIn LexOut).
Qed.

Lemma key_chars_unique (a : list ascii) : ∀ b d1 d2 t1 t2,
  d1 = "{"%char :: t1 → d2 = "{"%char :: t2 →
  lex_run LexOut d1 = Some LexOut → lex_run LexOut d2 = Some LexOut →
  a ++ ":"%char :: ":"%char :: d1 = b ++ ":"%char :: ":"%char :: d2 →
  a = b ∧ d1 = d2.
Proof.
  induction a as [|x a IH]; intros [|y b] d1 d2 t1 t2 Hd1 Hd2 H1 H2; simpl.
  - by intros [= ->].
  - intros [= <- Heq]. destruct b as [|y b]; simpl in Heq.
    + injection Heq as Heq. subst. done.
    + injection Heq as <- Heq.
      by destruct (no_embedded_dump b d1 d2 H1 H2).
  - intros [= -> Heq]. destruct a as [|x a]; simpl in Heq.
    + injection Heq as Heq. subst. done.
    + injection Heq as -> Heq.
      by destruct (no_embedded_dump a d2 d1 H2 H1).
  - intros [= -> Heq].
    by destruct (IH b d1 d2 t1 t2 Hd1 Hd2 H1 H2 Heq) as [-> ->].
Qed.

Lemma make_key_inj query1 query2 ctx1 ctx2 :
  _make_key query1 ctx1 = _make_key query2 ctx2 →
  query1 = query2 ∧ dumps (JDict ctx1) = dumps (JDict ctx2).
Proof.
  unfold _make_key. intros Heq%(f_equal chars).
  rewrite !chars_app in Heq. change (chars "::") with [":"; ":"]%char in Heq.
  simpl in Heq.
  destruct (key_chars_unique (chars query1) (chars query2)
              (chars (dumps (JDict ctx1))) (chars (dumps (JDict ctx2)))
              (join (dumps_item <$> py_sorted fst String.leb ctx1) ++ ["}"%char])
              (join (dumps_item <$> py_sorted fst String.leb ctx2) ++ ["}"%char]))
    as [Hq Hd];
    [apply chars_dumps_dict|apply chars_dumps_dict|
     apply lex_run_dumps|apply lex_run_dumps|done|].
  split; by apply chars_inj.
Qed.

Section KeyExtras.
Context {V : Type}.
Implicit Types (c : ContextAwareCache V) (v : V).

(** X1: for contexts built from [None], booleans, integers, strings, lists
    and string-keyed dictionaries, two lookups have the same cache key
    exactly when their queries are equal and their contexts are equal as
    mappings, whatever characters the queries and the strings contain.  So
    a [put] under one query and context leaves the value stored under any
    other unchanged, or evicts it. *)
Theorem cache_key_separates c query1 query2
    (ctx1 ctx2 : list (string * json)) v :
  json_wf (JDict ctx1) → json_wf (JDict ctx2) →
  (_make_key query1 ctx1 = _make_key query2 ctx2 ↔
   query1 = query2 ∧ json_denote (JDict ctx1) = json_denote (JDict ctx2)) ∧
  (¬ (query1 = query2 ∧
      json_denote (JDict ctx1) = json_denote (JDict ctx2)) →
   ∀ c', put c query1 ctx1 v = Ok c' →
         _store c' !! _make_key query2 ctx2 = None ∨
         _store c' !! _make_key query2 ctx2
           = _store c !! _make_key query2 ctx2).
Proof.
  intros Hwf1 Hwf2.
  assert (_make_key query1 ctx1 = _make_key query2 ctx2 ↔
          query1 = query2 ∧
          json_denote (JDict ctx1) = json_denote (JDict ctx2)) as Hiff.
  { split.
    - intros [-> Hd]%make_key_inj. split; [done|].
      by apply dumps_inj_denote.
    - intros [-> Hden]. by apply make_key_json_denote. }
  split; [done|]. intros Hne c' Hput.
  assert (_make_key query1 ctx1 ≠ _make_key query2 ctx2) as Hkey
    by (by rewrite Hiff).
  unfold put in Hput.
  destruct (_ && _).
  - destruct (list_pop0 (_access_order c)) as [[oldest order]|]; [|done].
    simpl in Hput.
    destruct (store_del oldest (_store c)) as [store|] eqn:Hdel; [|done].
    simpl in Hput. injection Hput as <-. simpl.
    rewrite lookup_insert_ne by done.
    unfold store_del in Hdel. destruct (_store c !! oldest); [|done].
    injection Hdel as <-.
    destruct (decide (oldest = _make_key query2 ctx2)) as [->|Hne'].
    + left. by rewrite lookup_delete_eq.
    + right. by rewrite lookup_delete_ne.
  - simpl in Hput. injection Hput as <-. simpl.
    right. by rewrite lookup_insert_ne.
Qed.
End KeyExtras.

(** X1, instance: the two users of [demo_caching] asking the same query. *)
Lemma cache_key_separates_witness :
  let alice := [("user", JStr "alice"); ("role", JStr "admin")] in
  let bob := [("user", JStr "bob"); ("role", JStr "viewer")] in
  json_wf (JDict alice) ∧ json_wf (JDict bob) ∧
  _make_key "search:logs" alice ≠ _make_key "search:logs" bob.
Proof.
  intros alice bob.
  assert (json_wf (JDict alice)) as Hwf1
    by (split; [by apply (bool_decide_unpack _); vm_compute|done]).
  assert (json_wf (JDict bob)) as Hwf2
    by (split; [by apply (bool_decide_unpack _); vm_compute|done]).
  split_and!; [done..|].
  destruct (cache_key_separates (new_cache (V:=Z) 64) "search:logs"
              "search:logs" alice bob 0%Z Hwf1 Hwf2) as [Hiff _].
  rewrite Hiff. intros [_ Hden]. vm_compute in Hden. discriminate Hden.
Defined.

(** ** The cache in use *)

Section CacheExtras.
Context {V : Type}.
Implicit Types (c : ContextAwareCache V) (v : V).

Lemma list_remove_app x (l1 l2 : list string) :
  x ∉ l1 → list_remove x (l1 ++ x :: l2) = Ok (l1 ++ l2).
Proof.
  induction l1 as [|y l1 IH]; simpl.
  - intros _. by rewrite decide_True.
  - intros [? ?]%not_elem_of_cons. rewrite decide_False by done.
    by rewrite IH.
Qed.

(** In a well-formed cache the store has as many entries as the access
    order has keys. *)
Lemma cache_wf_size c :
  cache_wf c → size (_store c) = length (_access_order c).
Proof.
  intros [Hnd Hdom].
  rewrite <-size_dom, <-(size_list_to_set (C:=gset string)) by done.
  f_equal. apply set_eq. intros k.
  by rewrite elem_of_dom, elem_of_list_to_set, Hdom.
Qed.

(** [get] on a hit and on a miss. *)
Lemma get_hit c query context v :
  cache_wf c → _store c !! _make_key query context = Some v →
  ∃ l1 l2,
    _access_order c = l1 ++ _make_key query context :: l2 ∧
    get c query context =
      Ok (Some v,
          {| max_size := max_size c; _store := _store c;
             _access_order := l1 ++ l2 ++ [_make_key query context];
             hits := hits c + 1; misses := misses c |}).
Proof.
  intros [Hnd Hdom] Hget. set (key := _make_key query context) in *.
  assert (key ∈ _access_order c) as Hin by (apply Hdom; eauto).
  apply list_elem_of_split_l in Hin as (l1 & l2 & Horder & Hl1).
  exists l1, l2. split; [done|]. unfold get. fold key.
  rewrite Hget, Horder, list_remove_app by done. simpl.
  by rewrite <-app_assoc.
Qed.

Lemma get_miss c query context :
  _store c !! _make_key query context = None →
  get c query context =
    Ok (None,
        {| max_size := max_size c; _store := _store c;
           _access_order := _access_order c;
           hits := hits c; misses := misses c + 1 |}).
Proof. intros Hget. unfold get. by rewrite Hget. Qed.

(** X3: in a well-formed cache, a [get] that finds its key returns the
    stored value, moves the key from its place in the access order to the
    end, keeping the order of the others, and counts one hit; a [get] that
    does not find it returns [None] and counts one miss.  Neither changes
    the store. *)
Theorem get_moves_key_to_end c query context :
  cache_wf c →
  let key := _make_key query context in
  (∀ v, _store c !! key = Some v →
        ∃ l1 l2,
          _access_order c = l1 ++ key :: l2 ∧ (key ∉ l1 ++ l2) ∧
          get c query context =
            Ok (Some v,
                {| max_size := max_size c; _store := _store c;
                   _access_order := l1 ++ l2 ++ [key];
                   hits := hits c + 1; misses := misses c |})) ∧
  (_store c !! key = None →
   get c query context =
     Ok (None,
         {| max_size := max_size c; _store := _store c;
            _access_order := _access_order c;
            hits := hits c; misses := misses c + 1 |})).
Proof.
  intros Hwf key. split; [|apply get_miss].
  intros v Hget.
  destruct (get_hit c query context v Hwf Hget) as (l1 & l2 & Horder & Hg).
  exists l1, l2. split_and!; [done| |done].
  destruct Hwf as [Hnd _]. rewrite Horder in Hnd.
  apply NoDup_app in Hnd as (_ & Hdisj & [? ?]%NoDup_cons).
  fold key in Hdisj. intros [Hin|Hin]%elem_of_app; [|done].
  apply (Hdisj key Hin). by left.
Qed.

(** X4: in a well-formed cache of capacity at least 2, the entry a [get]
    has just returned survives the next [put], whatever key that [put]
    writes: it is still stored, with its value, or with the new one when
    the [put] wrote to its own key. *)
Theorem get_protects_from_next_eviction c query context v c1
    query' context' value' :
  cache_wf c → (2 ≤ max_size c)%Z →
  get c query context = Ok (Some v, c1) →
  ∃ c2,
    put c1 query' context' value' = Ok c2 ∧
    _store c2 !! _make_key query context =
      Some (if decide (_make_key query' context' = _make_key query context)
            then value' else v).
Proof.
  intros Hwf Hcap Hget.
  set (key := _make_key query context) in *.
  set (key' := _make_key query' context') in *.
  assert (_store c !! key = Some v) as Hv.
  { unfold get in Hget. fold key in Hget.
    destruct (_store c !! key) as [w|]; [|done].
    destruct (list_remove key (_access_order c)); [|done].
    simpl in Hget. by injection Hget as ->. }
  destruct (get_hit c query context v Hwf Hv) as (l1 & l2 & Horder & Hg).
  fold key in Horder, Hg. rewrite Hg in Hget. injection Hget as <-.
  set (c1 := {| max_size := max_size c; _store := _store c;
                _access_order := l1 ++ l2 ++ [key];
                hits := hits c + 1; misses := misses c |}).
  assert (cache_wf c1) as Hwf1 by (by eapply cache_wf_get).
  destruct (decide ((max_size c1 ≤ Z.of_nat (size (_store c1)))%Z
                    ∧ _store c1 !! key' = None)) as [[Hfull Hnew]|Hno].
  - destruct (cache_wf_full_head c1 Hwf1 ltac:(simpl; lia) Hfull)
      as (oldest & rest & Ho & Hs & Hn).
    rewrite (put_evict c1 query' context' value' oldest rest) by done.
    eexists. split; [done|]. simpl. fold key'.
    assert (key' ≠ key) as Hne by (intros Heq; simpl in Hnew; congruence).
    rewrite decide_False by done.
    rewrite lookup_insert_ne by done.
    rewrite lookup_delete_ne; [done|].
    intros ->. pose proof (cache_wf_size c1 Hwf1) as Hsize.
    rewrite Ho in Hsize. simpl in Ho, Hfull, Hsize.
    destruct Hwf1 as [Hnd1 _]. simpl in Hnd1. rewrite app_assoc in Hnd1, Ho.
    destruct (l1 ++ l2) as [|x l]; simpl in Ho.
    + injection Ho as <-. simpl in Hsize. lia.
    + injection Ho as -> _. apply NoDup_cons in Hnd1 as [Hx _].
      apply Hx. apply elem_of_app. right. by left.
  - rewrite put_no_evict.
    2:{ fold key'. apply not_and_l in Hno as [Hlt|Hin]; [left; lia|right].
        by apply not_eq_None_Some. }
    eexists. split; [done|]. simpl. fold key'.
    destruct (decide (key' = key)) as [->|Hne].
    + by rewrite lookup_insert_eq.
    + by rewrite lookup_insert_ne.
Qed.

Lemma put_size c query context value c' :
  cache_wf c → (1 ≤ max_size c)%Z →
  (Z.of_nat (size (_store c)) ≤ max_size c)%Z →
  put c query context value = Ok c' →
  (Z.of_nat (size (_store c')) ≤ max_size c')%Z ∧ max_size c' = max_size c ∧
  hits c' = hits c ∧ misses c' = misses c.
Proof.
  intros Hwf Hpos Hsize Hput. set (key := _make_key query context) in *.
  destruct (decide ((max_size c ≤ Z.of_nat (size (_store c)))%Z
                    ∧ _store c !! key = None)) as [[Hfull Hnew]|Hno].
  - destruct (cache_wf_full_head c Hwf Hpos Hfull)
      as (oldest & rest & Ho & [w Hs] & Hn).
    rewrite (put_evict c query context value oldest rest) in Hput by eauto.
    injection Hput as <-. simpl. split_and!; [|done..]. fold key.
    rewrite map_size_insert_None.
    2:{ rewrite lookup_delete_ne; [done|]. intros ->. congruence. }
    pose proof (map_size_delete_Some oldest (_store c) (mk_is_Some _ _ Hs)).
    assert (size (_store c) ≠ 0); [|lia].
    intros H0%map_size_empty_inv. by rewrite H0 in Hs.
  - rewrite put_no_evict in Hput.
    2:{ fold key. apply not_and_l in Hno as [Hlt|Hin]; [left; lia|right].
        by apply not_eq_None_Some. }
    injection Hput as <-. simpl. split_and!; [|done..]. fold key.
    destruct (_store c !! key) as [w|] eqn:Hk.
    + rewrite map_size_insert_Some by eauto. lia.
    + rewrite map_size_insert_None by done.
      apply not_and_l in Hno as [Hlt|Hin]; [lia|done].
Qed.

Lemma get_counts c query context r c' :
  get c query context = Ok (r, c') →
  _store c' = _store c ∧ max_size c' = max_size c ∧
  (hits c' + misses c' = hits c + misses c + 1)%Z ∧
  (hits c ≤ hits c')%Z ∧ (misses c ≤ misses c')%Z.
Proof.
  unfold get. destruct (_store c !! _make_key query context) as [w|].
  - destruct (list_remove _ _); [|done]. simpl. intros [= <- <-]. simpl.
    split_and!; (done || lia).
  - intros [= <- <-]. simpl. split_and!; (done || lia).
Qed.

Lemma cache_run_spec (ops : list (cache_op V)) : ∀ c,
  cache_wf c → (1 ≤ max_size c)%Z →
  (Z.of_nat (size (_store c)) ≤ max_size c)%Z →
  ∃ c',
    cache_run c ops = Ok c' ∧ cache_wf c' ∧ max_size c' = max_size c ∧
    (Z.of_nat (size (_store c')) ≤ max_size c)%Z ∧
    (hits c' + misses c' = hits c + misses c + len (filter is_get ops))%Z ∧
    (hits c ≤ hits c')%Z ∧ (misses c ≤ misses c')%Z.
Proof.
  induction ops as [|op ops IH]; intros c Hwf Hpos Hsize.
  { exists c. unfold len. simpl. split_and!; (done || lia). }
  destruct op as [query context|query context value]; simpl.
  - destruct (get_Ok c query context Hwf) as (r & c1 & Hget).
    rewrite Hget. simpl.
    pose proof (cache_wf_get c query context r c1 Hwf Hget) as Hwf1.
    destruct (get_counts c query context r c1 Hget)
      as (Hst & Hmax & Hsum & Hh & Hm).
    destruct (IH c1 Hwf1) as (c' & -> & ? & ? & ? & ? & ? & ?);
      [lia|rewrite Hst; lia|].
    exists c'. rewrite filter_cons_True by done. unfold len in *. simpl.
    split_and!; (done || lia).
  - destruct (put_Ok c query context value Hwf Hpos) as (c1 & Hput).
    rewrite Hput. simpl.
    pose proof (cache_wf_put c query context value c1 Hwf Hput) as Hwf1.
    destruct (put_size c query context value c1 Hwf Hpos Hsize Hput)
      as (Hsz & Hmax & Hh & Hm).
    destruct (IH c1 Hwf1) as (c' & -> & ? & ? & ? & ? & ? & ?); [lia..|].
    exists c'. rewrite filter_cons_False by (by intros ?). unfold len in *.
    split_and!; (done || lia).
Qed.

(** X2: on a new cache of capacity at least 1, no sequence of [get] and
    [put] calls raises; afterwards the access order holds exactly the keys
    of the store, the store holds at most [max_size] entries, and [hits]
    and [misses], both non-negative, add up to the number of [get] calls. *)
Theorem cache_run_within_capacity (n : Z) (ops : list (cache_op V)) :
  (1 ≤ n)%Z →
  ∃ c,
    cache_run (new_cache n) ops = Ok c ∧
    cache_wf c ∧ max_size c = n ∧
    (Z.of_nat (size (_store c)) ≤ n)%Z ∧
    (hits c + misses c = len (filter is_get ops))%Z ∧
    (0 ≤ hits c)%Z ∧ (0 ≤ misses c)%Z.
Proof.
  intros Hn.
  destruct (cache_run_spec ops (new_cache n))
    as (c & Hrun & Hwf & Hmax & Hsize & Hsum & Hh & Hm);
    [apply cache_wf_new|done|simpl; rewrite map_size_empty; lia|].
  exists c. simpl in *. split_and!; (done || lia).
Qed.

Lemma scaled_to_float_0 den : (0 < den)%Z → scaled_to_float 0 den = 0%float.
Proof.
  intros Hden. unfold scaled_to_float.
  change (Z.abs 0) with 0%Z. rewrite Z.div_0_l by lia.
  change (Z.max 0 (Z.log2 0 + 1 - 53)) with 0%Z.
  unfold div_nearest_even. rewrite Z.div_0_l, Z.mod_0_l by lia.
  assert ((2 * 0 ?= den * 2 ^ 0)%Z = Lt) as -> by (apply Z.compare_lt_iff; lia).
  by vm_compute.
Qed.

(** X5: with non-negative counters, as in every cache reached by [get] and
    [put], [hit_rate] returns a float: it divides by no zero, the total
    being tested first, and the quotient does not overflow.  It is 0.0
    when there was no hit, which covers the cache no [get] was called on,
    and 1.0 when there were hits and no miss. *)
Theorem hit_rate_defined c :
  (0 ≤ hits c)%Z → (0 ≤ misses c)%Z →
  ∃ x, hit_rate c = inr x ∧
       (hits c = 0%Z → x = 0%float) ∧
       (misses c = 0%Z → (0 < hits c)%Z → x = 1%float).
Proof.
  intros Hh Hm. unfold hit_rate.
  case_bool_decide as Htot; [|exists 0%float; split_and!; [done..|lia]].
  unfold int_true_div.
  rewrite (bool_decide_eq_false_2 (hits c + misses c = 0)%Z) by done.
  rewrite (bool_decide_eq_false_2 (_ ≤ _)%Z).
  2:{ rewrite !Z.abs_eq by lia.
      assert (2 ^ 970 * 3 ≤ 2 ^ 1024 - 2 ^ 970)%Z by (by vm_compute). nia. }
  assert ((hits c <? 0)%Z = false) as -> by lia.
  assert ((hits c + misses c <? 0)%Z = false) as -> by lia.
  cbn [xorb]. eexists. split; [done|]. rewrite !Z.abs_eq by lia. split.
  - intros H0. rewrite H0, Z.mul_0_l. apply scaled_to_float_0. lia.
  - intros -> Hpos. rewrite Z.add_0_r.
    rewrite (scaled_to_float_mul (hits c) (2 ^ 1074)) by lia.
    by vm_compute.
Qed.
End CacheExtras.

(** X3, instance: a cache of capacity 2 holding two entries; the older
    one is read. *)
Lemma get_moves_key_to_end_witness :
  let c := {| max_size := 2;
              _store := {["q1::{}" := 10%Z; "q2::{}" := 20%Z]};
              _access_order := ["q1::{}"; "q2::{}"];
              hits := 0; misses := 0 |} in
  cache_wf c ∧
  ∃ l1 l2,
    _access_order c = l1 ++ "q1::{}" :: l2 ∧ ("q1::{}" ∉ l1 ++ l2) ∧
    get c "q1" [] =
      Ok (Some 10%Z,
          {| max_size := 2; _store := _store c;
             _access_order := l1 ++ l2 ++ ["q1::{}"];
             hits := 1; misses := 0 |}).
Proof.
  intros c.
  assert (cache_wf c) as Hwf.
  { destruct (cache_run_spec [CachePut "q1" [] 10%Z; CachePut "q2" [] 20%Z]
                (new_cache 2)) as (c' & Hrun & Hwf & _);
      [apply cache_wf_new|done|done|].
    vm_compute in Hrun. injection Hrun as <-. exact Hwf. }
  split; [exact Hwf|].
  destruct (get_moves_key_to_end c "q1" [] Hwf) as [Hhit _].
  apply (Hhit 10%Z). vm_compute. reflexivity.
Defined.

(** X4, instance: in a full cache of capacity 2 the older entry is read,
    then a third key is put; the entry that was read is still there. *)
Lemma get_protects_from_next_eviction_witness :
  let c := {| max_size := 2;
              _store := {["q1::{}" := 10%Z; "q2::{}" := 20%Z]};
              _access_order := ["q1::{}"; "q2::{}"];
              hits := 0; misses := 0 |} in
  let c1 := {| max_size := 2;
               _store := {["q1::{}" := 10%Z; "q2::{}" := 20%Z]};
               _access_order := ["q2::{}"; "q1::{}"];
               hits := 1; misses := 0 |} in
  cache_wf c ∧ get c "q1" [] = Ok (Some 10%Z, c1) ∧
  ∃ c2, put c1 "q3" [] 30%Z = Ok c2 ∧ _store c2 !! "q1::{}" = Some 10%Z.
Proof.
  intros c c1.
  assert (cache_wf c) as Hwf.
  { destruct (cache_run_spec [CachePut "q1" [] 10%Z; CachePut "q2" [] 20%Z]
                (new_cache 2)) as (c' & Hrun & Hwf & _);
      [apply cache_wf_new|done|done|].
    vm_compute in Hrun. injection Hrun as <-. exact Hwf. }
  assert (get c "q1" [] = Ok (Some 10%Z, c1)) as Hget
    by (vm_compute; reflexivity).
  split_and!; [exact Hwf|exact Hget|].
  apply (get_protects_from_next_eviction c "q1" [] 10%Z c1 "q3" [] 30%Z Hwf);
    [simpl; lia|exact Hget].
Defined.

(** X2, instance: five calls on a cache of capacity 2. *)
Lemma cache_run_within_capacity_witness :
  let ops := [CachePut "q1" [] 10%Z; CachePut "q2" [] 20%Z; CacheGet "q1" [];
              CachePut "q3" [] 30%Z; CacheGet "q2" []] in
  ∃ c,
    cache_run (new_cache 2) ops = Ok c ∧
    cache_wf c ∧ max_size c = 2%Z ∧
    (Z.of_nat (size (_store c)) ≤ 2)%Z ∧
    (hits c + misses c = len (filter is_get ops))%Z ∧
    (0 ≤ hits c)%Z ∧ (0 ≤ misses c)%Z.
Proof.
  intros ops. apply (cache_run_within_capacity 2 ops). lia.
Defined.

(** X5, instance: 2 hits and 4 misses give the float nearest to 1/3. *)
Lemma hit_rate_defined_witness :
  let c := {| max_size := 64; _store := (∅ : gmap string Z);
              _access_order := []; hits := 2; misses := 4 |} in
  hit_rate c = inr 0x1.5555555555555p-2%float ∧
  ∃ x, hit_rate c = inr x ∧
       (hits c = 0%Z → x = 0%float) ∧
       (misses c = 0%Z → (0 < hits c)%Z → x = 1%float).
Proof.
  intros c. split; [vm_compute; reflexivity|].
  apply (hit_rate_defined c); simpl; lia.
Defined.

(** ** The load balancer in use *)

Section PySortedFirst.
Context {A K : Type} (key : A → K) (le : K → K → bool).
Hypothesis le_total : ∀ a b, le a b ∨ le b a.
Hypothesis le_trans : ∀ a b c, le a b → le b c → le a c.

(** The head of the sorted list is the first least element of the input:
    everything before it is strictly greater. *)
Lemma py_sorted_head_first x l' l :
  py_sorted key le l = x :: l' →
  ∃ l1 l2, l = l1 ++ x :: l2 ∧
    (∀ y, y ∈ l1 → ¬ le (key y) (key x)) ∧
    (∀ y, y ∈ l2 → le (key x) (key y)).
Proof.
  revert x l'. induction l as [|a l IH]; intros x l'; simpl; [done|].
  destruct (py_sorted key le l) as [|h t] eqn:Hs; simpl.
  - intros [= <- <-].
    pose proof (py_sorted_Permutation key le l) as Hp. rewrite Hs in Hp.
    apply Permutation_nil in Hp as ->.
    exists [], []. split_and!; [done|intros ? ?%elem_of_nil; done..].
  - destruct (IH h t eq_refl) as (m1 & m2 & -> & Hm1 & Hm2).
    destruct (le (key a) (key h)) eqn:Hah.
    + intros [= <- <-]. exists [], (m1 ++ h :: m2).
      split_and!; [done|intros ? ?%elem_of_nil; done|].
      intros y [Hy|[->|Hy]%elem_of_cons]%elem_of_app.
      * apply le_trans with (key h); [by rewrite Hah|].
        destruct (le_total (key h) (key y)) as [?|Hyh]; [done|].
        by destruct (Hm1 y Hy).
      * by rewrite Hah.
      * apply le_trans with (key h); [by rewrite Hah|by apply Hm2].
    + intros [= <- <-]. exists (a :: m1), m2.
      split_and!; [done| |done].
      intros y [->|Hy]%elem_of_cons; [|by apply Hm1].
      rewrite Hah. by intros [].
Qed.
End PySortedFirst.

Lemma omap_app_cons_inv {A B} (f : A → option B) l l1' y l2' :
  omap f l = l1' ++ y :: l2' →
  ∃ l1 x l2, l = l1 ++ x :: l2 ∧ f x = Some y ∧
             omap f l1 = l1' ∧ omap f l2 = l2'.
Proof.
  revert l1'. induction l as [|a l IH]; intros l1'; csimpl.
  { by destruct l1'. }
  destruct (f a) as [b|] eqn:Hfa.
  - destruct l1' as [|b' l1']; simpl.
    + intros [= -> Hl]. exists [], a, l. by split_and!.
    + intros [= -> Hl]. destruct (IH _ Hl) as (l1 & x & l2 & -> & Hx & H1 & H2).
      exists (a :: l1), x, l2. csimpl. rewrite Hfa, H1. by split_and!.
  - intros Hl. destruct (IH _ Hl) as (l1 & x & l2 & -> & Hx & H1 & H2).
    exists (a :: l1), x, l2. csimpl. rewrite Hfa. by split_and!.
Qed.

(** X6: the server [select_server] returns is the first, in registration
    order, of the least-loaded servers that have every required
    capability: each qualifying server registered before it carries a
    strictly greater load, each one registered after it a load at least as
    great. *)
Theorem select_server_first_least_loaded lb required_caps chosen lb' :
  select_server lb required_caps = (Some chosen, lb') →
  ∃ before info after,
    servers lb = before ++ (chosen, info) :: after ∧
    qualifies required_caps info ∧
    (∀ p, p ∈ before → qualifies required_caps p.2 →
          (current_load info < current_load p.2)%Z) ∧
    (∀ p, p ∈ after → qualifies required_caps p.2 →
          (current_load info ≤ current_load p.2)%Z).
Proof.
  unfold select_server.
  destruct (candidates_of required_caps (servers lb)) as [|c0 cs] eqn:Hc;
    [done|].
  rewrite <-Hc.
  destruct (py_sorted snd Z.leb (candidates_of required_caps (servers lb)))
    as [|[chosen' load] rest] eqn:Hs; [done|].
  intros [= -> <-].
  apply py_sorted_head_first in Hs as (c1 & c2 & Hcs & Hc1 & Hc2);
    [|apply Z_leb_total|apply Z_leb_trans].
  unfold candidates_of in Hcs.
  apply omap_app_cons_inv in Hcs
    as (before & [name info] & after & Hsv & Hx & H1 & H2).
  destruct (has_capabilities required_caps info) eqn:Hq; [|done].
  simplify_eq. apply has_capabilities_true in Hq.
  exists before, info, after. split_and!; [done..| |].
  - intros [n i] Hin Hqi. simpl in *.
    assert ((n, current_load i) ∈ candidates_of required_caps before) as Hcand
      by (apply elem_of_candidates_of; eauto).
    apply Hc1 in Hcand. simpl in Hcand.
    rewrite Is_true_true, Z.leb_le in Hcand. lia.
  - intros [n i] Hin Hqi. simpl in *.
    assert ((n, current_load i) ∈ candidates_of required_caps after) as Hcand
      by (apply elem_of_candidates_of; eauto).
    apply Hc2 in Hcand. simpl in Hcand.
    rewrite Is_true_true, Z.leb_le in Hcand. lia.
Qed.

Section DictMoreFacts.
Context {A : Type}.
Implicit Types (d : list (string * A)) (k : string) (a : A).

Lemma dict_get_set d k a k' :
  dict_get (dict_set d k a) k' =
    if decide (k = k') then Some a else dict_get d k'.
Proof.
  induction d as [|[k0 a0] d IH]; simpl.
  - destruct (decide (k = k')) as [->|?].
    + by rewrite decide_True.
    + by rewrite decide_False by done.
  - destruct (decide (k = k0)) as [->|Hne]; simpl.
    + destruct (decide (k0 = k')) as [->|?].
      * by rewrite decide_True.
      * by rewrite !(decide_False (P:=k' = k0)) by done.
    + destruct (decide (k' = k0)) as [->|?]; [by rewrite decide_False|].
      apply IH.
Qed.

Lemma dict_alter_compose (f g : A → A) d k :
  dict_alter f (dict_alter g d k) k = dict_alter (f ∘ g) d k.
Proof.
  induction d as [|[k0 a0] d IH]; simpl; [done|].
  case_decide; simpl.
  - by rewrite decide_True.
  - rewrite decide_False by done. by rewrite IH.
Qed.

Lemma dict_alter_ext (f g : A → A) d k :
  (∀ a, dict_get d k = Some a → f a = g a) →
  dict_alter f d k = dict_alter g d k.
Proof.
  induction d as [|[k0 a0] d IH]; simpl; [done|].
  case_decide; intros Hfg.
  - by rewrite Hfg.
  - by rewrite IH.
Qed.

Lemma dict_alter_id (f : A → A) d k :
  (∀ a, dict_get d k = Some a → f a = a) → dict_alter f d k = d.
Proof.
  induction d as [|[k0 a0] d IH]; simpl; [done|].
  case_decide; intros Hf.
  - by rewrite Hf.
  - by rewrite IH.
Qed.

Lemma dict_get_fmap {B} (f : A → B) d k :
  dict_get (prod_map id f <$> d) k = f <$> dict_get d k.
Proof.
  induction d as [|[k0 a0] d IH]; csimpl; [done|]. by case_decide.
Qed.
End DictMoreFacts.

(** [select_server] in terms of the sorted candidates alone. *)
Lemma select_server_sorted lb required_caps :
  select_server lb required_caps =
    match py_sorted snd Z.leb (candidates_of required_caps (servers lb)) with
    | [] => (None, lb)
    | (chosen, _) :: _ =>
        (Some chosen, {| servers := dict_alter selected (servers lb) chosen |})
    end.
Proof.
  unfold select_server.
  destruct (candidates_of required_caps (servers lb)) as [|c0 cs] eqn:Hc;
    [done|].
  destruct (py_sorted _ _ _) as [|[chosen load] rest]; [done|].
  by rewrite dict_alter_add_handled_add_load.
Qed.

Lemma select_server_Some lb required_caps chosen lb' :
  select_server lb required_caps = (Some chosen, lb') →
  chosen ∈ (servers lb).*1 ∧
  servers lb' = dict_alter selected (servers lb) chosen.
Proof.
  rewrite select_server_sorted.
  destruct (py_sorted _ _ _) as [|[chosen' load] rest] eqn:Hs; [done|].
  intros [= -> <-]. split; [|done].
  pose proof (py_sorted_Permutation snd Z.leb
                (candidates_of required_caps (servers lb))) as Hp.
  rewrite Hs in Hp.
  assert ((chosen, load) ∈ candidates_of required_caps (servers lb)) as Hin
    by (rewrite <-Hp; by left).
  apply elem_of_candidates_of in Hin as (info & Hin & _).
  by apply (list_elem_of_fmap_2 fst _ (chosen, info)).
Qed.

Lemma release_registered lb name :
  name ∈ (servers lb).*1 →
  release lb name = {| servers := dict_alter dec_load (servers lb) name |}.
Proof.
  intros Hin. unfold release.
  by rewrite (proj2 (dict_mem_true _ _) Hin).
Qed.

(** X7: when no load is negative, releasing the server that
    [select_server] has just returned restores every [current_load]; the
    only trace of the request is the selected server's [total_handled],
    raised by one. *)
Theorem select_then_release lb required_caps chosen lb' :
  Forall (λ p, (0 ≤ current_load p.2)%Z) (servers lb) →
  select_server lb required_caps = (Some chosen, lb') →
  servers (release lb' chosen) = dict_alter add_handled (servers lb) chosen ∧
  (∀ name info,
     dict_get (servers lb) name = Some info →
     ∃ info',
       dict_get (servers (release lb' chosen)) name = Some info' ∧
       capabilities info' = capabilities info ∧
       current_load info' = current_load info ∧
       total_handled info' =
         (total_handled info + if decide (name = chosen) then 1 else 0)%Z).
Proof.
  intros Hloads [Hin Hlb']%select_server_Some.
  assert (servers (release lb' chosen)
          = dict_alter add_handled (servers lb) chosen) as Heq.
  { rewrite release_registered by (by rewrite Hlb', dict_alter_keys).
    simpl. rewrite Hlb', dict_alter_compose.
    apply dict_alter_ext. intros [caps load handled] Hget.
    apply dict_get_Some_elem_of in Hget.
    apply (proj1 (Forall_forall _ _) Hloads) in Hget. simpl in Hget.
    unfold dec_load, selected, add_handled. simpl. f_equal. lia. }
  split; [done|].
  intros name info Hget. rewrite Heq, dict_get_alter, Hget.
  destruct (decide (chosen = name)) as [->|Hne].
  - rewrite decide_True by done. eexists. split; [done|]. simpl. by split_and!.
  - rewrite decide_False by done. exists info. split_and!; [done..|lia].
Qed.

Lemma lb_step_handled lb op :
  Forall (λ p, (0 ≤ total_handled p.2 ∧
                current_load p.2 ≤ total_handled p.2)%Z) (servers lb) →
  Forall (λ p, (0 ≤ total_handled p.2 ∧
                current_load p.2 ≤ total_handled p.2)%Z)
    (servers (lb_step lb op)).
Proof.
  rewrite !Forall_forall. intros Hlb [n i] Hin. simpl.
  destruct op as [name caps|required_caps|server_name|]; simpl in Hin.
  - apply elem_of_dict_set in Hin as [[-> ->]|Hin]; [done|].
    by apply (Hlb (n, i)).
  - rewrite select_server_sorted in Hin.
    destruct (py_sorted _ _ _) as [|[chosen ?] ?]; [by apply (Hlb (n, i))|].
    simpl in Hin.
    apply elem_of_dict_alter in Hin as [Hin|(-> & a & Hin & ->)];
      [by apply (Hlb (n, i))|].
    apply Hlb in Hin. simpl in *. lia.
  - unfold release in Hin. destruct (dict_mem _ _); [|by apply (Hlb (n, i))].
    simpl in Hin.
    apply elem_of_dict_alter in Hin as [Hin|(-> & a & Hin & ->)];
      [by apply (Hlb (n, i))|].
    apply Hlb in Hin. simpl in *. lia.
  - by apply (Hlb (n, i)).
Qed.

(** X8: in every balancer reached from a new one by [register_server],
    [select_server], [release] and [load_distribution] calls, no server's
    [current_load] exceeds its [total_handled], which is never negative. *)
Theorem current_load_at_most_handled (ops : list lb_op) :
  Forall (λ p, (0 ≤ total_handled p.2 ∧
                current_load p.2 ≤ total_handled p.2)%Z)
    (servers (lb_run ops)).
Proof.
  apply (lb_run_invariant
           (λ lb, Forall (λ p, (0 ≤ total_handled p.2 ∧
                                current_load p.2 ≤ total_handled p.2)%Z)
                    (servers lb))).
  - constructor.
  - intros lb op. apply lb_step_handled.
Qed.

(** X9: [register_server] stores a record with the given capabilities as a
    set and both counters at 0.  Under a new name the record goes last in
    the iteration order; under a registered name it replaces the old record
    in its place, so the load and the handled count of that server are
    forgotten.  No other record changes and the names stay distinct. *)
Theorem register_server_resets lb name caps :
  let lb' := register_server lb name caps in
  dict_get (servers lb') name =
    Some {| capabilities := list_to_set caps;
            current_load := 0; total_handled := 0 |} ∧
  (∀ other, other ≠ name →
            dict_get (servers lb') other = dict_get (servers lb) other) ∧
  (servers lb').*1 =
    (if decide (name ∈ (servers lb).*1) then (servers lb).*1
     else (servers lb).*1 ++ [name]) ∧
  (NoDup (servers lb).*1 → NoDup (servers lb').*1).
Proof.
  intros lb'. unfold lb', register_server. simpl. split_and!.
  - by rewrite dict_get_set, decide_True.
  - intros other Hne. by rewrite dict_get_set, decide_False.
  - apply dict_set_keys.
  - apply dict_set_NoDup.
Qed.

Lemma load_distribution_fmap lb :
  load_distribution lb = prod_map id total_handled <$> servers lb.
Proof.
  unfold load_distribution. apply list_fmap_ext. by intros ? [? ?].
Qed.

Lemma selections_of_spec name ops : ∀ lb n,
  NoDup (servers lb).*1 →
  (∀ info, dict_get (servers lb) name = Some info → total_handled info = n) →
  ∀ info, dict_get (servers (foldl lb_step lb ops)) name = Some info →
          total_handled info = selections_of name lb ops n.
Proof.
  induction ops as [|op ops IH]; intros lb n Hnd Hn info; simpl; [by auto|].
  apply IH; [by apply lb_step_NoDup|]. clear info IH.
  intros info. destruct op as [name' caps|required_caps|server_name|]; simpl.
  - rewrite dict_get_set. case_decide; [by intros [= <-]|by auto].
  - pose proof (select_server_cases lb required_caps Hnd) as H.
    destruct (select_server lb required_caps) as [[chosen|] lb']; simpl.
    + destruct H as (i & Hget & _ & _ & ->). rewrite dict_get_alter.
      destruct (decide (chosen = name)) as [->|Hne].
      * rewrite decide_True by done. rewrite Hget. intros [= <-]. simpl.
        by rewrite (Hn i Hget).
      * rewrite decide_False by congruence. by auto.
    + destruct H as [-> _]. by auto.
  - unfold release. destruct (dict_mem _ _); simpl; [|by auto].
    rewrite dict_get_alter. case_decide; [|by auto].
    destruct (dict_get (servers lb) name) as [i|] eqn:Hget; [|done].
    intros [= <-]. simpl. by auto.
  - by auto.
Qed.

(** X10: after any sequence of calls on a new balancer,
    [load_distribution] lists the registered servers in registration order,
    each with the number of [select_server] calls that returned it since
    it was last registered. *)
Theorem load_distribution_counts_selections (ops : list lb_op) name :
  (load_distribution (lb_run ops)).*1 = (servers (lb_run ops)).*1 ∧
  dict_get (load_distribution (lb_run ops)) name =
    if decide (name ∈ (servers (lb_run ops)).*1)
    then Some (selections_of name new_balancer ops 0) else None.
Proof.
  rewrite load_distribution_fmap. split.
  { rewrite <-list_fmap_compose. by apply list_fmap_ext. }
  rewrite dict_get_fmap. case_decide as Hin.
  - apply dict_get_is_Some in Hin as [info Hget]. rewrite Hget. simpl. f_equal.
    apply (selections_of_spec name ops new_balancer 0); [constructor|done|done].
  - apply dict_get_None in Hin. by rewrite Hin.
Qed.

Lemma candidates_of_alter_handled required_caps n svs name :
  candidates_of required_caps (dict_alter (add_handled_n n) svs name)
  = candidates_of required_caps svs.
Proof.
  unfold candidates_of.
  induction svs as [|[k i] svs IH]; csimpl; [done|].
  case_decide; csimpl; [done|]. by rewrite IH.
Qed.

Lemma serve_request_handled lb caps chosen lb' n :
  Forall (λ p, (0 ≤ current_load p.2)%Z) (servers lb) →
  select_server lb caps = (Some chosen, lb') → chosen ≠ "" →
  serve_request
    {| servers := dict_alter (add_handled_n n) (servers lb) chosen |} caps
  = {| servers := dict_alter (add_handled_n (n + 1)) (servers lb) chosen |}.
Proof.
  intros Hloads Hsel Hne.
  pose proof (select_server_Some _ _ _ _ Hsel) as [Hin _].
  unfold serve_request. rewrite select_server_sorted in Hsel |- *. simpl.
  rewrite candidates_of_alter_handled.
  destruct (py_sorted _ _ _) as [|[chosen' load] rest]; [done|].
  injection Hsel as -> _.
  rewrite bool_decide_eq_true_2 by done.
  rewrite release_registered by (by simpl; rewrite !dict_alter_keys).
  simpl. rewrite !dict_alter_compose. f_equal.
  apply dict_alter_ext. intros [cs load' handled] Hget.
  apply dict_get_Some_elem_of in Hget.
  apply (proj1 (Forall_forall _ _) Hloads) in Hget. simpl in Hget.
  unfold dec_load, selected, add_handled_n. simpl. f_equal; lia.
Qed.

(** X11: requests that are each released before the next is selected, as
    in the loop of [demo_load_balancing], all go to the same server: from a
    balancer without negative loads, [n] such requests with the same
    capabilities raise the [total_handled] of the server the first one
    selects by [n] and change nothing else.  The demonstration so prints
    25 requests for [nlp_server], none for [data_server] and 8 for
    [ml_server]. *)
Theorem serve_request_same_server lb caps chosen lb' (n : nat) :
  Forall (λ p, (0 ≤ current_load p.2)%Z) (servers lb) →
  select_server lb caps = (Some chosen, lb') → chosen ≠ "" →
  servers (Nat.iter n (λ lb, serve_request lb caps) lb)
  = dict_alter (add_handled_n (Z.of_nat n)) (servers lb) chosen ∧
  demo_load_balancing
  = [("nlp_server", 25%Z); ("data_server", 0%Z); ("ml_server", 8%Z)].
Proof.
  intros Hloads Hsel Hne. split; [|by vm_compute].
  induction n as [|n IH].
  - simpl. symmetry. apply dict_alter_id.
    intros [cs load handled] _. unfold add_handled_n. simpl. f_equal. lia.
  - simpl. destruct (Nat.iter n _ lb) as [svs]. simpl in IH. subst svs.
    rewrite (serve_request_handled lb caps chosen lb') by done.
    cbn [servers]. by replace (Z.of_nat n + 1)%Z with (Z.of_nat (S n)) by lia.
Qed.

(** X6, instance: of two idle servers that can search, the one registered
    first is selected, behind a busier one registered before both. *)
Lemma select_server_first_least_loaded_witness :
  let lb :=
    {| servers :=
         [("a", {| capabilities := {["search"]};
                   current_load := 1; total_handled := 1 |});
          ("b", {| capabilities := {["search"]};
                   current_load := 0; total_handled := 0 |});
          ("c", {| capabilities := {["search"]};
                   current_load := 0; total_handled := 0 |})] |} in
  (select_server lb ["search"]).1 = Some "b" ∧
  ∃ before info after,
    servers lb = before ++ ("b", info) :: after ∧
    qualifies ["search"] info ∧
    (∀ p, p ∈ before → qualifies ["search"] p.2 →
          (current_load info < current_load p.2)%Z) ∧
    (∀ p, p ∈ after → qualifies ["search"] p.2 →
          (current_load info ≤ current_load p.2)%Z).
Proof.
  intros lb. split; [vm_compute; reflexivity|].
  apply (select_server_first_least_loaded lb ["search"] "b"
           (select_server lb ["search"]).2).
  vm_compute. reflexivity.
Defined.

(** X7, instance: two servers, one busy; the idle one is selected and
    released. *)
Lemma select_then_release_witness :
  let lb := lb_run [OpRegister "a" ["search"]; OpRegister "b" ["search"];
                    OpSelect ["search"]] in
  Forall (λ p, (0 ≤ current_load p.2)%Z) (servers lb) ∧
  (select_server lb ["search"]).1 = Some "b" ∧
  servers (release (select_server lb ["search"]).2 "b")
  = dict_alter add_handled (servers lb) "b".
Proof.
  intros lb.
  assert (Forall (λ p, (0 ≤ current_load p.2)%Z) (servers lb)) as Hloads.
  { apply (lb_run_invariant
             (λ lb, Forall (λ p, (0 ≤ current_load p.2)%Z) (servers lb))).
    - constructor.
    - intros lb0 op. apply lb_step_loads. }
  split_and!; [exact Hloads|vm_compute; reflexivity|].
  apply (select_then_release lb ["search"] "b"
           (select_server lb ["search"]).2 Hloads).
  vm_compute. reflexivity.
Defined.

(** X11, instance: the twenty search requests of the demonstration. *)
Lemma serve_request_same_server_witness :
  let lb :=
    lb_run [OpRegister "nlp_server" ["search"; "summarize"];
            OpRegister "data_server" ["search"; "aggregate"];
            OpRegister "ml_server" ["classify"; "predict"]] in
  (select_server lb ["search"]).1 = Some "nlp_server" ∧
  load_distribution (Nat.iter 20 (λ lb, serve_request lb ["search"]) lb)
  = [("nlp_server", 20%Z); ("data_server", 0%Z); ("ml_server", 0%Z)].
Proof.
  intros lb. split; [vm_compute; reflexivity|].
  assert (Forall (λ p, (0 ≤ current_load p.2)%Z) (servers lb)) as Hloads.
  { apply (lb_run_invariant
             (λ lb, Forall (λ p, (0 ≤ current_load p.2)%Z) (servers lb))).
    - constructor.
    - intros lb0 op. apply lb_step_loads. }
  destruct (serve_request_same_server lb ["search"] "nlp_server"
              (select_server lb ["search"]).2 20 Hloads) as [Hsv _];
    [vm_compute; reflexivity|done|].
  unfold load_distribution. rewrite Hsv. vm_compute. reflexivity.
Defined.

(** ** The bookkeeping of a run of [execute_dag] *)

Lemma invoked_tasks_app tr1 tr2 :
  invoked_tasks (tr1 ++ tr2) = invoked_tasks tr1 ++ invoked_tasks tr2.
Proof. apply omap_app. Qed.

Lemma recorded_tasks_app tr1 tr2 :
  recorded_tasks (tr1 ++ tr2) = recorded_tasks tr1 ++ recorded_tasks tr2.
Proof. apply omap_app. Qed.

Lemma invoked_tasks_Invoked ts : invoked_tasks (Invoked <$> ts) = ts.
Proof. induction ts as [|t ts IH]; csimpl; [done|by rewrite IH]. Qed.

Lemma invoked_tasks_Recorded ts : invoked_tasks (Recorded <$> ts) = [].
Proof. induction ts as [|t ts IH]; csimpl; done. Qed.

Lemma recorded_tasks_Recorded ts : recorded_tasks (Recorded <$> ts) = ts.
Proof. induction ts as [|t ts IH]; csimpl; [done|by rewrite IH]. Qed.

Lemma recorded_tasks_Invoked ts : recorded_tasks (Invoked <$> ts) = [].
Proof. induction ts as [|t ts IH]; csimpl; done. Qed.

Section AcctFacts.
Context {R E : Type}.
Implicit Types (s : run_state R) (dag : list (string * list string)).
Implicit Types (execute_fn : string → E + R).

Lemma gather_inr_results (outs : list (E + R)) rs :
  gather outs = inr rs → outs = inr <$> rs.
Proof.
  revert rs. induction outs as [|[e|r] outs IH]; intros rs; simpl.
  - by intros [= <-].
  - done.
  - destruct (gather outs); [done|]. intros [= <-]. csimpl. by rewrite <-IH.
Qed.

Lemma gather_zip execute_fn (ready : list string) rs t r :
  gather (execute_fn <$> ready) = inr rs →
  (t, r) ∈ zip ready rs → execute_fn t = inr r.
Proof.
  intros Hg%gather_inr_results.
  intros [i Hi]%list_elem_of_lookup.
  apply lookup_zip_with_Some in Hi as (t' & r' & [= <- <-] & Ht & Hr).
  assert ((execute_fn <$> ready) !! i = Some (execute_fn t)) as H1
    by (by rewrite list_lookup_fmap, Ht).
  rewrite Hg, list_lookup_fmap, Hr in H1. by injection H1.
Qed.

(** Storing results under new, distinct keys appends them. *)
Lemma foldl_dict_set_app (c l : list (string * R)) :
  NoDup l.*1 → (∀ k, k ∈ l.*1 → k ∉ c.*1) →
  foldl (λ c tr, dict_set c tr.1 tr.2) c l = c ++ l.
Proof.
  revert c. induction l as [|[t r] l IH]; intros c; csimpl.
  { intros _ _. by rewrite app_nil_r. }
  intros [Ht Hnd]%NoDup_cons Hnew.
  assert (dict_set c t r = c ++ [(t, r)]) as ->.
  { assert (t ∉ c.*1) as Hc by (apply Hnew; by left). clear -Hc.
    induction c as [|[k a] c IH]; csimpl; [done|].
    apply not_elem_of_cons in Hc as [? ?].
    rewrite decide_False by done. by rewrite IH. }
  rewrite IH, <-app_assoc; [done..|].
  intros k Hk. rewrite fmap_app, elem_of_app. csimpl.
  rewrite list_elem_of_singleton. intros [Hin| ->]; [|done].
  revert Hin. apply Hnew. by right.
Qed.

Lemma ready_tasks_sublist (c : list (string * R)) rem :
  ready_tasks c rem `sublist_of` rem.*1.
Proof.
  unfold ready_tasks. induction rem as [|[t deps] rem IH]; csimpl; [done|].
  destruct (forallb _ _); by constructor.
Qed.

Lemma run_inv_ready_NoDup dag orch0 k s :
  run_inv dag orch0 k s → NoDup (ready_tasks (completed s) (remaining s)).
Proof.
  intros Hinv. eapply sublist_NoDup; [|apply ready_tasks_sublist].
  rewrite (inv_remaining _ _ _ _ Hinv).
  apply filter_keys_NoDup. by eapply inv_nodup.
Qed.

Lemma run_acct_init orch0 execute_fn (dag : list (string * list string)) :
  run_acct orch0 execute_fn
    {| completed := @nil (string * R); remaining := dag;
       orch := orch0; trace := [] |}.
Proof.
  split; simpl; [constructor|by intros ? ? ?%elem_of_nil| |done..].
  unfold len. simpl. lia.
Qed.

Lemma wave_completed dag orch0 k s (results : list R) :
  run_inv dag orch0 k s →
  let ready := ready_tasks (completed s) (remaining s) in
  length results = length ready →
  completed (foldl record_result (start_batch s ready) (zip ready results))
  = completed s ++ zip ready results.
Proof.
  intros Hinv ready Hlen.
  destruct (foldl_record_result (start_batch s ready) (zip ready results))
    as (-> & _). simpl.
  apply foldl_dict_set_app; rewrite fst_zip by lia.
  - by eapply run_inv_ready_NoDup.
  - intros t Ht. by eapply ready_remaining.
Qed.

Lemma run_acct_wave dag orch0 execute_fn k s (results : list R) :
  run_inv dag orch0 k s → run_acct orch0 execute_fn s →
  let ready := ready_tasks (completed s) (remaining s) in
  gather (execute_fn <$> ready) = inr results →
  run_acct orch0 execute_fn
    (foldl record_result (start_batch s ready) (zip ready results)).
Proof.
  intros Hinv Hacct ready Hg.
  assert (length results = length ready) as Hlen.
  { apply gather_inr in Hg. by rewrite length_fmap in Hg. }
  pose proof (wave_completed dag orch0 k s results Hinv Hlen) as Hc.
  destruct (foldl_record_result (start_batch s ready) (zip ready results))
    as (_ & _ & _ & Hreq & Htr).
  rewrite fst_zip in Htr by lia. simpl in Hreq, Htr, Hc.
  fold ready in Hc.
  set (s' := foldl record_result _ _) in *.
  assert ((completed s').*1 = (completed s).*1 ++ ready) as Hkeys.
  { by rewrite Hc, fmap_app, fst_zip by lia. }
  split.
  - rewrite Hkeys. apply NoDup_app. split_and!.
    + by eapply acct_nodup.
    + intros t Ht Hr. by destruct (ready_remaining dag orch0 k s t Hinv Hr).
    + by eapply run_inv_ready_NoDup.
  - intros t r. rewrite Hc. intros [Hin|Hin]%elem_of_app.
    + by eapply acct_results.
    + by eapply gather_zip.
  - rewrite Hreq, (acct_requests _ _ _ Hacct), Hc. unfold len.
    rewrite length_app. lia.
  - rewrite Htr, !invoked_tasks_app, invoked_tasks_Invoked,
      invoked_tasks_Recorded, app_nil_r, Hkeys.
    by rewrite (acct_invoked _ _ _ Hacct).
  - rewrite Htr, !recorded_tasks_app, recorded_tasks_Invoked,
      recorded_tasks_Recorded, app_nil_r, Hkeys.
    by rewrite (acct_recorded _ _ _ Hacct).
Qed.

(** The bookkeeping at the end of the loop. *)
Lemma execute_loop_acct dag orch0 execute_fn fuel : ∀ k s o s',
  run_inv dag orch0 k s → run_acct orch0 execute_fn s →
  execute_loop fuel execute_fn s = Some (o, s') →
  match o with
  | TaskFailed e =>
      ∃ k0 s0,
        run_inv dag orch0 k0 s0 ∧ run_acct orch0 execute_fn s0 ∧
        ready_tasks (completed s0) (remaining s0) ≠ [] ∧
        gather (execute_fn <$> ready_tasks (completed s0) (remaining s0))
          = inl e ∧
        s' = start_batch s0 (ready_tasks (completed s0) (remaining s0))
  | _ => run_acct orch0 execute_fn s'
  end.
Proof.
  induction fuel as [|fuel IH]; intros k s o s' Hinv Hacct; simpl.
  - destruct (remaining s); [|done]. by intros [= <- <-].
  - destruct (remaining s) as [|p rem] eqn:Hrem; [by intros [= <- <-]|].
    rewrite <-Hrem.
    destruct (ready_tasks (completed s) (remaining s)) as [|t0 ready']
      eqn:Hready; [by intros [= <- <-]|].
    rewrite <-Hready.
    destruct (gather (execute_fn <$> ready_tasks (completed s) (remaining s)))
      as [e|results] eqn:Hg.
    + intros [= <- <-]. exists k, s. split_and!; [done..| |done|done].
      by rewrite Hready.
    + apply (IH (S k)).
      * apply run_inv_wave; [done|by rewrite Hready|].
        apply gather_inr in Hg. by rewrite length_fmap in Hg.
      * by eapply run_acct_wave.
Qed.

Lemma execute_dag_acct (self : RequestOrchestrator) dag execute_fn o s' :
  NoDup dag.*1 →
  execute_dag self dag execute_fn = Some (o, s') →
  match o with
  | TaskFailed e =>
      ∃ k0 s0,
        run_inv dag self k0 s0 ∧ run_acct self execute_fn s0 ∧
        ready_tasks (completed s0) (remaining s0) ≠ [] ∧
        gather (execute_fn <$> ready_tasks (completed s0) (remaining s0))
          = inl e ∧
        s' = start_batch s0 (ready_tasks (completed s0) (remaining s0))
  | _ => run_acct self execute_fn s'
  end.
Proof.
  intros Hnd Hrun.
  apply (execute_loop_acct dag self execute_fn (length dag) 0
           {| completed := []; remaining := dag; orch := self; trace := [] |});
    [by apply run_inv_init|apply run_acct_init|done].
Qed.

(** When no remaining task is ready, every grounded task is completed. *)
Lemma blocked_grounded_completed dag orch0 k s t :
  run_inv dag orch0 k s →
  ready_tasks (completed s) (remaining s) = [] →
  grounded dag t → t ∈ (completed s).*1.
Proof.
  intros Hinv Hready. induction 1 as [t deps Hget _ IH].
  apply dec_stable. intros Hnot.
  assert (t ∈ ready_tasks (completed s) (remaining s)) as Hin.
  { apply elem_of_ready_tasks. exists deps. split; [|done].
    by apply (run_inv_remaining_elem _ _ _ _ _ _ Hinv). }
  rewrite Hready in Hin. by apply elem_of_nil in Hin.
Qed.

Lemma run_acct_dict_get orch0 execute_fn s t r :
  run_acct orch0 execute_fn s →
  dict_get (completed s) t = Some r → execute_fn t = inr r.
Proof.
  intros Hacct Hget. apply (acct_results _ _ _ Hacct).
  by apply dict_get_Some_elem_of.
Qed.
End AcctFacts.

Section OrchestratorExtras.
Context {R E : Type}.
Implicit Types (dag : list (string * list string)).
Implicit Types (execute_fn : string → E + R).

(** X12: for an acyclic DAG whose dependencies are all keys and a callback
    that returns on every task, [execute_dag] returns a mapping that holds
    for every task the result the callback returned for it, in the order
    in which the tasks were invoked; the callback is invoked exactly once
    on each task, and [total_requests] grows by the number of tasks. *)
Theorem execute_dag_returns_results self dag execute_fn :
  NoDup dag.*1 → acyclic dag → deps_defined dag →
  (∀ t, t ∈ dag.*1 → ∃ r, execute_fn t = inr r) →
  ∃ c s',
    execute_dag self dag execute_fn = Some (Returned c, s') ∧
    (∀ t, t ∈ dag.*1 → ∃ r, dict_get c t = Some r ∧ execute_fn t = inr r) ∧
    c.*1 ≡ₚ dag.*1 ∧
    invoked_tasks (trace s') = c.*1 ∧
    recorded_tasks (trace s') = c.*1 ∧
    total_requests (orch s') = (total_requests self + len dag)%Z.
Proof.
  intros Hnd Hac Hdef Hfn.
  destruct (execute_dag_spec self dag execute_fn Hnd)
    as (o & s' & n & Hrun & _ & Ho).
  pose proof (execute_dag_acct self dag execute_fn o s' Hnd Hrun) as Hacct.
  destruct o as [c|err|e].
  - destruct Ho as (-> & _ & Hkeys & _).
    assert ((completed s').*1 ≡ₚ dag.*1) as Hperm.
    { apply NoDup_Permutation; [by eapply acct_nodup|done|done]. }
    exists (completed s'), s'. split_and!; [done| |done|..].
    + intros t Ht. apply Hkeys, dict_get_is_Some in Ht as [r Hr].
      exists r. split; [done|]. by eapply run_acct_dict_get.
    + by eapply acct_invoked.
    + by eapply acct_recorded.
    + rewrite (acct_requests _ _ _ Hacct). unfold len. f_equal. f_equal.
      rewrite <-(length_fmap fst (completed s')), <-(length_fmap fst dag).
      by apply Permutation_length.
  - destruct Ho as (_ & _ & Hinv & Hrem & Hready).
    by destruct (ready_tasks_nonempty dag self n s').
  - destruct Ho as (_ & t & Ht & Hfail).
    destruct (Hfn t Ht) as [r Hr]. congruence.
Qed.

(** X13: the structural error comes late.  On a DAG with a cycle or an
    undefined dependency and a callback that returns on every task,
    [execute_dag] first runs every task that no cycle and no undefined
    name blocks (the tasks all of whose dependency chains end), each once,
    and only then raises; [total_requests] keeps the count of the tasks
    that were run. *)
Theorem execute_dag_error_after_unblocked_tasks self dag execute_fn :
  NoDup dag.*1 → has_cycle dag ∨ has_dangling_dep dag →
  (∀ t, t ∈ dag.*1 → ∃ r, execute_fn t = inr r) →
  ∃ s',
    execute_dag self dag execute_fn = Some (Raised cycle_error, s') ∧
    (∀ t, t ∈ (completed s').*1 ↔ grounded dag t) ∧
    NoDup (completed s').*1 ∧
    invoked_tasks (trace s') = (completed s').*1 ∧
    recorded_tasks (trace s') = (completed s').*1 ∧
    (∀ t r, dict_get (completed s') t = Some r → execute_fn t = inr r) ∧
    total_requests (orch s')
      = (total_requests self + len (completed s'))%Z.
Proof.
  intros Hnd Hbad Hfn.
  destruct (not_all_grounded dag Hbad) as (t0 & Hkey & Hng).
  destruct (execute_dag_spec self dag execute_fn Hnd)
    as (o & s' & n & Hrun & _ & Ho).
  pose proof (execute_dag_acct self dag execute_fn o s' Hnd Hrun) as Hacct.
  destruct o as [c|err|e].
  - destruct Ho as (_ & _ & _ & Hg & _). destruct Hng. by apply Hg.
  - destruct Ho as (-> & _ & Hinv & Hrem & Hready).
    exists s'. split_and!; [done| | | | | |].
    + intros t. split; [by apply (inv_grounded _ _ _ _ Hinv)|].
      by eapply blocked_grounded_completed.
    + by eapply acct_nodup.
    + by eapply acct_invoked.
    + by eapply acct_recorded.
    + intros t r. by eapply run_acct_dict_get.
    + by eapply acct_requests.
  - destruct Ho as (_ & t & Ht & Hfail).
    destruct (Hfn t Ht) as [r Hr]. congruence.
Qed.

(** X14: when an exception of the callback leaves [execute_dag], the
    callback has been invoked on every task of the wave it was raised in,
    but no result of that wave is recorded, not even of a task that
    returned: the tasks of the wave are still in [remaining], [completed]
    holds the results of the earlier waves only, and [total_requests] has
    counted only those. *)
Theorem execute_dag_failed_wave_discarded self dag execute_fn e s' :
  NoDup dag.*1 →
  execute_dag self dag execute_fn = Some (TaskFailed e, s') →
  ∃ wave,
    invoked_tasks (trace s') = (completed s').*1 ++ wave ∧
    recorded_tasks (trace s') = (completed s').*1 ∧
    (∃ t, t ∈ wave ∧ execute_fn t = inl e) ∧
    (∀ t, t ∈ wave → t ∈ (remaining s').*1 ∧ t ∉ (completed s').*1) ∧
    (∀ t r, dict_get (completed s') t = Some r → execute_fn t = inr r) ∧
    total_requests (orch s')
      = (total_requests self + len (completed s'))%Z.
Proof.
  intros Hnd Hrun.
  destruct (execute_dag_acct self dag execute_fn _ s' Hnd Hrun)
    as (k0 & s0 & Hinv & Hacct & Hne & Hg & ->).
  exists (ready_tasks (completed s0) (remaining s0)). simpl. split_and!.
  - by rewrite invoked_tasks_app, invoked_tasks_Invoked,
      (acct_invoked _ _ _ Hacct).
  - by rewrite recorded_tasks_app, recorded_tasks_Invoked, app_nil_r,
      (acct_recorded _ _ _ Hacct).
  - apply gather_inl, list_elem_of_fmap in Hg as (t & Het & Ht). by exists t.
  - intros t Ht. split; [|by eapply ready_remaining].
    apply (run_inv_remaining_key _ _ _ _ _ Hinv).
    by eapply ready_remaining.
  - intros t r. by eapply run_acct_dict_get.
  - by eapply acct_requests.
Qed.
End OrchestratorExtras.

(** X12, instance: the graph of [demo_orchestration], with a callback that
    returns the task's name. *)
Lemma execute_dag_returns_results_witness :
  let dag := [("fetch_docs", []); ("fetch_schema", []);
              ("analyze", ["fetch_docs"; "fetch_schema"]);
              ("summarize", ["analyze"])] in
  let fn : string → Empty_set + string := inr in
  NoDup dag.*1 ∧ acyclic dag ∧ deps_defined dag ∧
  ∃ c s',
    execute_dag new_orchestrator dag fn = Some (Returned c, s') ∧
    (∀ t, t ∈ dag.*1 → ∃ r, dict_get c t = Some r ∧ fn t = inr r) ∧
    c.*1 ≡ₚ dag.*1 ∧
    invoked_tasks (trace s') = c.*1 ∧
    recorded_tasks (trace s') = c.*1 ∧
    total_requests (orch s') = (total_requests new_orchestrator + len dag)%Z.
Proof.
  intros dag fn.
  assert (NoDup dag.*1) as Hnd by (by apply (bool_decide_unpack _); vm_compute).
  edestruct (returned_run_certifies new_orchestrator dag fn) as (Hac & Hdef & _);
    [exact Hnd|vm_compute; reflexivity|].
  split_and!; [done..|].
  apply (execute_dag_returns_results new_orchestrator dag fn Hnd Hac Hdef).
  intros t _. by exists t.
Defined.

(** X13, instance: a task beside a two-task cycle. *)
Lemma execute_dag_error_after_unblocked_tasks_witness :
  let dag := [("X", []); ("A", ["B"]); ("B", ["A"])] in
  let fn : string → Empty_set + string := inr in
  NoDup dag.*1 ∧ has_cycle dag ∧
  ∃ s',
    execute_dag new_orchestrator dag fn = Some (Raised cycle_error, s') ∧
    (∀ t, t ∈ (completed s').*1 ↔ grounded dag t) ∧
    NoDup (completed s').*1 ∧
    invoked_tasks (trace s') = (completed s').*1 ∧
    recorded_tasks (trace s') = (completed s').*1 ∧
    (∀ t r, dict_get (completed s') t = Some r → fn t = inr r) ∧
    total_requests (orch s')
      = (total_requests new_orchestrator + len (completed s'))%Z.
Proof.
  intros dag fn.
  assert (NoDup dag.*1) as Hnd by (by apply (bool_decide_unpack _); vm_compute).
  assert (has_cycle dag) as Hcyc.
  { exists "A". apply tc_l with "B"; [|apply tc_once].
    - exists ["B"]. split; [reflexivity|by left].
    - exists ["A"]. split; [reflexivity|by left]. }
  split_and!; [done..|].
  apply (execute_dag_error_after_unblocked_tasks new_orchestrator dag fn Hnd
           (or_introl Hcyc)).
  intros t _. by exists t.
Defined.

(** X14, instance: two independent tasks of which the second fails. *)
Lemma execute_dag_failed_wave_discarded_witness :
  let dag := [("A", []); ("B", []); ("C", ["A"])] in
  let fn : string → string + Z :=
    λ t, if decide (t = "B") then inl "boom" else inr 1%Z in
  let s' := {| completed := []; remaining := dag;
               orch := {| total_requests := 0; total_batches := 1 |};
               trace := [Invoked "A"; Invoked "B"] |} in
  NoDup dag.*1 ∧
  execute_dag new_orchestrator dag fn = Some (TaskFailed "boom", s') ∧
  ∃ wave,
    invoked_tasks (trace s') = (completed s').*1 ++ wave ∧
    recorded_tasks (trace s') = (completed s').*1 ∧
    (∃ t, t ∈ wave ∧ fn t = inl "boom") ∧
    (∀ t, t ∈ wave → t ∈ (remaining s').*1 ∧ t ∉ (completed s').*1) ∧
    (∀ t r, dict_get (completed s') t = Some r → fn t = inr r) ∧
    total_requests (orch s')
      = (total_requests new_orchestrator + len (completed s'))%Z.
Proof.
  intros dag fn s'.
  assert (NoDup dag.*1) as Hnd by (by apply (bool_decide_unpack _); vm_compute).
  assert (execute_dag new_orchestrator dag fn = Some (TaskFailed "boom", s'))
    as Hrun by (vm_compute; reflexivity).
  split_and!; [done..|].
  exact (execute_dag_failed_wave_discarded new_orchestrator dag fn "boom" s'
           Hnd Hrun).
Defined.

(** ** The monitor's mean *)

Lemma scaled_to_float_mul_signed n s :
  (0 < n)%Z → scaled_to_float (n * s) n = scaled_to_float s 1.
Proof.
  intros Hn. unfold scaled_to_float.
  rewrite Z.abs_mul, (Z.abs_eq n) by lia.
  replace ((n * Z.abs s) `div` n)%Z with (Z.abs s)
    by (symmetry; rewrite (Z.mul_comm n); apply Z.div_mul; lia).
  rewrite Z.div_1_r, Z.mul_1_l.
  rewrite div_nearest_even_mul by (try apply Z.pow_pos_nonneg; lia).
  destruct (decide (s < 0)%Z).
  - rewrite !bool_decide_eq_true_2 by nia. done.
  - rewrite !bool_decide_eq_false_2 by nia. done.
Qed.

Lemma statistics_mean_replicate_signed n x s :
  float_scaled x = Some s →
  statistics_mean (replicate (S n) x) = Ok (scaled_to_float s 1).
Proof.
  intros Hx. unfold statistics_mean.
  change (replicate (S n) x) with (x :: replicate n x) at 1.
  cbv beta iota.
  rewrite (mapM_float_scaled_replicate (S n) x s Hx).
  rewrite foldr_add_replicate. unfold len. rewrite length_replicate.
  by rewrite scaled_to_float_mul_signed by lia.
Qed.

(** X15: on a monitor with a window of at least 1, [mean_latency] never
    raises: it is 0.0 when nothing was recorded and otherwise the mean of
    the retained samples, the last [2 * window] recorded.  The mean of any
    number of copies of one finite sample is the mean of that sample
    alone. *)
Theorem mean_latency_of_retained_samples (w : Z) (xs : list float) :
  (1 ≤ w)%Z →
  let m := foldl record (new_monitor w) xs in
  (∃ mean, mean_latency m = Ok mean) ∧
  mean_latency m =
    (if decide (xs = []) then Ok 0%float
     else statistics_mean (drop (length xs - Z.to_nat (2 * w)) xs)) ∧
  (∀ x s n, float_scaled x = Some s → xs = replicate (S n) x →
            mean_latency m = statistics_mean [x]).
Proof.
  intros Hw m.
  assert (_samples m = drop (length xs - Z.to_nat (2 * w)) xs) as Hs
    by (by apply foldl_record_samples).
  assert (mean_latency m =
            if decide (xs = []) then Ok 0%float
            else statistics_mean (drop (length xs - Z.to_nat (2 * w)) xs))
    as Hmean.
  { unfold mean_latency. rewrite Hs. destruct xs as [|x xs']; [done|].
    rewrite decide_False by done.
    by destruct (drop _ (x :: xs')) eqn:Hd;
      [apply (f_equal length) in Hd; rewrite length_drop in Hd;
       simpl in Hd; lia|]. }
  split_and!; [|done|].
  - unfold mean_latency. destruct (_samples m) as [|y ys]; [by eauto|].
    apply statistics_mean_Ok.
  - intros x s n Hx ->. rewrite Hmean, decide_False by done.
    rewrite drop_replicate, length_replicate.
    destruct (S n - (S n - Z.to_nat (2 * w))) as [|k] eqn:Hk; [lia|].
    rewrite (statistics_mean_replicate_signed k x s Hx).
    symmetry. exact (statistics_mean_replicate_signed 0 x s Hx).
Qed.

(** X15, instance: three samples on a monitor of window 1; the mean is
    that of the last two. *)
Lemma mean_latency_of_retained_samples_witness :
  let m := foldl record (new_monitor 1) [1; 2; 4]%float in
  mean_latency m = Ok 3%float ∧
  mean_latency m = statistics_mean [2; 4]%float.
Proof.
  intros m.
  destruct (mean_latency_of_retained_samples 1 [1; 2; 4]%float ltac:(lia))
    as (_ & Hmean & _).
  split; [vm_compute; reflexivity|exact Hmean].
Defined.
